(** * Open-With cleaner: a shallow embedding of [openwith_cleaner.py]

    The development follows the source file top to bottom: Python's string
    methods first, then the classifier ([which_exists],
    [extract_first_command], [detect_provider], [looks_broken],
    [read_desktop]), the locator ([find_desktop_files], [load_entries]),
    the mutating helpers ([set_nodisplay_override], [disable_user_file]),
    the association-file cleaner ([clean_mimeapps]) and the driver [main].

    Strings are [string]s whose characters are code points below 256.
    The file system, [PATH] lookup and the outcome of I/O calls are
    read from a record [World]; the files the tool changes live in a
    [state] threaded through a small exception monad. *)

From Stdlib Require Import Ascii String.
From stdpp Require Import base list gmap strings sorting pretty.

(** ** Python string methods *)

Module Py.

Definition code (c : ascii) : N := N_of_ascii c.

(** [str.isspace] on one character (also the class [\s] of [re]). *)
Definition isspace (c : ascii) : bool :=
  let n := code c in
  ((9 <=? n) && (n <=? 13) || (28 <=? n) && (n <=? 32)
   || (n =? 133) || (n =? 160))%N.

(** [str.lower] on one character. *)
Definition lower_char (c : ascii) : ascii :=
  let n := code c in
  if ((65 <=? n) && (n <=? 90)
      || (192 <=? n) && (n <=? 222) && negb (n =? 215))%N
  then ascii_of_N (n + 32) else c.

Fixpoint lower (s : string) : string :=
  match s with
  | EmptyString => EmptyString
  | String c s' => String (lower_char c) (lower s')
  end.

Fixpoint lstrip (s : string) : string :=
  match s with
  | EmptyString => EmptyString
  | String c s' => if isspace c then lstrip s' else s
  end.

Definition rstrip (s : string) : string :=
  String.rev (lstrip (String.rev s)).

Definition strip (s : string) : string := rstrip (lstrip s).

Definition startswith (s p : string) : bool := String.prefix p s.

Definition endswith (s p : string) : bool :=
  String.prefix (String.rev p) (String.rev s).

(** [sub in s] *)
Fixpoint contains (s sub : string) : bool :=
  String.prefix sub s ||
  match s with
  | EmptyString => false
  | String _ s' => contains s' sub
  end.

(** [s.split(sep)] for a one-character separator: the pieces between
    separators, empty ones included. *)
Fixpoint split_go (sep : ascii) (cur : string) (s : string) : list string :=
  match s with
  | EmptyString => [String.rev cur]
  | String c s' =>
      if Ascii.eqb c sep then String.rev cur :: split_go sep EmptyString s'
      else split_go sep (String c cur) s'
  end.
Definition split (sep : ascii) (s : string) : list string :=
  split_go sep EmptyString s.

(** [sep.join(l)] *)
Definition join (sep : string) (l : list string) : string :=
  String.concat sep l.

(** [s[1:-1]] *)
Definition strip_ends (s : string) : string :=
  match s with
  | EmptyString => EmptyString
  | String _ s' => String.rev (match String.rev s' with
                               | EmptyString => EmptyString
                               | String _ r => r
                               end)
  end.

(** Line boundaries of [str.splitlines]. *)
Definition is_linebreak (c : ascii) : bool :=
  let n := code c in
  ((10 <=? n) && (n <=? 13) || (28 <=? n) && (n <=? 30) || (n =? 133))%N.

(** [s.splitlines()]: a carriage return followed by a line feed is one
    boundary, and no empty last line is produced. *)
Fixpoint splitlines_go (cur : string) (s : string) : list string :=
  match s with
  | EmptyString =>
      match cur with EmptyString => [] | _ => [String.rev cur] end
  | String c s' =>
      if is_linebreak c then
        String.rev cur ::
          match c, s' with
          | "013"%char, String "010"%char s'' => splitlines_go EmptyString s''
          | _, _ => splitlines_go EmptyString s'
          end
      else splitlines_go (String c cur) s'
  end.
Definition splitlines (s : string) : list string :=
  splitlines_go EmptyString s.

(** Universal newlines of a file opened in text mode: on reading, a
    carriage return, alone or followed by a line feed, becomes one line
    feed. *)
Fixpoint universal_newlines (s : string) : string :=
  match s with
  | EmptyString => EmptyString
  | String "013"%char s' =>
      String "010"%char
        match s' with
        | String "010"%char s'' => universal_newlines s''
        | _ => universal_newlines s'
        end
  | String c s' => String c (universal_newlines s')
  end.
(** [bool(s)] of a string: non-empty. *)
Definition truthy (s : string) : bool :=
  match s with EmptyString => false | _ => true end.

End Py.

(** ** [pathlib.Path] on POSIX, as far as the tool uses it *)

Module Path.

(** The components of a path: empty and [.] pieces are dropped. *)
Definition parts (p : string) : list string :=
  filter (λ x, x ≠ EmptyString ∧ x ≠ "."%string) (Py.split "/"%char p).

(** [Path(p).name] *)
Definition name (p : string) : string := List.last (parts p) EmptyString.

(** [Path(p).is_absolute()] *)
Definition is_absolute (p : string) : bool := Py.startswith p "/".

(** [d / name] *)
Definition child (d nm : string) : string :=
  if Py.endswith d "/" then d +:+ nm else d +:+ "/" +:+ nm.

End Path.

(** ** The text of a file

    A file holds bytes; the tool reads and writes text, encoded as UTF-8.
    It reads with [errors='ignore']: bytes that do not decode are left
    out, the longest ill-formed prefix at a time, as the decoder of
    CPython does. A well-formed sequence for a code point of 256 or more
    stands for a character outside the strings of this development and
    is left out as well. *)

Module Utf8.

Definition byte (n : N) : ascii := ascii_of_N n.

(** [str.encode('utf-8')] *)
Definition encode_char (c : ascii) (rest : string) : string :=
  let n := Py.code c in
  if (n <? 128)%N then String c rest
  else String (byte (192 + n / 64)) (String (byte (128 + n mod 64)) rest).

Fixpoint encode (s : string) : string :=
  match s with
  | EmptyString => EmptyString
  | String c s' => encode_char c (encode s')
  end.

(** A continuation byte: [10xxxxxx]. *)
Definition is_cont (b : ascii) : bool :=
  let n := Py.code b in ((128 <=? n) && (n <? 192))%N.

(** The second byte a three-byte and a four-byte sequence may have after
    the lead byte [n]: no overlong form, no surrogate, nothing beyond
    U+10FFFF. *)
Definition second_of_three (n : N) (b : ascii) : bool :=
  let m := Py.code b in
  is_cont b && negb ((n =? 224) && (m <? 160))%N
  && negb ((n =? 237) && (160 <=? m))%N.

Definition second_of_four (n : N) (b : ascii) : bool :=
  let m := Py.code b in
  is_cont b && negb ((n =? 240) && (m <? 144))%N
  && negb ((n =? 244) && (144 <=? m))%N.

(** [bytes.decode('utf-8', errors='ignore')] *)
Fixpoint decode (s : string) : string :=
  match s with
  | EmptyString => EmptyString
  | String b rest =>
      let n := Py.code b in
      if (n <? 128)%N then String b (decode rest)
      else if (n <? 194)%N then decode rest
      else if (n <? 224)%N then
        match rest with
        | EmptyString => EmptyString
        | String b2 rest2 =>
            if is_cont b2 then
              if (n <? 196)%N
              then String (byte ((n - 192) * 64 + (Py.code b2 - 128))) (decode rest2)
              else decode rest2
            else decode rest
        end
      else if (n <? 240)%N then
        match rest with
        | EmptyString => EmptyString
        | String b2 rest2 =>
            if second_of_three n b2 then
              match rest2 with
              | EmptyString => EmptyString
              | String b3 rest3 =>
                  if is_cont b3 then decode rest3 else decode rest2
              end
            else decode rest
        end
      else if (n <? 245)%N then
        match rest with
        | EmptyString => EmptyString
        | String b2 rest2 =>
            if second_of_four n b2 then
              match rest2 with
              | EmptyString => EmptyString
              | String b3 rest3 =>
                  if is_cont b3 then
                    match rest3 with
                    | EmptyString => EmptyString
                    | String b4 rest4 =>
                        if is_cont b4 then decode rest4 else decode rest3
                    end
                  else decode rest2
              end
            else decode rest
        end
      else decode rest
  end.

(** What the tool reads from a file with these bytes:
    [open(p, encoding='utf-8', errors='ignore').read()]. *)
Definition as_read (bytes : string) : string :=
  Py.universal_newlines (decode bytes).

End Utf8.

(** ** The world the tool runs in

    Everything the tool only reads: the home directory, which paths exist,
    what [shutil.which] finds, what each directory lists, which file each
    path leads to, what [configparser] makes of each descriptor, and
    which I/O calls fail. *)

(** Outcome of [cp.read(path)] followed by the lookup of the
    [Desktop Entry] section: the library raised, or it returned, with the
    section's options when the section is there. Option names are stored
    lower-cased, as [optionxform] leaves them. *)
Inductive ini_result :=
  | IniRaises (msg : string)
  | IniSection (s : option (list (string * string))).

Record World := {
  home : string;                          (* [str(Path.home())] *)
  path_exists : string → bool;            (* [Path(p).exists()] *)
  shutil_which : string → bool;           (* [shutil.which(c) is not None] *)
  listdir : string → list string;         (* names in a directory, in enumeration order *)
  file_id : string → nat;                 (* the file a path leads to (device, inode) *)
  read_ini : string → ini_result;
  (* where the symbolic link stored at a path, with the given target
     text, leads: a relative target counts from the link's directory *)
  follow : string → string → string;
  (* I/O calls that fail, with the text of the exception they raise *)
  mkdir_error : string → option string;
  read_error : string → option string;
  write_error : string → option string;
  move_error : string → string → option string;
}.

(** ** Classifier *)

Definition WRAPPER_CMDS : list string :=
  ["env"; "bash"; "sh"; "fish"; "zsh"; "/usr/bin/env"; "flatpak"; "snap";
   "python"; "python3"; "perl"; "ruby"; "java"; "podman"; "docker"].

Definition which_exists (w : World) (cmd : string) : bool :=
  if negb (Py.truthy cmd) then false
  else if Path.is_absolute cmd then path_exists w cmd
  else shutil_which w cmd.

(** *** The tokenizer of [extract_first_command]

    [re.findall] with the source's pattern: one or more repetitions of
    either a run of characters that are neither blank nor a quote, or a
    span between two double quotes, or a span between two single quotes.
    One match is a maximal run of such pieces. A quote with no closing
    partner starts no piece: the match in progress ends before it and the
    scan resumes after it. *)

Definition dquote : ascii := "034"%char.
Definition squote : ascii := "039"%char.
Definition dquote_s : string := String dquote EmptyString.
Definition squote_s : string := String squote EmptyString.

Definition is_quote (c : ascii) : bool :=
  Ascii.eqb c dquote || Ascii.eqb c squote.

Fixpoint has_char (q : ascii) (s : string) : bool :=
  match s with
  | EmptyString => false
  | String c s' => Ascii.eqb c q || has_char q s'
  end.

Inductive scan_mode :=
  | Outside                (* no match in progress *)
  | InMatch                (* inside a match, between pieces or in a plain run *)
  | InQuote (q : ascii).   (* inside a quoted span opened by [q] *)

Definition emit (m : scan_mode) (cur : string) : list string :=
  match m with
  | Outside => []
  | _ => [String.rev cur]
  end.

Fixpoint findall_go (m : scan_mode) (cur : string) (s : string) : list string :=
  match s with
  | EmptyString => emit m cur
  | String c s' =>
      match m with
      | InQuote q =>
          if Ascii.eqb c q then findall_go InMatch (String c cur) s'
          else findall_go (InQuote q) (String c cur) s'
      | _ =>
          if is_quote c then
            if has_char c s' then findall_go (InQuote c) (String c cur) s'
            else emit m cur ++ findall_go Outside EmptyString s'
          else if Py.isspace c then emit m cur ++ findall_go Outside EmptyString s'
          else findall_go InMatch (String c cur) s'
      end
  end.

Definition findall_tokens (s : string) : list string :=
  findall_go Outside EmptyString s.

Definition extract_first_command (exec_line : string) : string :=
  if negb (Py.truthy exec_line) then ""
  else
    match findall_tokens (Py.strip exec_line) with
    | [] => ""
    | first :: _ =>
        if (Py.startswith first dquote_s && Py.endswith first dquote_s)
           || (Py.startswith first squote_s && Py.endswith first squote_s)
        then Py.strip_ends first
        else first
    end.

Definition detect_provider (w : World) (path exec_line : string) : string :=
  let low := Py.lower path +:+ " " +:+ Py.lower exec_line in
  if Py.contains low "flatpak" || Py.contains low "/var/lib/flatpak" then "flatpak"
  else if Py.contains low "snap" || Py.contains low "/var/lib/snapd" then "snap"
  else if which_exists w (extract_first_command exec_line) then "native"
  else "other".

Definition in_wrappers (cmd : string) : bool :=
  bool_decide (cmd ∈ WRAPPER_CMDS).

Definition looks_broken (w : World) (exec_line tryexec : string) : bool * string :=
  if Py.truthy tryexec && negb (which_exists w tryexec) then
    (true, "TryExec not found: " +:+ tryexec)
  else
    let cmd := extract_first_command exec_line in
    if negb (Py.truthy cmd) then (true, "Empty Exec")
    else if in_wrappers (Path.name cmd) || in_wrappers cmd then
      if negb (which_exists w cmd) then
        (true, "Wrapper not found in PATH: " +:+ cmd)
      else (false, "")
    else if negb (which_exists w cmd) then
      (true, "Executable not found: " +:+ cmd)
    else (false, "").

(** ** Entries and the parser *)

Record Entry := {
  path : string;
  scope : string;           (* 'user' or 'system' *)
  name : string;
  exec_line : string;
  tryexec : string;
  mimetypes : list string;
  hidden : bool;
  nodisplay : bool;
  entry_type : string;
  first_cmd : string;
  provider : string;        (* 'native', 'flatpak', 'snap', 'other' *)
  broken : bool;
  reason : string;
}.

Global Instance Entry_eq_dec : EqDecision Entry.
Proof. solve_decision. Defined.

(** [section.get(key)]: option names are looked up lower-cased. *)
Fixpoint assoc_get (l : list (string * string)) (k : string) : option string :=
  match l with
  | [] => None
  | (k', v) :: l' => if String.eqb k' k then Some v else assoc_get l' k
  end.

Definition sget (s : list (string * string)) (key : string) : option string :=
  assoc_get s (Py.lower key).

(** [section.getboolean(key, fallback=False)]: [inl] carries the message of
    the [ValueError] raised on a value that is no boolean word. *)
Definition getboolean (s : list (string * string)) (key : string)
    (fallback : bool) : string + bool :=
  match sget s key with
  | None => inr fallback
  | Some v =>
      let l := Py.lower v in
      if bool_decide (l ∈ ["1"; "yes"; "true"; "on"]) then inr true
      else if bool_decide (l ∈ ["0"; "no"; "false"; "off"]) then inr false
      else inl ("Not a boolean: " +:+ v)
  end.

Definition scope_of (w : World) (p : string) : string :=
  if Py.startswith p (home w) then "user" else "system".

(** The entry built by the [except] branch of [read_desktop]. *)
Definition parse_error_entry (w : World) (p msg : string) : Entry :=
  {| path := p; scope := scope_of w p; name := ""; exec_line := "";
     tryexec := ""; mimetypes := []; hidden := false; nodisplay := false;
     entry_type := "Application"; first_cmd := ""; provider := "other";
     broken := true; reason := "Parse error: " +:+ msg |}.

(** The [try] block of [read_desktop]: [inl] carries the text of the
    exception it raises, [inr] what it returns. *)
Definition read_desktop_body (w : World) (p : string) : string + option Entry :=
  match read_ini w p with
  | IniRaises msg => inl msg
  | IniSection None => inr None
  | IniSection (Some s) =>
      let entry_type := default "Application" (sget s "Type") in
      if negb (String.eqb (Py.lower entry_type) "application") then inr None
      else
        let name := Py.strip (default "" (sget s "Name")) in
        let exec_line := Py.strip (default "" (sget s "Exec")) in
        let tryexec := Py.strip (default "" (sget s "TryExec")) in
        match getboolean s "Hidden" false with
        | inl msg => inl msg
        | inr hidden =>
            match getboolean s "NoDisplay" false with
            | inl msg => inl msg
            | inr nodisplay =>
                let mime_raw := Py.strip (default "" (sget s "MimeType")) in
                let mimetypes := filter (λ m, Py.truthy m) (Py.split ";"%char mime_raw) in
                match mimetypes with
                | [] => inr None
                | _ =>
                    let first_cmd := extract_first_command exec_line in
                    let '(broken, reason) := looks_broken w exec_line tryexec in
                    inr (Some {| path := p; scope := scope_of w p; name := name;
                            exec_line := exec_line; tryexec := tryexec;
                            mimetypes := mimetypes; hidden := hidden;
                            nodisplay := nodisplay; entry_type := entry_type;
                            first_cmd := first_cmd;
                            provider := detect_provider w p exec_line;
                            broken := broken; reason := reason |})
                end
            end
        end
  end.

Definition read_desktop (w : World) (p : string) : option Entry :=
  match read_desktop_body w p with
  | inr r => r
  | inl msg => Some (parse_error_entry w p msg)
  end.

(** ** Locator *)

(** [os.path.expanduser] of a path that starts with a tilde and a slash;
    [tail] is the path after the tilde. *)
Definition expanduser (w : World) (tail : string) : string :=
  (if String.eqb (home w) "/" then "" else home w) +:+ tail.

Definition USER_DIRS (w : World) : list string :=
  [expanduser w "/.local/share/applications";
   expanduser w "/.local/share/flatpak/exports/share/applications"].

Definition SYSTEM_DIRS : list string :=
  ["/usr/share/applications";
   "/var/lib/flatpak/exports/share/applications";
   "/var/lib/snapd/desktop/applications"].

(** [Path(d).glob('*.desktop')] *)
Definition glob_desktop (w : World) (d : string) : list string :=
  Path.child d <$> filter (λ n, Py.endswith n ".desktop") (listdir w d).

(** The loop body of [find_desktop_files]: [paths] and [seen] as in the
    source, [seen] comparing paths as [Path.__eq__] does. *)
Definition visit_file (acc : list string * gset string) (f : string)
    : list string * gset string :=
  let '(paths, seen) := acc in
  if bool_decide (f ∈ seen) then (paths, seen)
  else (paths ++ [f], {[f]} ∪ seen).

Definition visit_dir (w : World) (acc : list string * gset string) (d : string)
    : list string * gset string :=
  if path_exists w d then fold_left visit_file (glob_desktop w d) acc
  else acc.

Definition find_desktop_files (w : World) : list string :=
  fst (fold_left (visit_dir w) (USER_DIRS w ++ SYSTEM_DIRS) ([], ∅)).

Definition keep_entry (o : option Entry) : option Entry :=
  match o with
  | Some e => match mimetypes e with [] => None | _ => Some e end
  | None => None
  end.

Definition load_entries_from (w : World) (files : list string) : list Entry :=
  omap (λ p, keep_entry (read_desktop w p)) files.

Definition load_entries (w : World) : list Entry :=
  load_entries_from w (find_desktop_files w).

(** ** Computed sets of [main] *)

Definition all_desktop_ids (entries : list Entry) : list string :=
  (λ e, Path.name (path e)) <$> entries.

Definition broken_entries (entries : list Entry) : list Entry :=
  filter (λ e, broken e = true ∧ hidden e = false) entries.

(** [d[k].append(e)] on a [defaultdict(list)]: keys stay in first-seen
    order. *)
Fixpoint dict_append {K} `{EqDecision K} (d : list (K * list Entry))
    (k : K) (e : Entry) : list (K * list Entry) :=
  match d with
  | [] => [(k, [e])]
  | (k', g) :: d' =>
      if decide (k' = k) then (k', g ++ [e]) :: d'
      else (k', g) :: dict_append d' k e
  end.

Definition name_key (e : Entry) : string := Py.lower (Py.strip (name e)).

Definition name_cmd_key (e : Entry) : string * string :=
  (Py.lower (Py.strip (name e)), Py.lower (Py.strip (first_cmd e))).

Definition by_name (entries : list Entry) : list (string * list Entry) :=
  fold_left (λ d e, dict_append d (name_key e) e) entries [].

Definition by_name_cmd (entries : list Entry)
    : list ((string * string) * list Entry) :=
  fold_left (λ d e, dict_append d (name_cmd_key e) e) entries [].

(** [len(g) > 1 and g[0].name] *)
Definition is_dup_group (g : list Entry) : bool :=
  match g with
  | e :: _ :: _ => Py.truthy (name e)
  | _ => false
  end.

Definition dup_name_groups (entries : list Entry) : list (list Entry) :=
  filter (λ g, is_dup_group g = true) (snd <$> by_name entries).

Definition dup_name_cmd_groups (entries : list Entry) : list (list Entry) :=
  filter (λ g, is_dup_group g = true) (snd <$> by_name_cmd entries).

(** The dictionary handed to [json.dumps]; [asdict] of an entry is the
    entry itself. *)
Record Payload := {
  total_candidates : nat;
  payload_broken : list Entry;
  dup_by_name : list (list Entry);
  dup_by_name_cmd : list (list Entry);
}.

Definition json_payload (entries : list Entry) : Payload :=
  {| total_candidates := length entries;
     payload_broken := broken_entries entries;
     dup_by_name := dup_name_groups entries;
     dup_by_name_cmd := dup_name_cmd_groups entries |}.

(** ** Effects

    The files the tool may change are kept in a [state]: the regular
    files by path with their bytes, the symbolic links by path with the
    target they store, the directories the tool has made, and the trace
    of what it printed and reported. A path is a regular file when
    [files] has it, and else a symbolic link when [links] has it.
    Directories are taken as they are named and a regular file has one
    name: the links followed are the symbolic links at the last component
    of a path. A computation either finishes or leaves by an exception
    that nothing caught. *)

Inductive event :=
  | Stdout (line : string)
  | Stderr (line : string)
  | Report (p : string) (payload : Payload).   (* the JSON report written to [p] *)

Record state := {
  files : gmap string string;
  links : gmap string string;
  dirs : gset string;
  trace : list event;
}.

Inductive outcome (A : Type) :=
  | Done (a : A) (s : state)
  | Raised (msg : string) (s : state).
Arguments Done {A} a s.
Arguments Raised {A} msg s.

Definition final {A} (o : outcome A) : state :=
  match o with Done _ s => s | Raised _ s => s end.

Definition M (A : Type) : Type := state → outcome A.

Global Instance M_ret : MRet M := λ A a s, Done a s.

Global Instance M_bind : MBind M := λ A B k m s,
  match m s with
  | Done a s' => k a s'
  | Raised msg s' => Raised msg s'
  end.

Definition raise {A} (msg : string) : M A := λ s, Raised msg s.

(** [try: m except Exception as e: h e] *)
Definition try_except {A} (m : M A) (h : string → M A) : M A :=
  λ s, match m s with
       | Done a s' => Done a s'
       | Raised msg s' => h msg s'
       end.

Definition emit_event (e : event) : M unit :=
  λ s, Done tt {| files := files s; links := links s; dirs := dirs s;
                  trace := trace s ++ [e] |}.

Definition print (line : string) : M unit := emit_event (Stdout line).
Definition eprint (line : string) : M unit := emit_event (Stderr line).

(** [Path.mkdir(parents=True, exist_ok=True)] *)
Definition mkdir (w : World) (d : string) : M unit :=
  λ s, match mkdir_error w d with
       | Some msg => Raised msg s
       | None => Done tt {| files := files s; links := links s;
                            dirs := {[d]} ∪ dirs s; trace := trace s |}
       end.

(** Opening, reading, writing and testing a path follow symbolic links,
    as the operating system does: from link to link, up to the forty the
    system allows, to the path of a regular file or to a path where
    nothing is. [None] is the system's refusal of a longer chain. *)
Definition max_links : nat := 40.

Fixpoint resolve_go (w : World) (fs ls : gmap string string) (fuel : nat)
    (p : string) : option string :=
  match fs !! p with
  | Some _ => Some p
  | None =>
      match ls !! p with
      | None => Some p
      | Some target =>
          match fuel with
          | 0 => None
          | S fuel' => resolve_go w fs ls fuel' (follow w p target)
          end
      end
  end.

Global Arguments resolve_go : simpl never.

Definition resolve (w : World) (s : state) (p : string) : option string :=
  resolve_go w (files s) (links s) max_links p.

Definition too_many_links (p : string) : string :=
  "Too many levels of symbolic links: " +:+ p.

(** [Path.exists()]: whether the path leads to a file; a link that leads
    nowhere does not exist. *)
Definition file_exists (w : World) (p : string) : M bool :=
  λ s, Done (match resolve w s p with
             | Some t => bool_decide (is_Some (files s !! t))
             | None => false
             end) s.

(** [Path.read_text(encoding='utf-8', errors='ignore')], and [read] on
    [open(p, 'r', encoding='utf-8', errors='ignore')]: the text of the
    file the path leads to. It fails on a missing file and where the
    world says. *)
Definition read_text (w : World) (p : string) : M string :=
  λ s, match read_error w p with
       | Some msg => Raised msg s
       | None =>
           match resolve w s p with
           | None => Raised (too_many_links p) s
           | Some t =>
               match files s !! t with
               | Some bytes => Done (Utf8.as_read bytes) s
               | None => Raised ("No such file or directory: " +:+ p) s
               end
           end
       end.

(** [Path.write_text(content, encoding='utf-8')], and writing to
    [open(p, 'w', encoding='utf-8')]: the file the path leads to is
    replaced, or made where the path leads when nothing is there. *)
Definition write_text (w : World) (p content : string) : M unit :=
  λ s, match write_error w p with
       | Some msg => Raised msg s
       | None =>
           match resolve w s p with
           | None => Raised (too_many_links p) s
           | Some t =>
               Done tt {| files := <[t := Utf8.encode content]> (files s);
                          links := links s; dirs := dirs s; trace := trace s |}
           end
       end.

(** [shutil.move] to a path that is no directory, within one file
    system (the tool moves inside the user application directory): the
    entry at [src], a regular file or a symbolic link as it is, is
    renamed to [dst] and replaces what was there. A link keeps the target
    it stores. *)
Definition move (w : World) (src dst : string) : M unit :=
  λ s, match move_error w src dst with
       | Some msg => Raised msg s
       | None =>
           match files s !! src with
           | Some bytes =>
               Done tt {| files := <[dst := bytes]> (delete src (files s));
                          links := delete dst (delete src (links s));
                          dirs := dirs s; trace := trace s |}
           | None =>
               match links s !! src with
               | Some target =>
                   Done tt {| files := delete dst (files s);
                              links := <[dst := target]> (delete src (links s));
                              dirs := dirs s; trace := trace s |}
               | None => Raised ("No such file or directory: " +:+ src) s
               end
           end
       end.

(** [for x in l: body x] *)
Fixpoint for_each {A} (l : list A) (body : A → M unit) : M unit :=
  match l with
  | [] => mret tt
  | x :: l' => body x;; for_each l' body
  end.

(** ** Mutating helpers *)

Definition user_applications (w : World) : string :=
  Path.child (Path.child (Path.child (home w) ".local") "share") "applications".

Definition ensure_user_dir (w : World) : M string :=
  let ud := user_applications w in
  mkdir w ud;; mret ud.

(** The [for]/[break] loop of [set_nodisplay_override]: the first line
    that starts with [NoDisplay=] is replaced; the flag tells whether one
    was found. *)
Fixpoint replace_first_nodisplay (lines : list string) : list string * bool :=
  match lines with
  | [] => ([], false)
  | line :: rest =>
      if Py.startswith line "NoDisplay=" then ("NoDisplay=true" :: rest, true)
      else let '(rest', changed) := replace_first_nodisplay rest in
           (line :: rest', changed)
  end.

Definition force_nodisplay (lines : list string) : list string :=
  let '(lines', changed) := replace_first_nodisplay lines in
  if changed then lines' else lines' ++ ["NoDisplay=true"].

Definition newline : string := String "010"%char EmptyString.

Definition shadow_content (content : string) : string :=
  Py.join newline (force_nodisplay (Py.splitlines content)) +:+ newline.

Definition set_nodisplay_override (w : World) (system_path : string) : M string :=
  ud ← ensure_user_dir w;
  let dst := Path.child ud (Path.name system_path) in
  try_except
    (content ← read_text w system_path;
     write_text w dst (shadow_content content);;
     mret dst)
    (λ e, eprint ("Failed to override " +:+ system_path +:+ ": " +:+ e);;
          mret system_path).

Definition disabled_dir (w : World) : string :=
  Path.child (user_applications w) ".disabled".

Definition disable_user_file (w : World) (user_path : string) : M string :=
  mkdir w (disabled_dir w);;
  let dst := Path.child (disabled_dir w) (Path.name user_path) in
  try_except
    (ex ← file_exists w user_path;
     (if ex : bool then move w user_path dst else mret tt);;
     mret dst)
    (λ e, eprint ("Failed to move " +:+ user_path +:+ ": " +:+ e);;
          mret user_path).

(** ** Keep selection *)

(** [d.get(k, dflt)] on a dictionary written as a list of pairs. *)
Definition dict_get {V} (d : list (string * V)) (k : string) (dflt : V) : V :=
  default dflt (snd <$> List.find (λ kv, String.eqb (fst kv) k) d).

Definition provider_rank (provider prefer : string) : nat :=
  let native_map := [("native", 0); ("flatpak", 1); ("snap", 2); ("other", 3)] in
  let pref_maps :=
    [("native", native_map);
     ("flatpak", [("flatpak", 0); ("native", 1); ("snap", 2); ("other", 3)]);
     ("snap", [("snap", 0); ("native", 1); ("flatpak", 2); ("other", 3)])] in
  dict_get (dict_get pref_maps prefer native_map) provider 3.

(** The key of [min] in the name strategy, and Python's order on such
    tuples: the first component that differs decides. *)
Definition sort_key (prefer : string) (x : Entry) : nat * nat * string :=
  (provider_rank (provider x) prefer,
   if String.eqb (scope x) "system" then 0 else 1,
   path x).

Definition key_lt (a b : nat * nat * string) : bool :=
  let '(r1, s1, p1) := a in
  let '(r2, s2, p2) := b in
  (r1 <? r2) || (r1 =? r2) && ((s1 <? s2) || (s1 =? s2) && String.ltb p1 p2).

(** [min(group, key=...)]: the running minimum is replaced only by a
    strictly smaller key, so the first of several minima wins. The
    position is kept along with the entry: the entries of a group are
    distinct objects, and [e is keep] holds at that position only. *)
Fixpoint min_go (key : Entry → nat * nat * string) (best_i : nat) (best : Entry)
    (i : nat) (l : list Entry) : nat * Entry :=
  match l with
  | [] => (best_i, best)
  | x :: l' =>
      if key_lt (key x) (key best) then min_go key i x (S i) l'
      else min_go key best_i best (S i) l'
  end.

Definition py_min (key : Entry → nat * nat * string) (l : list Entry)
    : option (nat * Entry) :=
  match l with
  | [] => None
  | x :: l' => Some (min_go key 0 x 1 l')
  end.

Definition keep_by_name (prefer : string) (group : list Entry) : option (nat * Entry) :=
  py_min (sort_key prefer) group.

(** The name+cmd strategy: the first system entry, else the first entry. *)
Fixpoint first_system (i : nat) (l : list Entry) : option (nat * Entry) :=
  match l with
  | [] => None
  | e :: l' => if String.eqb (scope e) "system" then Some (i, e)
               else first_system (S i) l'
  end.

Definition keep_by_name_cmd (group : list Entry) : option (nat * Entry) :=
  match first_system 0 group with
  | Some k => Some k
  | None => match group with [] => None | e :: _ => Some (0, e) end
  end.

(** ** The driver *)

Inductive strategy_t := StrategyName | StrategyNameCmd | StrategyAuto.

Record Args := {
  scan : bool;
  fix_broken : bool;
  hide_duplicates : bool;
  strategy : strategy_t;
  prefer : string;
  fix_mimeapps : bool;
  json : option string;
}.

(** [for i, e in enumerate(l): body i e] *)
Fixpoint for_each_i {A} (i : nat) (l : list A) (body : nat → A → M unit) : M unit :=
  match l with
  | [] => mret tt
  | x :: l' => body i x;; for_each_i (S i) l' body
  end.

(** The two branches every hiding loop ends in. *)
Definition hide_entry (w : World) (e : Entry) (user_msg system_msg : string → string)
    : M unit :=
  if String.eqb (scope e) "user" then
    newp ← disable_user_file w (path e);
    print (user_msg newp)
  else
    newp ← set_nodisplay_override w (path e);
    print (system_msg newp).

Definition fix_broken_loop (w : World) (broken : list Entry) : M unit :=
  for_each broken (λ e,
    hide_entry w e
      (λ newp, "  - disabled user entry: " +:+ path e +:+ " -> " +:+ newp)
      (λ newp, "  - shadowed system entry with NoDisplay=true at: " +:+ newp)).

Definition hide_duplicate (w : World) (e : Entry) : M unit :=
  hide_entry w e
    (λ newp, "    * disabled user duplicate: " +:+ path e +:+ " -> " +:+ newp)
    (λ newp, "    * shadowed system duplicate with NoDisplay=true: " +:+ newp).

Definition hide_group_by_name (w : World) (prefer : string) (group : list Entry)
    : M unit :=
  match keep_by_name prefer group with
  | None => raise "min() arg is an empty sequence"
  | Some (k, _) =>
      for_each_i 0 group (λ i e,
        if i =? k then
          print ("  - keeping (by name): " +:+ path e +:+ " [" +:+ provider e
                 +:+ "/" +:+ scope e +:+ "]")
        else hide_duplicate w e)
  end.

Definition hide_group_by_name_cmd (w : World) (group : list Entry) : M unit :=
  match keep_by_name_cmd group with
  | None => raise "list index out of range"
  | Some (k, _) =>
      for_each_i 0 group (λ i e,
        if i =? k then print ("  - keeping (by name+cmd): " +:+ path e)
        else hide_duplicate w e)
  end.

Definition hide_duplicates_step (w : World) (a : Args)
    (name_groups name_cmd_groups : list (list Entry)) : M unit :=
  print (newline +:+ "Hiding redundant duplicates...");;
  (match strategy a with
   | StrategyName | StrategyAuto =>
       for_each name_groups (hide_group_by_name w (prefer a))
   | StrategyNameCmd => mret tt
   end);;
  (match strategy a with
   | StrategyNameCmd | StrategyAuto =>
       for_each name_cmd_groups (hide_group_by_name_cmd w)
   | StrategyName => mret tt
   end).

(** ** The association file

    [clean_mimeapps] drives the standard library's [ConfigParser], built
    with [interpolation=None], [strict=False] and the equals sign as only
    delimiter. The module below is a model of the library calls it makes:
    the reader ([read_file]), the section view ([keys], item lookup and
    assignment) and the writer ([write]). A configuration keeps its
    sections and options in file order. The text of the library's
    exceptions is abbreviated. *)

Module ConfigParser.

Definition options := list (string * string).

Record config := {
  defaults : options;                    (* the [DEFAULT] section *)
  sections : list (string * options);
}.

(** [d[k] = v] on an ordered dictionary. *)
Fixpoint dict_set {V} (d : list (string * V)) (k : string) (v : V)
    : list (string * V) :=
  match d with
  | [] => [(k, v)]
  | (k', v') :: d' =>
      if String.eqb k' k then (k', v) :: d'
      else (k', v') :: dict_set d' k v
  end.

Fixpoint dict_find {V} (d : list (string * V)) (k : string) : option V :=
  match d with
  | [] => None
  | (k', v) :: d' => if String.eqb k' k then Some v else dict_find d' k
  end.

Definition has_key {V} (d : list (string * V)) (k : string) : bool :=
  match dict_find d k with Some _ => true | None => false end.

(** *** The section view *)

(** [section in cfg] *)
Definition contains (c : config) (section : string) : bool :=
  String.eqb section "DEFAULT" || has_key (sections c) section.

(** [list(cfg[section].keys())]: the section's own options, then those
    of [DEFAULT] it does not override. *)
Definition keys (c : config) (section : string) : list string :=
  let own := default [] (dict_find (sections c) section) in
  (fst <$> own) ++ filter (λ k, has_key own k = false) (fst <$> defaults c).

(** [cfg[section][key]] *)
Definition get (c : config) (section key : string) : option string :=
  let own := default [] (dict_find (sections c) section) in
  match dict_find own key with
  | Some v => Some v
  | None => dict_find (defaults c) key
  end.

(** [cfg[section][key] = value], for a section that exists. *)
Definition set (c : config) (section key value : string) : config :=
  let own := default [] (dict_find (sections c) section) in
  {| defaults := defaults c;
     sections := dict_set (sections c) section (dict_set own key value) |}.

(** *** The writer *)

Definition newline : string := String "010"%char EmptyString.
Definition tab : string := String "009"%char EmptyString.

(** [value.replace('\n', '\n\t')] *)
Fixpoint indent_newlines (v : string) : string :=
  match v with
  | EmptyString => EmptyString
  | String c v' =>
      if Ascii.eqb c "010"%char
      then String c (tab +:+ indent_newlines v')
      else String c (indent_newlines v')
  end.

Definition write_section (name : string) (items : options) : string :=
  "[" +:+ name +:+ "]" +:+ newline +:+
  String.concat "" ((λ kv, fst kv +:+ " = " +:+ indent_newlines (snd kv) +:+ newline) <$> items)
  +:+ newline.

Definition write (c : config) : string :=
  (match defaults c with
   | [] => ""
   | d => write_section "DEFAULT" d
   end) +:+
  String.concat "" ((λ s, write_section (fst s) (snd s)) <$> sections c).

(** *** The reader *)

(** The lines of a text file opened for reading: line ends are
    translated to a line feed, and a last line needs no line end. *)
Fixpoint universal_newlines (s : string) : string :=
  match s with
  | EmptyString => EmptyString
  | String c s' =>
      if Ascii.eqb c "013"%char then
        match s' with
        | String "010"%char s'' => String "010"%char (universal_newlines s'')
        | _ => String "010"%char (universal_newlines s')
        end
      else String c (universal_newlines s')
  end.

Definition file_lines (content : string) : list string :=
  let pieces := Py.split "010"%char (universal_newlines content) in
  match List.last pieces "x" with
  | EmptyString => removelast pieces
  | _ => pieces
  end.

(** Index of the first character that is no blank. *)
Fixpoint indent_of (line : string) : nat :=
  match line with
  | EmptyString => 0
  | String c l' => if Py.isspace c then S (indent_of l') else 0
  end.

(** The section-header pattern, matched at the start of a stripped
    line: an opening bracket, at least one character, and a closing
    bracket, the last one of the line. *)
Fixpoint header_go (seen : string) (best : option string) (s : string)
    : option string :=
  match s with
  | EmptyString => best
  | String c s' =>
      header_go (String c seen)
        (if Ascii.eqb c "]"%char && Py.truthy seen
         then Some (String.rev seen) else best)
        s'
  end.

Definition section_header (value : string) : option string :=
  match value with
  | String "["%char rest => header_go EmptyString None rest
  | _ => None
  end.

(** The option pattern: the name is what precedes the first equals
    sign, the value what follows it. *)
Fixpoint split_delim (seen : string) (s : string) : option (string * string) :=
  match s with
  | EmptyString => None
  | String c s' =>
      if Ascii.eqb c "="%char then Some (String.rev seen, s')
      else split_delim (String c seen) s'
  end.

Inductive cursor :=
  | NoSection
  | InDefault
  | InSection (name : string).

Definition raw_options := list (string * list string).

Record reader := {
  r_defaults : raw_options;
  r_sections : list (string * raw_options);
  cursect : cursor;
  optname : option string;
  indent_level : nat;
  error : bool;                 (* a [ParsingError] is pending *)
}.

Definition cur_options (r : reader) : raw_options :=
  match cursect r with
  | NoSection => []
  | InDefault => r_defaults r
  | InSection n => default [] (dict_find (r_sections r) n)
  end.

Definition with_cur_options (r : reader) (o : raw_options) : reader :=
  match cursect r with
  | NoSection => r
  | InDefault =>
      {| r_defaults := o; r_sections := r_sections r; cursect := cursect r;
         optname := optname r; indent_level := indent_level r;
         error := error r |}
  | InSection n =>
      {| r_defaults := r_defaults r;
         r_sections := dict_set (r_sections r) n o; cursect := cursect r;
         optname := optname r; indent_level := indent_level r;
         error := error r |}
  end.

(** [cursect[optname].append(v)] *)
Definition append_to_option (r : reader) (o v : string) : reader :=
  let opts := cur_options r in
  with_cur_options r (dict_set opts o (default [] (dict_find opts o) ++ [v])).

Definition in_section (r : reader) : bool :=
  match cursect r with NoSection => false | _ => true end.

(** The name of the option a continuation line would extend. *)
Definition open_option (r : reader) : option string :=
  match optname r with
  | Some o => if in_section r && Py.truthy o then Some o else None
  | None => None
  end.

Definition is_comment (line : string) : bool :=
  let s := Py.strip line in
  Py.startswith s "#" || Py.startswith s ";".

Definition move_to (r : reader) (sections : list (string * raw_options))
    (c : cursor) (o : option string) (indent : nat) (err : bool) : reader :=
  {| r_defaults := r_defaults r; r_sections := sections; cursect := c;
     optname := o; indent_level := indent; error := err |}.

(** One turn of the loop of [_read]; [inl] is an exception raised on the
    spot. A line indented deeper than the last header continues the
    open option; any other line is a section header, an option, or an
    error to report once the file is read. *)
Definition read_line (r : reader) (line : string) : string + reader :=
  if is_comment line then inr r
  else
    let value := Py.strip line in
    if negb (Py.truthy value) then
      inr (match open_option r with
           | Some o => append_to_option r o ""
           | None => r
           end)
    else
      let cur_indent_level := indent_of line in
      match (if indent_level r <? cur_indent_level then open_option r else None) with
      | Some o => inr (append_to_option r o value)
      | None =>
          match section_header value with
          | Some sectname =>
              if has_key (r_sections r) sectname then
                inr (move_to r (r_sections r) (InSection sectname) None
                       cur_indent_level (error r))
              else if String.eqb sectname "DEFAULT" then
                inr (move_to r (r_sections r) InDefault None
                       cur_indent_level (error r))
              else
                inr (move_to r (r_sections r ++ [(sectname, [])])
                       (InSection sectname) None cur_indent_level (error r))
          | None =>
              if negb (in_section r) then
                inl "File contains no section headers."
              else
                match split_delim EmptyString value with
                | Some (opt, optval) =>
                    let o := Py.lower (Py.rstrip opt) in
                    let r' := move_to r (r_sections r) (cursect r) (Some o)
                                cur_indent_level
                                (error r || negb (Py.truthy (Py.rstrip opt))) in
                    inr (with_cur_options r'
                           (dict_set (cur_options r) o [Py.strip optval]))
                | None =>
                    inr (move_to r (r_sections r) (cursect r) (optname r)
                           cur_indent_level true)
                end
          end
      end.

Fixpoint read_lines (r : reader) (lines : list string) : string + reader :=
  match lines with
  | [] => inr r
  | line :: rest =>
      match read_line r line with
      | inl msg => inl msg
      | inr r' => read_lines r' rest
      end
  end.

(** [_join_multiline_values] *)
Definition join_value (v : list string) : string :=
  Py.rstrip (Py.join newline v).

Definition join_options (o : raw_options) : options :=
  (λ kv, (fst kv, join_value (snd kv))) <$> o.

Definition empty_reader : reader :=
  {| r_defaults := []; r_sections := []; cursect := NoSection;
     optname := None; indent_level := 0; error := false |}.

(** [cfg.read_file(f)] on a fresh parser: the configuration, or the
    exception raised. *)
Definition read_file (content : string) : string + config :=
  match read_lines empty_reader (file_lines content) with
  | inl msg => inl msg
  | inr r =>
      if error r then inl "Source contains parsing errors"
      else inr {| defaults := join_options (r_defaults r);
                  sections := (λ s, (fst s, join_options (snd s))) <$> r_sections r |}
  end.

End ConfigParser.

(** The loop over the identifiers of one value, with the source's
    variables [new], [seen], [removed_dup] and [removed_missing]. *)
Fixpoint clean_items (existing : list string) (items : list string)
    (new : list string) (seen : gset string) (removed_dup removed_missing : nat)
    : list string * nat * nat :=
  match items with
  | [] => (new, removed_dup, removed_missing)
  | it :: rest =>
      if negb (bool_decide (it ∈ existing)) then
        clean_items existing rest new seen removed_dup (S removed_missing)
      else if bool_decide (it ∈ seen) then
        clean_items existing rest new seen (S removed_dup) removed_missing
      else
        clean_items existing rest (new ++ [it]) ({[it]} ∪ seen)
          removed_dup removed_missing
  end.

(** [';'.join(new) + (';' if new else '')] *)
Definition join_ids (new : list string) : string :=
  Py.join ";" new +:+ (match new with [] => "" | _ => ";" end).

Definition split_ids (val : string) : list string :=
  filter (λ x, Py.truthy x) (Py.split ";"%char val).

Record cleaning := {
  cfg : ConfigParser.config;
  changed : bool;
  removed_dup : nat;
  removed_missing : nat;
}.

(** The body of the loop over the keys of a section. *)
Definition clean_key (existing : list string) (section : string)
    (st : cleaning) (key : string) : cleaning :=
  let val := default "" (ConfigParser.get (cfg st) section key) in
  let '(new, d, m) :=
    clean_items existing (split_ids val) [] ∅ (removed_dup st) (removed_missing st) in
  let new_val := join_ids new in
  if negb (String.eqb new_val val) then
    {| cfg := ConfigParser.set (cfg st) section key new_val; changed := true;
       removed_dup := d; removed_missing := m |}
  else
    {| cfg := cfg st; changed := changed st; removed_dup := d; removed_missing := m |}.

Definition clean_section (existing : list string) (st : cleaning) (section : string)
    : cleaning :=
  if ConfigParser.contains (cfg st) section then
    fold_left (clean_key existing section) (ConfigParser.keys (cfg st) section) st
  else st.

Definition clean_config (existing : list string) (c : ConfigParser.config) : cleaning :=
  fold_left (clean_section existing)
    ["Added Associations"; "Default Applications"]
    {| cfg := c; changed := false; removed_dup := 0; removed_missing := 0 |}.

Definition clean_mimeapps (w : World) (p : string) (existing_desktops : list string)
    : M (nat * nat) :=
  ex ← file_exists w p;
  if negb ex then mret (0, 0)
  else
    content ← read_text w p;
    match ConfigParser.read_file content with
    | inl msg => raise msg
    | inr c =>
        let st := clean_config existing_desktops c in
        (if changed st then write_text w p (ConfigParser.write (cfg st))
         else mret tt);;
        mret (removed_dup st, removed_missing st)
    end.

(** ** [main] *)

Definition first_entry (g : list Entry) : M Entry :=
  match g with
  | e :: _ => mret e
  | [] => raise "list index out of range"
  end.

(** [sorted(set(l))] *)
Definition sorted_set (l : list string) : list string :=
  merge_sort String.le (remove_dups l).

Definition print_members (g : list Entry) : M unit :=
  for_each g (λ e,
    print ("      [" +:+ provider e +:+ "/" +:+ scope e +:+ "] " +:+ path e)).

Definition scan_report (entries broken : list Entry)
    (name_groups name_cmd_groups : list (list Entry)) : M unit :=
  print ("Total Open-With candidates: " +:+ pretty (length entries));;
  print ("Likely broken entries: " +:+ pretty (length broken));;
  for_each broken (λ e,
    let label := if Py.truthy (name e) then name e else "(no name)" in
    print ("  - [" +:+ scope e +:+ "] " +:+ label +:+ " -> " +:+ reason e
           +:+ " (" +:+ path e +:+ ")"));;
  print (newline +:+ "Duplicate groups by NAME: " +:+ pretty (length name_groups));;
  for_each name_groups (λ g,
    let providers := Py.join ", " (sorted_set (provider <$> g)) in
    e0 ← first_entry g;
    print ("  - '" +:+ name e0 +:+ "'  x" +:+ pretty (length g)
           +:+ "  providers=[" +:+ providers +:+ "]");;
    print_members g);;
  print (newline +:+ "Duplicate groups by NAME+CMD: "
         +:+ pretty (length name_cmd_groups));;
  for_each name_cmd_groups (λ g,
    e0 ← first_entry g;
    print ("  - '" +:+ name e0 +:+ "' via '" +:+ first_cmd e0 +:+ "' x"
           +:+ pretty (length g));;
    print_members g).

(** [Path(p).write_text(json.dumps(payload, indent=2))]: the report is
    recorded in the trace as the payload it serialises. *)
Definition write_json (w : World) (p : string) (payload : Payload) : M unit :=
  λ s, match write_error w p with
       | Some msg => Raised msg s
       | None => emit_event (Report p payload) s
       end.

Definition mimeapps_path (w : World) : string :=
  Path.child (Path.child (home w) ".config") "mimeapps.list".

(** [main] after [load_entries]. The refresh helper runs outside the
    model; only the directory it is pointed at is made here. *)
Definition main_on (w : World) (a : Args) (entries : list Entry) : M unit :=
  let ids := all_desktop_ids entries in
  let broken := broken_entries entries in
  let name_groups := dup_name_groups entries in
  let name_cmd_groups := dup_name_cmd_groups entries in
  (if scan a || (negb (fix_broken a) && negb (hide_duplicates a)
                 && negb (fix_mimeapps a))
   then scan_report entries broken name_groups name_cmd_groups
   else mret tt);;
  (match json a with
   | Some p =>
       if Py.truthy p then
         write_json w p (json_payload entries);;
         print (newline +:+ "JSON report written to " +:+ p)
       else mret tt
   | None => mret tt
   end);;
  (if fix_broken a then
     print (newline +:+ "Hiding/Disabling broken entries...");;
     fix_broken_loop w broken
   else mret tt);;
  (if hide_duplicates a then
     hide_duplicates_step w a name_groups name_cmd_groups
   else mret tt);;
  (if fix_mimeapps a then
     r ← clean_mimeapps w (mimeapps_path w) ids;
     print (newline +:+ "Cleaned mimeapps.list: removed " +:+ pretty (fst r)
            +:+ " duplicate refs, " +:+ pretty (snd r) +:+ " missing refs")
   else mret tt);;
  (if fix_broken a || hide_duplicates a || fix_mimeapps a then
     try_except (ensure_user_dir w;; mret tt) (λ _, mret tt);;
     print (newline +:+ "Done. You may need to restart xdg-desktop-portal (or log out/in) for menus to refresh:");;
     print "  systemctl --user restart xdg-desktop-portal xdg-desktop-portal-gtk || true"
   else mret tt).

Definition main (w : World) (a : Args) : M unit :=
  main_on w a (load_entries w).

(** ** The health check as the specification words it

    Four cases in order of precedence; each later case applies only when
    the earlier ones do not. *)

Definition hint_passes (w : World) (tryexec : string) : Prop :=
  tryexec = "" ∨ which_exists w tryexec = true.

Definition wrapper_class (cmd : string) : Prop :=
  Path.name cmd ∈ WRAPPER_CMDS ∨ cmd ∈ WRAPPER_CMDS.

Inductive health_spec (w : World) (exec_line tryexec : string)
    : bool → string → Prop :=
  | HealthTryExec :
      tryexec ≠ "" → which_exists w tryexec = false →
      health_spec w exec_line tryexec true ("TryExec not found: " +:+ tryexec)
  | HealthEmptyExec :
      hint_passes w tryexec →
      extract_first_command exec_line = "" →
      health_spec w exec_line tryexec true "Empty Exec"
  | HealthWrapper b r :
      hint_passes w tryexec →
      extract_first_command exec_line ≠ "" →
      wrapper_class (extract_first_command exec_line) →
      b = negb (which_exists w (extract_first_command exec_line)) →
      (b = false → r = "") →
      health_spec w exec_line tryexec b r
  | HealthCommand b r :
      hint_passes w tryexec →
      extract_first_command exec_line ≠ "" →
      ¬ wrapper_class (extract_first_command exec_line) →
      b = negb (which_exists w (extract_first_command exec_line)) →
      (b = false → r = "") →
      health_spec w exec_line tryexec b r.

(** ** The keep selection as the specification words it *)

Definition is_system (e : Entry) : Prop := scope e = "system".

(** [a] comes before [b]: a lower provider rank, or on equal ranks the
    system scope before the user scope, or else the smaller path. *)
Definition preferred_over (prefer : string) (a b : Entry) : Prop :=
  provider_rank (provider a) prefer < provider_rank (provider b) prefer
  ∨ (provider_rank (provider a) prefer = provider_rank (provider b) prefer
     ∧ ((is_system a ∧ ¬ is_system b)
        ∨ ((is_system a ↔ is_system b) ∧ (path a ≤ path b)%string))).

(** ** A small world for examples

    One user directory and one system directory. The user's
    [editor.desktop] is a symbolic link to the system one; a third
    descriptor does not parse; a fourth runs a script through [bash] and
    declares a probe that is not installed. *)

Definition no_error : string → option string := λ _, None.

Definition example_ini (p : string) : ini_result :=
  if String.eqb p "/home/u/.local/share/applications/editor.desktop" then
    IniSection (Some [("type", "Application"); ("name", "Editor");
                      ("exec", "flatpak run org.example.Editor %U");
                      ("mimetype", "text/plain;")])
  else if String.eqb p "/usr/share/applications/editor.desktop" then
    IniSection (Some [("name", "Editor"); ("exec", "gedit %U");
                      ("mimetype", "text/plain;")])
  else if String.eqb p "/usr/share/applications/viewer.desktop" then
    IniSection (Some [("name", "Viewer"); ("exec", "bash /opt/viewer.sh %f");
                      ("tryexec", "viewer-probe");
                      ("mimetype", "image/png;image/jpeg;")])
  else if String.eqb p "/usr/share/applications/broken.desktop" then
    IniRaises "File contains no section headers."
  else IniSection None.

Definition example_world : World := {|
  home := "/home/u";
  path_exists := λ p, bool_decide (p ∈ ["/home/u/.local/share/applications";
                                         "/usr/share/applications";
                                         "/usr/bin/env"]);
  shutil_which := λ c, bool_decide (c ∈ ["bash"; "gedit"; "flatpak"]);
  listdir := λ d,
    if String.eqb d "/home/u/.local/share/applications"
    then ["editor.desktop"; "notes.txt"]
    else if String.eqb d "/usr/share/applications"
    then ["editor.desktop"; "broken.desktop"; "viewer.desktop"]
    else [];
  file_id := λ p,
    if String.eqb p "/home/u/.local/share/applications/editor.desktop" then 1
    else if String.eqb p "/usr/share/applications/editor.desktop" then 1
    else if String.eqb p "/usr/share/applications/viewer.desktop" then 2
    else if String.eqb p "/usr/share/applications/broken.desktop" then 3
    else 0;
  read_ini := example_ini;
  follow := λ _ target, target;
  mkdir_error := no_error;
  read_error := no_error;
  write_error := no_error;
  move_error := λ _ _, None;
|}.

Definition example_group : list Entry :=
  default [] (head (dup_name_groups (load_entries example_world))).

(** ** Auxiliary notions for the proofs *)

(** The order [key_lt] decides, as a relation: [key_le a b] when [b] is
    not strictly before [a]. *)
Definition key_le (a b : nat * nat * string) : Prop :=
  a.1.1 < b.1.1
  ∨ (a.1.1 = b.1.1
     ∧ (a.1.2 < b.1.2 ∨ (a.1.2 = b.1.2 ∧ (a.2 ≤ b.2)%string))).

Definition no_linebreak (l : string) : Prop :=
  ∀ c, In c (list_ascii_of_string l) → Py.is_linebreak c = false.

Definition shadow_path (w : World) (system_path : string) : string :=
  Path.child (user_applications w) (Path.name system_path).

Definition disabled_path (w : World) (user_path : string) : string :=
  Path.child (disabled_dir w) (Path.name user_path).

(** The text the tool reads at a path, when the path leads to a file. *)
Definition text_at (w : World) (s : state) (p : string) : option string :=
  match resolve w s p with
  | Some t => Utf8.as_read <$> files s !! t
  | None => None
  end.

(** The lines printed on standard output, and the reports written. *)
Definition stdout_lines (t : list event) : list string :=
  omap (λ e, match e with Stdout l => Some l | _ => None end) t.

Definition reports (t : list event) : list (string * Payload) :=
  omap (λ e, match e with Report p pl => Some (p, pl) | _ => None end) t.

(** The example world made hostile: every move, read and write fails. *)
Definition denied : string → option string := λ _, Some "Permission denied".

Definition hostile_world : World := {|
  home := home example_world;
  path_exists := path_exists example_world;
  shutil_which := shutil_which example_world;
  listdir := listdir example_world;
  file_id := file_id example_world;
  read_ini := read_ini example_world;
  follow := follow example_world;
  mkdir_error := no_error;
  read_error := denied;
  write_error := denied;
  move_error := λ _ _, Some "Permission denied";
|}.

Definition example_viewer : Entry :=
  default (parse_error_entry example_world "" "")
    (last (load_entries example_world)).

Definition example_state : state := {|
  files := {[ "/usr/share/applications/viewer.desktop" :=
                "[Desktop Entry]" +:+ newline +:+ "Name=Viewer" +:+ newline
                +:+ "NoDisplay=false" +:+ newline
                +:+ "Exec=bash /opt/viewer.sh %f" +:+ newline;
              "/home/u/.local/share/applications/editor.desktop" :=
                "[Desktop Entry]" +:+ newline +:+ "Name=Editor" +:+ newline ]};
  links := ∅;
  dirs := ∅;
  trace := [];
|}.


(** A descriptor with a second group, and the bytes of a descriptor in
    Latin-1, whose last letter is no UTF-8. *)
Definition grouped_descriptor : string :=
  "[Desktop Entry]" +:+ newline +:+ "Name=Editor" +:+ newline
  +:+ "[Desktop Action new]" +:+ newline +:+ "Name=New" +:+ newline.

Definition latin1_descriptor : string :=
  "[Desktop Entry]" +:+ newline +:+ "Name=Caf"
  +:+ String (Utf8.byte 233) newline.


(** A computation that writes no report, however it ends; and one that
    in addition always returns. *)
Definition silent {A} (m : M A) : Prop :=
  ∀ s, reports (trace (final (m s))) = reports (trace s).

Definition returns_silently {A} (m : M A) : Prop :=
  ∀ s, ∃ a s', m s = Done a s' ∧ reports (trace s') = reports (trace s).

(** The reports the JSON step of [main] adds to the trace. *)
Definition json_reports (w : World) (target : option string)
    (entries : list Entry) : list (string * Payload) :=
  match target with
  | Some p =>
      if Py.truthy p then
        match write_error w p with
        | Some _ => []
        | None => [(p, json_payload entries)]
        end
      else []
  | None => []
  end.

Definition no_sep (sep : ascii) (s : string) : Prop :=
  ∀ c, In c (list_ascii_of_string s) → c ≠ sep.

(** What [clean_key] does to one value, counted from zero. *)
Definition clean_value (existing : list string) (val : string)
    : string * nat * nat :=
  let '(new, d, m) := clean_items existing (split_ids val) [] ∅ 0 0 in
  (join_ids new, d, m).

(** A value the cleaner leaves alone. *)
Definition is_clean (existing : list string) (val : string) : Prop :=
  clean_value existing val = (val, 0, 0).

(** Every value of a section is one the cleaner leaves alone. *)
Definition all_clean (existing : list string) (c : ConfigParser.config)
    (section : string) : Prop :=
  ∀ k v, ConfigParser.get c section k = Some v → is_clean existing v.

Definition untouched (c : ConfigParser.config) : cleaning :=
  {| cfg := c; changed := false; removed_dup := 0; removed_missing := 0 |}.

(** ** Association files for examples *)

(** A file with the value of the round-trip example, and the file the
    cleaner leaves when only [a.desktop] is known. *)
Definition example_mimeapps : string :=
  "[Default Applications]" +:+ newline
  +:+ "image/png=a.desktop;" +:+ newline
  +:+ newline
  +:+ "[Added Associations]" +:+ newline
  +:+ "text/plain=a.desktop;missing.desktop;a.desktop;" +:+ newline.

Definition example_mimeapps_cfg : ConfigParser.config :=
  {| ConfigParser.defaults := [];
     ConfigParser.sections :=
       [("Default Applications", [("image/png", "a.desktop;")]);
        ("Added Associations",
         [("text/plain", "a.desktop;missing.desktop;a.desktop;")])] |}.

Definition example_mimeapps_cleaned : string :=
  "[Default Applications]" +:+ newline
  +:+ "image/png = a.desktop;" +:+ newline
  +:+ newline
  +:+ "[Added Associations]" +:+ newline
  +:+ "text/plain = a.desktop;" +:+ newline
  +:+ newline.

(** A descriptor whose file name starts with a blank, and an association
    file that names it after an identifier that is not installed. *)
Definition spaced_ids : list string := [" b.desktop"].

Definition spaced_mimeapps : string :=
  "[Added Associations]" +:+ newline
  +:+ "text/plain=missing.desktop; b.desktop;" +:+ newline.

Definition state_with (p content : string) : state :=
  {| files := {[ p := content ]}; links := ∅; dirs := ∅; trace := [] |}.


(** ** Notions for the further properties *)

(** A character of a plain command word: no blank and no quote. *)
Definition plain_char (c : ascii) : bool :=
  negb (Py.isspace c) && negb (is_quote c).

Fixpoint all_chars (P : ascii → bool) (s : string) : bool :=
  match s with
  | EmptyString => true
  | String c s' => P c && all_chars P s'
  end.

(** What may follow the first token on an Exec line: nothing, or a blank
    and anything. *)
Definition blank_led (s : string) : bool :=
  match s with
  | EmptyString => true
  | String c _ => Py.isspace c
  end.

(** What the grouping loop of [main] maintains: the dictionary [d] holds,
    under distinct keys, the classes of the entries seen so far. *)
Definition grouped {K} `{EqDecision K} (key : Entry → K)
    (d : list (K * list Entry)) (seen : list Entry) : Prop :=
  NoDup d.*1
  ∧ (∀ k g, (k, g) ∈ d → g ≠ [] ∧ g = filter (λ e, key e = k) seen)
  ∧ (∀ e, e ∈ seen → key e ∈ d.*1).

(** A computation that keeps a relation between the state it starts in
    and the state it ends in, however it ends. *)
Definition keeps {A} (R : relation state) (m : M A) : Prop :=
  ∀ s, R s (final (m s)).

(** No file, no link and no directory changed. *)
Definition same_files (s s' : state) : Prop :=
  files s' = files s ∧ links s' = links s ∧ dirs s' = dirs s.

(** No path under the home directory is a symbolic link. *)
Definition plain_home (w : World) (s : state) : Prop :=
  ∀ q, Py.startswith q (home w) = true → links s !! q = None.

(** From a state with no link under the home directory: still none, and
    no file and no link outside the home directory changed. *)
Definition same_outside_home (w : World) (s s' : state) : Prop :=
  plain_home w s →
  plain_home w s'
  ∧ ∀ q, Py.startswith q (home w) = false →
         files s' !! q = files s !! q ∧ links s' !! q = links s !! q.

(** Command lines for examples: a plain scan, and every fix at once. *)
Definition scan_args : Args :=
  {| scan := true; fix_broken := false; hide_duplicates := false;
     strategy := StrategyAuto; prefer := "native";
     fix_mimeapps := false; json := Some "/tmp/report.json" |}.



(** A run that asks for a report and for every fix. *)
Definition report_and_fix_args : Args :=
  {| scan := true; fix_broken := true; hide_duplicates := true;
     strategy := StrategyAuto; prefer := "native";
     fix_mimeapps := true; json := Some "/tmp/report.json" |}.


(** * Properties *)

(** ** The embedding on concrete inputs *)

Example split_keeps_empty_pieces :
  Py.split ";"%char "a.desktop;;b.desktop;" = ["a.desktop"; ""; "b.desktop"; ""].
Proof. reflexivity. Qed.

Example strip_both_ends :
  Py.strip (String "009"%char "  gedit %U  ") = "gedit %U".
Proof. reflexivity. Qed.

Example splitlines_mixed_ends :
  Py.splitlines ("one" +:+ String "013"%char newline +:+ newline +:+ "two")
  = ["one"; ""; "two"].
Proof. reflexivity. Qed.

Example name_of_paths :
  Path.name <$> ["/usr/bin/env"; "bash/"; "/"; "./run.sh"; "a/."]
  = ["env"; "bash"; ""; "run.sh"; "a"].
Proof. reflexivity. Qed.

Example tokens_with_quotes :
  findall_tokens (dquote_s +:+ "a b" +:+ dquote_s +:+ "c 'd e' f")
  = [dquote_s +:+ "a b" +:+ dquote_s +:+ "c"; "'d e'"; "f"].
Proof. reflexivity. Qed.

Example tokens_unclosed_quote :
  findall_tokens ("ab" +:+ dquote_s +:+ "cd") = ["ab"; "cd"].
Proof. reflexivity. Qed.

Example first_command_quoted :
  extract_first_command (dquote_s +:+ "/opt/my app/run" +:+ dquote_s +:+ " --new")
  = "/opt/my app/run".
Proof. reflexivity. Qed.

Example first_command_of_blank : extract_first_command "   " = "".
Proof. reflexivity. Qed.

Example ranks_by_preference :
  (λ prefer, (λ p, provider_rank p prefer) <$> ["native"; "flatpak"; "snap"; "other"])
    <$> ["native"; "flatpak"; "snap"]
  = [[0; 1; 2; 3]; [1; 0; 2; 3]; [1; 2; 0; 3]].
Proof. reflexivity. Qed.

Example reader_on_example_file :
  ConfigParser.read_file example_mimeapps = inr example_mimeapps_cfg.
Proof. reflexivity. Qed.

Example reader_lowers_names_and_joins_lines :
  ConfigParser.read_file
    ("# preferences" +:+ newline +:+ "[Added Associations]" +:+ newline
     +:+ "Text/Plain = a.desktop;" +:+ newline
     +:+ "    b.desktop;" +:+ newline)
  = inr {| ConfigParser.defaults := [];
           ConfigParser.sections :=
             [("Added Associations",
               [("text/plain", "a.desktop;" +:+ newline +:+ "b.desktop;")])] |}.
Proof. reflexivity. Qed.

Example reader_needs_a_section :
  ConfigParser.read_file ("text/plain=a.desktop;" +:+ newline)
  = inl "File contains no section headers.".
Proof. reflexivity. Qed.

Example example_world_files :
  find_desktop_files example_world
  = ["/home/u/.local/share/applications/editor.desktop";
     "/usr/share/applications/editor.desktop";
     "/usr/share/applications/broken.desktop";
     "/usr/share/applications/viewer.desktop"].
Proof. reflexivity. Qed.

Example example_world_entries :
  (λ e, (path e, provider e, broken e)) <$> load_entries example_world
  = [("/home/u/.local/share/applications/editor.desktop", "flatpak", false);
     ("/usr/share/applications/editor.desktop", "native", false);
     ("/usr/share/applications/viewer.desktop", "native", true)].
Proof. reflexivity. Qed.

(** Two launchers named Editor, one native and one from Flatpak, default
    preference, duplicates hidden: the native one is kept and the user's
    Flatpak one is moved to the disabled folder. *)
Example hide_duplicates_end_to_end :
  let a := {| scan := false; fix_broken := false; hide_duplicates := true;
              strategy := StrategyAuto; prefer := "native";
              fix_mimeapps := false; json := None |} in
  let s := final (main example_world a example_state) in
  stdout_lines (trace s)
  = [newline +:+ "Hiding redundant duplicates...";
     "    * disabled user duplicate: /home/u/.local/share/applications/editor.desktop -> /home/u/.local/share/applications/.disabled/editor.desktop";
     "  - keeping (by name): /usr/share/applications/editor.desktop [native/system]";
     newline +:+ "Done. You may need to restart xdg-desktop-portal (or log out/in) for menus to refresh:";
     "  systemctl --user restart xdg-desktop-portal xdg-desktop-portal-gtk || true"]
  ∧ files s !! "/home/u/.local/share/applications/editor.desktop" = None
  ∧ is_Some (files s !! "/home/u/.local/share/applications/.disabled/editor.desktop").
Proof. vm_compute. split_and!; [reflexivity|reflexivity|eauto]. Qed.

(** ** Strings *)

Lemma truthy_false s : Py.truthy s = false ↔ s = "".
Proof. destruct s; simpl; split; congruence. Qed.

Lemma truthy_true s : Py.truthy s = true ↔ s ≠ "".
Proof. destruct s; simpl; split; congruence. Qed.

(** ** Health check *)

Lemma in_wrappers_spec cmd :
  in_wrappers (Path.name cmd) || in_wrappers cmd = true ↔ wrapper_class cmd.
Proof.
  unfold wrapper_class, in_wrappers.
  rewrite orb_true_iff, !bool_decide_eq_true. reflexivity.
Qed.

Lemma hint_passes_spec w t :
  Py.truthy t && negb (which_exists w t) = false ↔ hint_passes w t.
Proof.
  unfold hint_passes. rewrite andb_false_iff, truthy_false, negb_false_iff.
  reflexivity.
Qed.

(** C1. [looks_broken] follows the four cases of the health check in
    their order of precedence: an unresolved TryExec hint first (the
    reason names the hint), then an empty command (reason [Empty Exec]),
    then a wrapper-class command, broken exactly when the wrapper itself
    does not resolve, then any other command, broken exactly when it does
    not resolve; a healthy result has the empty reason. The cases also
    determine the verdict: whatever they allow is what the code returns. *)
Theorem looks_broken_precedence (w : World) (exec_line tryexec : string) :
  health_spec w exec_line tryexec
    (fst (looks_broken w exec_line tryexec))
    (snd (looks_broken w exec_line tryexec))
  ∧ ∀ b r, health_spec w exec_line tryexec b r →
           b = fst (looks_broken w exec_line tryexec).
Proof.
  unfold looks_broken.
  destruct (Py.truthy tryexec && negb (which_exists w tryexec)) eqn:Hhint.
  - apply andb_true_iff in Hhint as [Ht Hw].
    apply truthy_true in Ht. apply negb_true_iff in Hw.
    split; [by constructor|].
    intros b r H.
    assert (¬ hint_passes w tryexec) as Hno.
    { intros [?|?]; congruence. }
    by destruct H.
  - apply hint_passes_spec in Hhint.
    destruct (Py.truthy (extract_first_command exec_line)) eqn:Hcmd; simpl.
    + apply truthy_true in Hcmd.
      destruct (in_wrappers (Path.name (extract_first_command exec_line))
                || in_wrappers (extract_first_command exec_line)) eqn:Hwr.
      * apply in_wrappers_spec in Hwr.
        split.
        -- destruct (which_exists w (extract_first_command exec_line)) eqn:Hex;
             simpl; eapply HealthWrapper; eauto; try (by rewrite Hex); done.
        -- intros b r H. destruct H as [Hne Hno| |b r _ _ _ -> _|b r _ _ _ -> _].
           ++ destruct Hhint; congruence.
           ++ congruence.
           ++ by destruct (which_exists w _).
           ++ by destruct (which_exists w _).
      * assert (¬ wrapper_class (extract_first_command exec_line)) as Hnw.
        { intros H%in_wrappers_spec. congruence. }
        split.
        -- destruct (which_exists w (extract_first_command exec_line)) eqn:Hex;
             simpl; eapply HealthCommand; eauto; try (by rewrite Hex); done.
        -- intros b r H. destruct H as [Hne Hno| |b r _ _ _ -> _|b r _ _ _ -> _].
           ++ destruct Hhint; congruence.
           ++ congruence.
           ++ by destruct (which_exists w _).
           ++ by destruct (which_exists w _).
    + apply truthy_false in Hcmd.
      split; [by constructor|].
      intros b r H. destruct H as [Hne Hno| |b r _ Hc|b r _ Hc]; try done.
Qed.

(** C2, as stated, fails: a wrapper that resolves does not save an entry
    whose TryExec hint is missing. In the example world [bash] is on the
    search path, yet the viewer entry is broken for its absent probe. *)
Lemma resolving_wrapper_broken_by_hint :
  ¬ (∀ (w : World) (exec_line tryexec : string),
       wrapper_class (extract_first_command exec_line) →
       which_exists w (extract_first_command exec_line) = true →
       looks_broken w exec_line tryexec = (false, "")).
Proof.
  intros H.
  specialize (H example_world "bash /opt/viewer.sh %f" "viewer-probe").
  assert (looks_broken example_world "bash /opt/viewer.sh %f" "viewer-probe"
          = (true, "TryExec not found: viewer-probe")) as E by reflexivity.
  rewrite H in E; [discriminate| |reflexivity].
  right. vm_compute. repeat constructor.
Qed.

(** C2, amended. When the TryExec hint is absent or resolves, an entry
    whose first command is a wrapper-class token that itself resolves is
    healthy, whatever else the Exec line holds. *)
Theorem resolving_wrapper_never_broken (w : World) (exec_line tryexec : string) :
  hint_passes w tryexec →
  wrapper_class (extract_first_command exec_line) →
  which_exists w (extract_first_command exec_line) = true →
  looks_broken w exec_line tryexec = (false, "").
Proof.
  intros Hhint Hwr Hex. unfold looks_broken.
  apply hint_passes_spec in Hhint. rewrite Hhint.
  apply in_wrappers_spec in Hwr. rewrite Hwr.
  rewrite Hex. simpl.
  destruct (Py.truthy (extract_first_command exec_line)) eqn:Hc; [done|].
  apply truthy_false in Hc. rewrite Hc in Hex. discriminate.
Qed.

Lemma resolving_wrapper_never_broken_witness :
  looks_broken example_world "bash /opt/no-such-script.sh --flag" "" = (false, "")
  ∧ looks_broken example_world "/usr/bin/env MISSING=1 no-such-program" "gedit"
    = (false, "").
Proof.
  split.
  - apply resolving_wrapper_never_broken.
    + left. reflexivity.
    + right. vm_compute. repeat constructor.
    + reflexivity.
  - apply resolving_wrapper_never_broken.
    + right. reflexivity.
    + left. vm_compute. repeat constructor.
    + reflexivity.
Defined.

(** ** Locator *)

Lemma visit_files_spec (fs paths : list string) (seen : gset string) :
  (∀ x, x ∈ seen ↔ x ∈ paths) → NoDup paths →
  ∃ ext,
    fold_left visit_file fs (paths, seen)
      = (paths ++ ext, list_to_set ext ∪ seen)
    ∧ NoDup (paths ++ ext)
    ∧ ext `sublist_of` fs
    ∧ ∀ x, x ∈ paths ++ ext ↔ x ∈ paths ∨ x ∈ fs.
Proof.
  revert paths seen.
  induction fs as [|f fs IH]; intros paths seen Hseen Hnd; simpl.
  - exists []. rewrite app_nil_r. split_and!; [simpl; by rewrite (left_id_L ∅ (∪))|done|done|].
    intros x. rewrite elem_of_nil. tauto.
  - destruct (bool_decide (f ∈ seen)) eqn:Hf.
    + apply bool_decide_eq_true in Hf.
      destruct (IH paths seen Hseen Hnd) as (ext & E & Hnd' & Hsub & Hel).
      exists ext. split_and!; [done|done|by apply sublist_cons|].
      intros x. rewrite Hel, elem_of_cons.
      split; [tauto|]. intros [?|[->|?]]; [tauto| |tauto].
      left. by apply Hseen.
    + apply bool_decide_eq_false in Hf.
      assert (f ∉ paths) as Hfp by (by rewrite <- Hseen).
      destruct (IH (paths ++ [f]) ({[f]} ∪ seen)) as (ext & E & Hnd' & Hsub & Hel).
      { intros x. rewrite elem_of_union, elem_of_singleton, elem_of_app,
          list_elem_of_singleton, Hseen. tauto. }
      { apply NoDup_app. split_and!; [done| |apply NoDup_singleton].
        intros x Hx ->%list_elem_of_singleton. done. }
      exists (f :: ext). rewrite <- app_assoc in *. simpl in *.
      split_and!.
      * rewrite E. f_equal. simpl.
        by rewrite (assoc_L (∪)), (comm_L (∪) (list_to_set ext)).
      * done.
      * by apply sublist_skip.
      * intros x. rewrite Hel, elem_of_app, list_elem_of_singleton, elem_of_cons.
        tauto.
Qed.

Lemma visit_dirs_spec (w : World) (ds paths : list string) (seen : gset string) :
  (∀ x, x ∈ seen ↔ x ∈ paths) → NoDup paths →
  ∃ ext seen',
    fold_left (visit_dir w) ds (paths, seen) = (paths ++ ext, seen')
    ∧ NoDup (paths ++ ext)
    ∧ ext `sublist_of`
        mjoin (glob_desktop w <$> filter (λ d, path_exists w d = true) ds)
    ∧ ∀ x, x ∈ paths ++ ext ↔
           x ∈ paths ∨ ∃ d, d ∈ ds ∧ path_exists w d = true ∧ x ∈ glob_desktop w d.
Proof.
  revert paths seen.
  induction ds as [|d ds IH]; intros paths seen Hseen Hnd; simpl.
  - exists [], seen. rewrite app_nil_r. split_and!; [done|done|done|].
    intros x. split; [tauto|]. intros [?|(d & Hd & _)]; [done|].
    by apply elem_of_nil in Hd.
  - unfold visit_dir at 2.
    destruct (path_exists w d) eqn:Hd.
    + destruct (visit_files_spec (glob_desktop w d) paths seen Hseen Hnd)
        as (ext1 & E1 & Hnd1 & Hsub1 & Hel1).
      rewrite E1.
      destruct (IH (paths ++ ext1) (list_to_set ext1 ∪ seen))
        as (ext2 & seen2 & E2 & Hnd2 & Hsub2 & Hel2); [|done|].
      { intros x. rewrite elem_of_union, elem_of_list_to_set, elem_of_app, Hseen.
        tauto. }
      exists (ext1 ++ ext2), seen2. rewrite app_assoc.
      split_and!; [done|done| |].
      * rewrite filter_cons_True by done. simpl. by apply sublist_app.
      * intros x. rewrite Hel2, Hel1. split.
        -- intros [[?|?]|(d' & Hd' & He & Hx)]; [tauto| |].
           ++ right. exists d. rewrite elem_of_cons. tauto.
           ++ right. exists d'. rewrite elem_of_cons. tauto.
        -- intros [?|(d' & Hd' & He & Hx)]; [tauto|].
           apply elem_of_cons in Hd' as [->|Hd']; [tauto|].
           right. exists d'. tauto.
    + destruct (IH paths seen Hseen Hnd) as (ext & seen' & E & Hnd' & Hsub & Hel).
      exists ext, seen'. split_and!; [done|done| |].
      * rewrite filter_cons_False by congruence. done.
      * intros x. rewrite Hel. split.
        -- intros [?|(d' & Hd' & He & Hx)]; [tauto|].
           right. exists d'. rewrite elem_of_cons. tauto.
        -- intros [?|(d' & Hd' & He & Hx)]; [tauto|].
           apply elem_of_cons in Hd' as [->|Hd']; [congruence|].
           right. exists d'. tauto.
Qed.

Lemma find_desktop_files_distinct (w : World) : NoDup (find_desktop_files w).
Proof.
  unfold find_desktop_files.
  destruct (visit_dirs_spec w (USER_DIRS w ++ SYSTEM_DIRS) [] ∅)
    as (ext & seen' & E & Hnd & _).
  { intros x. rewrite elem_of_empty, elem_of_nil. tauto. }
  { constructor. }
  by rewrite E.
Qed.

(** C5, as stated, fails: the locator compares paths, not files. In the
    example world the user's [editor.desktop] is a link to the system one,
    and the file behind both is listed twice. *)
Lemma linked_file_listed_twice :
  ¬ (∀ w : World, NoDup (file_id w <$> find_desktop_files w)).
Proof.
  intros H. specialize (H example_world).
  vm_compute in H.
  apply NoDup_cons in H as [Hin _].
  apply Hin, list_elem_of_here.
Qed.

(** C5, amended. The locator lists the descriptor files of the directory
    list in order, user directories first, skipping directories that do
    not exist, each path once: the result has no repeated path, it is
    drawn in order from the listings of the existing directories, and it
    holds exactly the paths [d / n] for an existing directory [d] of the
    list and a name [n] in it that ends in [.desktop]. Two paths that
    lead to one file are both listed. *)
Theorem find_desktop_files_by_path (w : World) :
  NoDup (find_desktop_files w)
  ∧ find_desktop_files w `sublist_of`
      mjoin (glob_desktop w <$>
               filter (λ d, path_exists w d = true) (USER_DIRS w ++ SYSTEM_DIRS))
  ∧ ∀ p, p ∈ find_desktop_files w ↔
         ∃ d n, d ∈ USER_DIRS w ++ SYSTEM_DIRS ∧ path_exists w d = true
                ∧ n ∈ listdir w d ∧ Py.endswith n ".desktop" = true
                ∧ p = Path.child d n.
Proof.
  unfold find_desktop_files.
  destruct (visit_dirs_spec w (USER_DIRS w ++ SYSTEM_DIRS) [] ∅)
    as (ext & seen' & E & Hnd & Hsub & Hel).
  { intros x. rewrite elem_of_empty, elem_of_nil. tauto. }
  { constructor. }
  rewrite E. simpl in *. split_and!; [done|done|].
  intros p. rewrite Hel. split.
  - intros [H|(d & Hd & He & Hp)]; [by apply elem_of_nil in H|].
    unfold glob_desktop in Hp.
    apply list_elem_of_fmap in Hp as (n & -> & Hn).
    apply list_elem_of_filter in Hn as [Hn1%Is_true_true Hn2].
    exists d, n. done.
  - intros (d & n & Hd & He & Hn & Hs & ->).
    right. exists d. split_and!; [done|done|].
    unfold glob_desktop. apply list_elem_of_fmap. exists n. split; [done|].
    apply list_elem_of_filter. split; [by apply Is_true_true|done].
Qed.

(** ** Parser *)

Lemma read_desktop_path (w : World) (q : string) (e : Entry) :
  read_desktop w q = Some e → path e = q.
Proof.
  unfold read_desktop, read_desktop_body.
  repeat case_match; intros; simplify_eq; done.
Qed.

Lemma load_entries_from_path (w : World) (files : list string) (e : Entry) :
  e ∈ load_entries_from w files →
  path e ∈ files ∧ keep_entry (read_desktop w (path e)) = Some e.
Proof.
  unfold load_entries_from. intros (q & Hq & He)%list_elem_of_omap.
  assert (read_desktop w q = Some e) as Hr.
  { unfold keep_entry in He. repeat case_match; simplify_eq; done. }
  apply read_desktop_path in Hr as Hp. subst q. done.
Qed.

Lemma load_entries_from_skip (w : World) (p : string) (files : list string) :
  keep_entry (read_desktop w p) = None →
  load_entries_from w files = load_entries_from w (filter (λ q, q ≠ p) files).
Proof.
  intros Hp. unfold load_entries_from.
  induction files as [|q files IH]; [done|].
  destruct (decide (q = p)) as [->|Hne].
  - rewrite filter_cons_False by (intros ?; done). simpl. by rewrite Hp.
  - rewrite filter_cons_True by done. simpl.
    destruct (keep_entry (read_desktop w q)); [f_equal|]; exact IH.
Qed.

(** Members of the groups are loaded entries. *)
Lemma dict_append_members {K} `{EqDecision K} (d : list (K * list Entry))
    (k : K) (e x : Entry) (g : list Entry) :
  g ∈ snd <$> dict_append d k e → x ∈ g →
  x = e ∨ ∃ g', g' ∈ snd <$> d ∧ x ∈ g'.
Proof.
  induction d as [|[k' g'] d IH]; simpl.
  - intros ->%list_elem_of_singleton ->%list_elem_of_singleton. by left.
  - destruct (decide (k' = k)) as [->|Hne]; simpl.
    + intros [->|Hg]%elem_of_cons Hx.
      * apply elem_of_app in Hx as [Hx| ->%list_elem_of_singleton]; [|by left].
        right. exists g'. split; [apply list_elem_of_here|done].
      * right. exists g. split; [by apply list_elem_of_further|done].
    + intros [->|Hg]%elem_of_cons Hx.
      * right. exists g'. split; [apply list_elem_of_here|done].
      * destruct (IH Hg Hx) as [?|(g'' & Hg'' & Hx'')]; [by left|].
        right. exists g''. split; [by apply list_elem_of_further|done].
Qed.

Lemma group_by_members {K} `{EqDecision K} (key : Entry → K)
    (entries : list Entry) (d : list (K * list Entry)) (g : list Entry) (x : Entry) :
  g ∈ snd <$> fold_left (λ d e, dict_append d (key e) e) entries d → x ∈ g →
  x ∈ entries ∨ ∃ g', g' ∈ snd <$> d ∧ x ∈ g'.
Proof.
  revert d. induction entries as [|e entries IH]; intros d; simpl.
  - intros Hg Hx. right. by exists g.
  - intros Hg Hx. destruct (IH _ Hg Hx) as [?|(g' & Hg' & Hx')].
    + left. by apply list_elem_of_further.
    + destruct (dict_append_members _ _ _ _ _ Hg' Hx') as [->|?]; [|by right].
      left. apply list_elem_of_here.
Qed.

Lemma dup_name_groups_members (entries g : list Entry) (x : Entry) :
  g ∈ dup_name_groups entries → x ∈ g → x ∈ entries.
Proof.
  unfold dup_name_groups, by_name. intros [_ Hg]%list_elem_of_filter Hx.
  destruct (group_by_members _ _ _ _ _ Hg Hx) as [?|(g' & Hg' & _)]; [done|].
  by apply elem_of_nil in Hg'.
Qed.

Lemma dup_name_cmd_groups_members (entries g : list Entry) (x : Entry) :
  g ∈ dup_name_cmd_groups entries → x ∈ g → x ∈ entries.
Proof.
  unfold dup_name_cmd_groups, by_name_cmd. intros [_ Hg]%list_elem_of_filter Hx.
  destruct (group_by_members _ _ _ _ _ Hg Hx) as [?|(g' & Hg' & _)]; [done|].
  by apply elem_of_nil in Hg'.
Qed.

(** C4. A descriptor whose parse raises yields the synthetic entry of the
    [except] branch: broken, with a [Parse error:] reason and no mime
    type. [load_entries] drops it for its empty mime-type list, so the
    loaded entries are those of the file list without that descriptor:
    it is in no broken-entry list, in no duplicate group, not counted,
    not in the JSON payload, and the whole run of [main] is the run on
    the entries loaded without it. *)
Theorem parse_error_entries_invisible (w : World) (p msg : string) :
  read_desktop_body w p = inl msg →
  (∃ e, read_desktop w p = Some e ∧ path e = p ∧ broken e = true
        ∧ reason e = "Parse error: " +:+ msg ∧ mimetypes e = [])
  ∧ (∀ files, load_entries_from w files
              = load_entries_from w (filter (λ q, q ≠ p) files))
  ∧ (∀ e, e ∈ load_entries w → path e ≠ p)
  ∧ (∀ e, e ∈ broken_entries (load_entries w) → path e ≠ p)
  ∧ (∀ g e, g ∈ dup_name_groups (load_entries w) → e ∈ g → path e ≠ p)
  ∧ (∀ g e, g ∈ dup_name_cmd_groups (load_entries w) → e ∈ g → path e ≠ p)
  ∧ json_payload (load_entries w)
    = json_payload (load_entries_from w
                      (filter (λ q, q ≠ p) (find_desktop_files w)))
  ∧ (∀ a, main w a
          = main_on w a (load_entries_from w
                           (filter (λ q, q ≠ p) (find_desktop_files w)))).
Proof.
  intros Hbody.
  assert (read_desktop w p = Some (parse_error_entry w p msg)) as Hread.
  { unfold read_desktop. by rewrite Hbody. }
  assert (keep_entry (read_desktop w p) = None) as Hdrop.
  { by rewrite Hread. }
  assert (∀ e, e ∈ load_entries w → path e ≠ p) as Hnot.
  { intros e [_ He]%load_entries_from_path Heq.
    rewrite Heq in He. congruence. }
  split_and!.
  - by exists (parse_error_entry w p msg).
  - intros files. by apply load_entries_from_skip.
  - done.
  - intros e [_ He]%list_elem_of_filter. by apply Hnot.
  - intros g e Hg He. eapply Hnot, dup_name_groups_members; eauto.
  - intros g e Hg He. eapply Hnot, dup_name_cmd_groups_members; eauto.
  - unfold load_entries. by rewrite <- load_entries_from_skip.
  - intros a. unfold main, load_entries. by rewrite <- load_entries_from_skip.
Qed.

Lemma parse_error_entries_invisible_witness :
  read_desktop example_world "/usr/share/applications/broken.desktop"
    = Some (parse_error_entry example_world
              "/usr/share/applications/broken.desktop"
              "File contains no section headers.")
  ∧ ∀ e, e ∈ load_entries example_world →
         path e ≠ "/usr/share/applications/broken.desktop".
Proof.
  pose proof (parse_error_entries_invisible example_world
                "/usr/share/applications/broken.desktop"
                "File contains no section headers." eq_refl)
    as ((e & He & _) & _ & Hnot & _).
  split; [reflexivity|exact Hnot].
Defined.

(** ** Keep selection *)

Section key_order.

Lemma ltb_false_le (p q : string) : String.ltb p q = false ↔ (q ≤ p)%string.
Proof.
  unfold String.le, String.leb, String.ltb.
  rewrite (String.compare_antisym p q).
  destruct (String.compare q p); simpl; split; done.
Qed.

Lemma ltb_true_le (p q : string) : String.ltb p q = true → (p ≤ q)%string.
Proof.
  unfold String.le, String.leb, String.ltb.
  destruct (String.compare p q); simpl; done.
Qed.

Lemma key_lt_false (a b : nat * nat * string) :
  key_lt a b = false ↔ key_le b a.
Proof.
  destruct a as [[r1 s1] p1], b as [[r2 s2] p2]. unfold key_lt, key_le. simpl.
  rewrite orb_false_iff, andb_false_iff, orb_false_iff, andb_false_iff.
  rewrite !Nat.ltb_ge, !Nat.eqb_neq, ltb_false_le.
  split.
  - intros [Hr [Hne|[Hs [Hne|Hp]]]]; [lia| |].
    + destruct (decide (r1 = r2)); [|lia]. right. split; [done|]. left. lia.
    + destruct (decide (r1 = r2)); [|lia]. right. split; [done|].
      destruct (decide (s1 = s2)); [|lia]. right. done.
  - intros [Hr|[-> [Hs|[-> Hp]]]].
    + split; [lia|]. left. lia.
    + split; [lia|]. right. split; [lia|]. left. lia.
    + split; [lia|]. right. split; [lia|]. by right.
Qed.

Lemma key_lt_true (a b : nat * nat * string) :
  key_lt a b = true → key_le a b.
Proof.
  destruct a as [[r1 s1] p1], b as [[r2 s2] p2]. unfold key_lt, key_le. simpl.
  rewrite orb_true_iff, andb_true_iff, orb_true_iff, andb_true_iff.
  rewrite !Nat.ltb_lt, !Nat.eqb_eq.
  intros [?|[-> [?|[-> ?%ltb_true_le]]]]; [by left|right..].
  - split; [done|]. by left.
  - split; [done|]. by right.
Qed.

Lemma key_le_trans (a b c : nat * nat * string) :
  key_le a b → key_le b c → key_le a c.
Proof.
  destruct a as [[r1 s1] p1], b as [[r2 s2] p2], c as [[r3 s3] p3].
  unfold key_le. simpl.
  intros [?|[-> [?|[-> Hp]]]] [?|[-> [?|[-> Hq]]]];
    try (left; lia); try (right; split; [done|]; left; lia).
  right. split; [done|]. right. split; [done|]. by etrans.
Qed.

Lemma key_le_antisym (a b : nat * nat * string) :
  key_le a b → key_le b a → a = b.
Proof.
  destruct a as [[r1 s1] p1], b as [[r2 s2] p2].
  unfold key_le. simpl.
  intros [?|[-> [?|[-> Hp]]]] [?|[? [?|[? Hq]]]]; try lia.
  f_equal. by apply (anti_symm String.le).
Qed.

End key_order.

Lemma min_go_spec (key : Entry → nat * nat * string) (l : list Entry) :
  ∀ (best_i : nat) (best : Entry) (i k : nat) (e : Entry),
    min_go key best_i best i l = (k, e) →
    ((k = best_i ∧ e = best) ∨ ∃ j, k = i + j ∧ l !! j = Some e)
    ∧ key_le (key e) (key best)
    ∧ ∀ x, x ∈ l → key_le (key e) (key x).
Proof.
  induction l as [|x l IH]; intros best_i best i k e; simpl.
  - intros [= <- <-]. split_and!; [by left| |by intros ? ?%elem_of_nil].
    apply key_lt_false. destruct (key best) as [[r s] p]. unfold key_lt.
    rewrite !Nat.ltb_irrefl, !Nat.eqb_refl. simpl.
    by apply ltb_false_le.
  - destruct (key_lt (key x) (key best)) eqn:Hlt; intros Hmin;
      destruct (IH _ _ _ _ _ Hmin) as (Hpos & Hbest & Hall).
    + apply key_lt_true in Hlt. split_and!.
      * right. destruct Hpos as [[-> ->]|(j & -> & Hj)].
        -- exists 0. split; [lia|done].
        -- exists (S j). split; [lia|done].
      * by eapply key_le_trans.
      * intros y [->|Hy]%elem_of_cons; [done|by apply Hall].
    + apply key_lt_false in Hlt. split_and!.
      * destruct Hpos as [?|(j & -> & Hj)]; [by left|].
        right. exists (S j). split; [lia|done].
      * done.
      * intros y [->|Hy]%elem_of_cons; [|by apply Hall].
        by eapply key_le_trans.
Qed.

Lemma py_min_spec (key : Entry → nat * nat * string) (l : list Entry) :
  l ≠ [] →
  ∃ k e, py_min key l = Some (k, e) ∧ l !! k = Some e
         ∧ ∀ x, x ∈ l → key_le (key e) (key x).
Proof.
  destruct l as [|x l]; [done|]. intros _. simpl.
  destruct (min_go key 0 x 1 l) as [k e] eqn:Hmin.
  destruct (min_go_spec _ _ _ _ _ _ _ Hmin) as (Hpos & Hbest & Hall).
  exists k, e. split_and!; [done| |].
  - destruct Hpos as [[-> ->]|(j & -> & Hj)]; done.
  - intros y [->|Hy]%elem_of_cons; [done|by apply Hall].
Qed.

Lemma sort_key_preferred (prefer : string) (a b : Entry) :
  key_le (sort_key prefer a) (sort_key prefer b) ↔ preferred_over prefer a b.
Proof.
  unfold key_le, sort_key, preferred_over, is_system. simpl.
  destruct (String.eqb_spec (scope a) "system"),
           (String.eqb_spec (scope b) "system"); split;
    intros [?|[? [?|[? ?]]]]; try lia; try tauto; try (by left);
    right; (split; [done|]); try (by left); try (left; lia);
    right; split; try done; try lia; tauto.
Qed.

Section ranks.

Local Arguments String.eqb : simpl never.

Lemma rank_zero_native (p : string) :
  provider_rank p "native" = 0 → p = "native".
Proof.
  unfold provider_rank, dict_get.
  replace (String.eqb "native" "native") with true by reflexivity. simpl.
  destruct (String.eqb_spec "native" p); [done|].
  destruct (String.eqb_spec "flatpak" p); [done|].
  destruct (String.eqb_spec "snap" p); [done|].
  destruct (String.eqb_spec "other" p); done.
Qed.

Lemma rank_at_most_three (provider prefer : string) :
  provider_rank provider prefer ≤ 3
  ∧ provider_rank "other" prefer = 3
  ∧ (provider ∈ ["native"; "flatpak"; "snap"] →
     provider_rank provider prefer < 3).
Proof.
  assert (∀ d : list (string * nat),
            d ∈ [[("native", 0); ("flatpak", 1); ("snap", 2); ("other", 3)];
                 [("flatpak", 0); ("native", 1); ("snap", 2); ("other", 3)];
                 [("snap", 0); ("native", 1); ("flatpak", 2); ("other", 3)]] →
            dict_get d provider 3 ≤ 3 ∧ dict_get d "other" 3 = 3
            ∧ (provider ∈ ["native"; "flatpak"; "snap"] → dict_get d provider 3 < 3))
    as Hmaps.
  { intros d Hd. split_and!.
    - repeat (apply elem_of_cons in Hd as [->|Hd]);
        [..|by apply elem_of_nil in Hd]; unfold dict_get; simpl;
        repeat (destruct (String.eqb _ provider); simpl; [lia|]); lia.
    - repeat (apply elem_of_cons in Hd as [->|Hd]);
        [..|by apply elem_of_nil in Hd]; reflexivity.
    - intros Hp.
      repeat (apply elem_of_cons in Hp as [->|Hp]);
        [..|by apply elem_of_nil in Hp];
        (repeat (apply elem_of_cons in Hd as [->|Hd]);
         [..|by apply elem_of_nil in Hd]); vm_compute; lia. }
  unfold provider_rank. apply Hmaps.
  unfold dict_get at 1. simpl.
  destruct (String.eqb "native" prefer); simpl; [apply list_elem_of_here|].
  destruct (String.eqb "flatpak" prefer); simpl;
    [apply list_elem_of_further, list_elem_of_here|].
  destruct (String.eqb "snap" prefer); simpl.
  - do 2 apply list_elem_of_further. apply list_elem_of_here.
  - apply list_elem_of_here.
Qed.

Lemma rank_of_preferred (p : string) :
  p ∈ ["native"; "flatpak"; "snap"] → provider_rank p p = 0.
Proof.
  intros Hp. repeat (apply elem_of_cons in Hp as [->|Hp]);
    [..|by apply elem_of_nil in Hp]; reflexivity.
Qed.

End ranks.

Lemma same_path_same_entry (g : list Entry) (a b : Entry) :
  NoDup (path <$> g) → a ∈ g → b ∈ g → path a = path b → a = b.
Proof.
  intros Hnd Ha Hb Hp.
  apply list_elem_of_lookup in Ha as [i Hi].
  apply list_elem_of_lookup in Hb as [j Hj].
  assert (i = j) as ->; [|congruence].
  eapply NoDup_lookup; [exact Hnd|..]; rewrite list_lookup_fmap.
  - by rewrite Hi.
  - rewrite Hj. simpl. by rewrite Hp.
Qed.

(** ** Groups of the tool have distinct paths *)

Lemma load_entries_from_paths (w : World) (files : list string) :
  path <$> load_entries_from w files `sublist_of` files.
Proof.
  unfold load_entries_from. induction files as [|q files IH]; [done|].
  simpl. destruct (keep_entry (read_desktop w q)) as [e|] eqn:He.
  - assert (read_desktop w q = Some e) as Hr.
    { unfold keep_entry in He. repeat case_match; simplify_eq; done. }
    apply read_desktop_path in Hr. rewrite fmap_cons, Hr.
    by apply sublist_skip.
  - by apply sublist_cons.
Qed.

Lemma load_entries_distinct_paths (w : World) :
  NoDup (path <$> load_entries w).
Proof.
  eapply sublist_NoDup; [|apply load_entries_from_paths].
  apply find_desktop_files_distinct.
Qed.

Lemma dict_append_sublists {K} `{EqDecision K} (d : list (K * list Entry))
    (k : K) (e : Entry) (g : list Entry) :
  g ∈ snd <$> dict_append d k e →
  g = [e] ∨ g ∈ snd <$> d ∨ ∃ g0, g0 ∈ snd <$> d ∧ g = g0 ++ [e].
Proof.
  induction d as [|[k0 g0] d IH]; simpl.
  - intros ->%list_elem_of_singleton. by left.
  - destruct (decide (k0 = k)) as [->|Hne]; simpl.
    + intros [->|Hg]%elem_of_cons.
      * right. right. exists g0. split; [apply list_elem_of_here|done].
      * right. left. by apply list_elem_of_further.
    + intros [->|Hg]%elem_of_cons.
      * right. left. apply list_elem_of_here.
      * destruct (IH Hg) as [?|[?|(g1 & Hg1 & ->)]]; [by left| |].
        -- right. left. by apply list_elem_of_further.
        -- right. right. exists g1. split; [by apply list_elem_of_further|done].
Qed.

Lemma group_by_sublists {K} `{EqDecision K} (key : Entry → K)
    (entries done_ : list Entry) (d : list (K * list Entry)) :
  (∀ g, g ∈ snd <$> d → g `sublist_of` done_) →
  ∀ g, g ∈ snd <$> fold_left (λ d e, dict_append d (key e) e) entries d →
       g `sublist_of` done_ ++ entries.
Proof.
  revert done_ d. induction entries as [|e entries IH]; intros done_ d Hd g; simpl.
  - rewrite app_nil_r. apply Hd.
  - intros Hg. change (e :: entries) with ([e] ++ entries).
    rewrite app_assoc.
    eapply IH; [|exact Hg].
    intros g1 Hg1.
    destruct (dict_append_sublists _ _ _ _ Hg1) as [->|[H1|(g0 & H0 & ->)]].
    + apply sublist_inserts_l. done.
    + apply sublist_inserts_r. by apply Hd.
    + apply sublist_app; [by apply Hd|done].
Qed.

Lemma dup_name_groups_distinct_paths (w : World) (g : list Entry) :
  g ∈ dup_name_groups (load_entries w) → NoDup (path <$> g).
Proof.
  unfold dup_name_groups, by_name. intros [_ Hg]%list_elem_of_filter.
  eapply sublist_NoDup; [apply (load_entries_distinct_paths w)|].
  apply fmap_sublist.
  apply (group_by_sublists name_key (load_entries w) [] []); [|done].
  by intros ? ?%elem_of_nil.
Qed.

Lemma keep_by_name_minimal (prefer : string) (group : list Entry) :
  group ≠ [] →
  ∃ k keep, keep_by_name prefer group = Some (k, keep)
            ∧ group !! k = Some keep
            ∧ ∀ e, e ∈ group → preferred_over prefer keep e.
Proof.
  intros Hne. destruct (py_min_spec (sort_key prefer) group Hne)
    as (k & keep & E & Hk & Hall).
  exists k, keep. split_and!; [done|done|].
  intros e He. by apply sort_key_preferred, Hall.
Qed.

Lemma minimal_unique (prefer : string) (group : list Entry) (a b : Entry) :
  NoDup (path <$> group) → a ∈ group → b ∈ group →
  (∀ e, e ∈ group → preferred_over prefer a e) →
  (∀ e, e ∈ group → preferred_over prefer b e) →
  a = b.
Proof.
  intros Hnd Ha Hb Hmina Hminb.
  eapply same_path_same_entry; [done..|].
  assert (sort_key prefer a = sort_key prefer b) as E.
  { apply key_le_antisym; apply sort_key_preferred; auto. }
  unfold sort_key in E. congruence.
Qed.

(** C3. Under the name strategy one member of a group is kept, at one
    position of the group. It comes before every member in the order of
    the tie-break: lower provider rank under the configured preference
    (the preferred provider has rank 0, [other] has the last rank 3 and
    the three named providers rank below it), then system scope before
    user scope, then the smaller path. In a group of distinct paths it is
    the only such member, and every permutation of the group selects it;
    the groups the tool builds from the loaded entries have distinct
    paths. With [--prefer native], a group that holds a native entry
    keeps a native entry in every input order. *)
Theorem keep_by_name_deterministic (prefer : string) (group : list Entry) :
  group ≠ [] →
  (∀ p, p ∈ ["native"; "flatpak"; "snap"] → provider_rank p p = 0)
  ∧ (∀ provider,
       provider_rank provider prefer ≤ 3
       ∧ provider_rank "other" prefer = 3
       ∧ (provider ∈ ["native"; "flatpak"; "snap"] →
          provider_rank provider prefer < 3))
  ∧ (∃ k keep,
      keep_by_name prefer group = Some (k, keep)
      ∧ group !! k = Some keep
      ∧ (∀ e, e ∈ group → preferred_over prefer keep e)
      ∧ (NoDup (path <$> group) →
         (∀ e, e ∈ group → (∀ x, x ∈ group → preferred_over prefer e x) →
               e = keep)
         ∧ ∀ group2, group2 ≡ₚ group →
             ∃ k2, keep_by_name prefer group2 = Some (k2, keep))
      ∧ (prefer = "native" → (∃ x, x ∈ group ∧ provider x = "native") →
         ∀ group2, group2 ≡ₚ group →
           ∃ k2 keep2, keep_by_name prefer group2 = Some (k2, keep2)
                       ∧ provider keep2 = "native"))
  ∧ (∀ w, group ∈ dup_name_groups (load_entries w) → NoDup (path <$> group)).
Proof.
  intros Hne. split_and!.
  - apply rank_of_preferred.
  - intros provider. apply rank_at_most_three.
  - destruct (keep_by_name_minimal prefer group Hne) as (k & keep & E & Hk & Hmin).
    assert (keep ∈ group) as Hin by (eapply list_elem_of_lookup_2; eauto).
    exists k, keep. split_and!; [done|done|done| |].
    + intros Hnd. split.
      * intros e He Hmine. by eapply minimal_unique.
      * intros group2 Hperm.
        assert (group2 ≠ []) as Hne2.
        { intros ->. by apply Permutation_nil_l in Hperm. }
        destruct (keep_by_name_minimal prefer group2 Hne2)
          as (k2 & keep2 & E2 & Hk2 & Hmin2).
        exists k2. rewrite E2. do 2 f_equal.
        assert (keep2 ∈ group2) as Hin2 by (eapply list_elem_of_lookup_2; eauto).
        eapply minimal_unique; [exact Hnd|by rewrite <- Hperm|done| |done].
        intros e He. apply Hmin2. by rewrite Hperm.
    + intros -> (x & Hx & Hnat) group2 Hperm.
      assert (group2 ≠ []) as Hne2.
      { intros ->. by apply Permutation_nil_l in Hperm. }
      destruct (keep_by_name_minimal "native" group2 Hne2)
        as (k2 & keep2 & E2 & Hk2 & Hmin2).
      exists k2, keep2. split; [done|].
      apply rank_zero_native.
      assert (preferred_over "native" keep2 x) as Hpref.
      { apply Hmin2. by rewrite Hperm. }
      unfold preferred_over in Hpref. rewrite Hnat in Hpref.
      change (provider_rank "native" "native") with 0 in Hpref.
      destruct Hpref as [?|[? _]]; lia.
  - intros w. apply dup_name_groups_distinct_paths.
Qed.

Lemma keep_by_name_deterministic_witness :
  ∃ k2 keep2, keep_by_name "native" (reverse example_group) = Some (k2, keep2)
              ∧ provider keep2 = "native".
Proof.
  assert (example_group ≠ []) as Hne by (vm_compute; discriminate).
  destruct (keep_by_name_deterministic "native" example_group Hne)
    as (_ & _ & (k & keep & _ & _ & _ & _ & Hnative) & _).
  apply Hnative; [reflexivity| |apply reverse_Permutation].
  vm_compute. eexists.
  split; [apply list_elem_of_further, list_elem_of_here|reflexivity].
Defined.

(** ** Strings and paths, continued *)

Lemma append_nil_l (t : string) : "" +:+ t = t.
Proof. reflexivity. Qed.

Lemma append_cons (c : ascii) (s t : string) :
  String c s +:+ t = String c (s +:+ t).
Proof. reflexivity. Qed.

Lemma prefix_append (s t : string) : String.prefix s (s +:+ t) = true.
Proof.
  induction s as [|c s IH]; [by destruct t|].
  rewrite append_cons. simpl.
  destruct (ascii_dec c c); [done|congruence].
Qed.

Lemma append_assoc (s t u : string) : (s +:+ t) +:+ u = s +:+ (t +:+ u).
Proof.
  induction s as [|c s IH]; [done|]. by rewrite !append_cons, IH.
Qed.

Lemma append_nil_r (s : string) : s +:+ "" = s.
Proof.
  induction s as [|c s IH]; [done|]. by rewrite append_cons, IH.
Qed.



Lemma rev_app_append (s t : string) :
  String.rev_app s t = String.rev s +:+ t.
Proof.
  unfold String.rev. revert t.
  induction s as [|c s IH]; intros t; simpl; [done|].
  rewrite IH, (IH (String c "")), append_assoc. done.
Qed.

Lemma rev_cons (c : ascii) (s : string) :
  String.rev (String c s) = String.rev s +:+ String c "".
Proof. unfold String.rev at 1. simpl. by rewrite rev_app_append. Qed.

(** ** Shadow copies *)

Lemma no_linebreak_cons (c : ascii) (l : string) :
  no_linebreak (String c l) ↔ Py.is_linebreak c = false ∧ no_linebreak l.
Proof.
  unfold no_linebreak. simpl. split.
  - intros H. split; [apply H; by left|]. intros c' Hc'. apply H. by right.
  - intros [Hc Hl] c' [<-|Hc']; [done|by apply Hl].
Qed.

Lemma no_linebreak_rev_app (s t : string) :
  no_linebreak s → no_linebreak t → no_linebreak (String.rev_app s t).
Proof.
  revert t. induction s as [|c s IH]; intros t Hs Ht; simpl; [done|].
  apply no_linebreak_cons in Hs as [Hc Hs].
  apply IH; [done|]. by apply no_linebreak_cons.
Qed.

Lemma no_linebreak_nil : no_linebreak "".
Proof. intros c []. Qed.

Lemma no_linebreak_rev (s : string) :
  no_linebreak s → no_linebreak (String.rev s).
Proof.
  intros Hs. unfold String.rev.
  apply no_linebreak_rev_app; [done|apply no_linebreak_nil].
Qed.

Lemma splitlines_go_no_linebreak (s cur : string) :
  no_linebreak cur →
  Forall no_linebreak (Py.splitlines_go cur s).
Proof.
  assert (∀ n s cur, String.length s < n → no_linebreak cur →
                     Forall no_linebreak (Py.splitlines_go cur s)) as Hind;
    [|intros Hcur; apply (Hind (S (String.length s))); [lia|done]].
  clear s cur. induction n as [|n IH]; intros s cur Hlen Hcur; [lia|].
  destruct s as [|c s]; simpl in *.
  - destruct cur; [constructor|].
    constructor; [|constructor]. by apply no_linebreak_rev.
  - destruct (Py.is_linebreak c) eqn:Hc.
    + constructor; [by apply no_linebreak_rev|].
      assert (Forall no_linebreak (Py.splitlines_go "" s)) as Hs.
      { apply IH; [lia|apply no_linebreak_nil]. }
      destruct c as [[] [] [] [] [] [] [] []]; try exact Hs.
      destruct s as [|[[] [] [] [] [] [] [] []] s2]; try exact Hs.
      apply IH; [simpl in *; lia|apply no_linebreak_nil].
    + apply IH; [lia|]. by apply no_linebreak_cons.
Qed.

Lemma splitlines_no_linebreak (s : string) :
  Forall no_linebreak (Py.splitlines s).
Proof. apply splitlines_go_no_linebreak, no_linebreak_nil. Qed.

Lemma splitlines_go_line (l cur rest : string) :
  no_linebreak l →
  Py.splitlines_go cur (l +:+ newline +:+ rest)
  = (String.rev cur +:+ l) :: Py.splitlines_go "" rest.
Proof.
  revert cur. induction l as [|c l IH]; intros cur Hl.
  - rewrite append_nil_l, append_nil_r. reflexivity.
  - apply no_linebreak_cons in Hl as [Hc Hl].
    rewrite append_cons. simpl. rewrite Hc.
    rewrite IH by done. by rewrite rev_cons, append_assoc.
Qed.

Lemma splitlines_join (ls : list string) :
  ls ≠ [] → Forall no_linebreak ls →
  Py.splitlines (Py.join newline ls +:+ newline) = ls.
Proof.
  unfold Py.splitlines, Py.join.
  induction ls as [|x ls IH]; [done|]. intros _ Hls.
  apply Forall_cons in Hls as [Hx Hls].
  destruct ls as [|y ls].
  - simpl. rewrite <- (append_nil_r newline) at 1.
    rewrite splitlines_go_line by done. reflexivity.
  - change (String.concat newline (x :: y :: ls))
      with (x +:+ newline +:+ String.concat newline (y :: ls)).
    rewrite !append_assoc, splitlines_go_line by done.
    rewrite IH by done. reflexivity.
Qed.

Lemma replace_first_nodisplay_spec (lines : list string) :
  match replace_first_nodisplay lines with
  | (lines', true) =>
      ∃ i l, lines !! i = Some l ∧ Py.startswith l "NoDisplay=" = true
             ∧ (∀ j l0, j < i → lines !! j = Some l0 →
                        Py.startswith l0 "NoDisplay=" = false)
             ∧ lines' = <[i := "NoDisplay=true"]> lines
  | (lines', false) =>
      (∀ l, l ∈ lines → Py.startswith l "NoDisplay=" = false) ∧ lines' = lines
  end.
Proof.
  induction lines as [|line rest IH]; simpl.
  - split; [by intros ? ?%elem_of_nil|done].
  - destruct (Py.startswith line "NoDisplay=") eqn:Hline.
    + exists 0, line. split_and!; [done|done| |done]. intros j l0 Hj. lia.
    + destruct (replace_first_nodisplay rest) as [rest' [|]].
      * destruct IH as (i & l & Hi & Hl & Hbefore & ->).
        exists (S i), l. split_and!; [done|done| |done].
        intros [|j] l0 Hj Hl0; simpl in Hl0; [congruence|].
        eapply Hbefore; [|done]. lia.
      * destruct IH as [Hall ->]. split; [|done].
        intros l [->|Hl]%elem_of_cons; [done|by apply Hall].
Qed.

(** What [force_nodisplay] does to the lines: the first line that starts
    with [NoDisplay=] is replaced and every other line stays, or no line
    starts so and one line is added at the end. *)
Lemma force_nodisplay_spec (lines : list string) :
  (∃ i l, lines !! i = Some l ∧ Py.startswith l "NoDisplay=" = true
          ∧ (∀ j l0, j < i → lines !! j = Some l0 →
                     Py.startswith l0 "NoDisplay=" = false)
          ∧ force_nodisplay lines = <[i := "NoDisplay=true"]> lines)
  ∨ ((∀ l, l ∈ lines → Py.startswith l "NoDisplay=" = false)
     ∧ force_nodisplay lines = lines ++ ["NoDisplay=true"]).
Proof.
  unfold force_nodisplay.
  pose proof (replace_first_nodisplay_spec lines) as H.
  destruct (replace_first_nodisplay lines) as [lines' [|]].
  - by left.
  - right. destruct H as [Hall ->]. done.
Qed.

Lemma force_nodisplay_lines (lines : list string) :
  Forall no_linebreak lines →
  force_nodisplay lines ≠ [] ∧ Forall no_linebreak (force_nodisplay lines).
Proof.
  intros Hall.
  assert (no_linebreak "NoDisplay=true") as Hnd.
  { intros c Hc. simpl in Hc.
    repeat (destruct Hc as [<-|Hc]; [reflexivity|]). done. }
  destruct (force_nodisplay_spec lines) as [(i & l & Hi & _ & _ & ->)|[_ ->]].
  - split.
    + intros E. apply (f_equal length) in E. rewrite length_insert in E.
      apply lookup_lt_Some in Hi. simpl in E. lia.
    + apply Forall_insert; done.
  - split; [by destruct lines|].
    apply Forall_app. split; [done|]. by constructor.
Qed.

(** Read back line by line, a shadow copy is the original with
    [NoDisplay=true] forced. *)
Lemma shadow_content_lines (content : string) :
  Py.splitlines (shadow_content content)
  = force_nodisplay (Py.splitlines content).
Proof.
  unfold shadow_content.
  destruct (force_nodisplay_lines (Py.splitlines content)
              (splitlines_no_linebreak content)) as [Hne Hall].
  by apply splitlines_join.
Qed.

(** ** Bytes and text *)

Lemma no_sep_nil (sep : ascii) : no_sep sep "".
Proof. intros c []. Qed.

Lemma no_sep_cons (sep c : ascii) (s : string) :
  no_sep sep (String c s) ↔ c ≠ sep ∧ no_sep sep s.
Proof.
  unfold no_sep. simpl. split.
  - intros H. split; [apply H; by left|]. intros c' Hc'. apply H. by right.
  - intros [Hc Hl] c' [<-|Hc']; [done|by apply Hl].
Qed.

Lemma decode_encode_char (c : ascii) (rest : string) :
  Utf8.decode (Utf8.encode_char c rest) = String c (Utf8.decode rest).
Proof. destruct c as [[] [] [] [] [] [] [] []]; reflexivity. Qed.

Lemma decode_encode (t : string) : Utf8.decode (Utf8.encode t) = t.
Proof.
  induction t as [|c t IH]; [done|].
  change (Utf8.encode (String c t)) with (Utf8.encode_char c (Utf8.encode t)).
  by rewrite decode_encode_char, IH.
Qed.

Lemma universal_newlines_plain (s : string) :
  no_sep "013" s → Py.universal_newlines s = s.
Proof.
  induction s as [|c s IH]; [done|].
  intros [Hc Hs]%no_sep_cons. specialize (IH Hs).
  destruct c as [[] [] [] [] [] [] [] []]; simpl; by rewrite ?IH.
Qed.

(** Text without a carriage return reads back as it was written. *)
Lemma as_read_encode (t : string) :
  no_sep "013" t → Utf8.as_read (Utf8.encode t) = t.
Proof.
  intros H. unfold Utf8.as_read.
  by rewrite decode_encode, universal_newlines_plain.
Qed.

Lemma no_sep_append (sep : ascii) (s t : string) :
  no_sep sep s → no_sep sep t → no_sep sep (s +:+ t).
Proof.
  induction s as [|c s IH]; intros Hs Ht.
  - by rewrite append_nil_l.
  - apply no_sep_cons in Hs as [Hc Hs]. rewrite append_cons.
    apply no_sep_cons. split; [done|by apply IH].
Qed.

Lemma no_sep_join (sep : ascii) (glue : string) (l : list string) :
  no_sep sep glue → Forall (no_sep sep) l → no_sep sep (Py.join glue l).
Proof.
  intros Hg. unfold Py.join. induction 1 as [|x l Hx Hl IH].
  - apply no_sep_nil.
  - destruct l as [|y l]; [done|].
    change (String.concat glue (x :: y :: l))
      with (x +:+ glue +:+ String.concat glue (y :: l)).
    by repeat apply no_sep_append.
Qed.

Lemma no_linebreak_no_cr (l : string) : no_linebreak l → no_sep "013" l.
Proof. intros H c Hc ->. by specialize (H _ Hc). Qed.

Lemma newline_no_cr : no_sep "013" newline.
Proof. intros c [<-|[]]. done. Qed.

Lemma shadow_content_no_cr (content : string) :
  no_sep "013" (shadow_content content).
Proof.
  unfold shadow_content.
  destruct (force_nodisplay_lines (Py.splitlines content)
              (splitlines_no_linebreak content)) as [_ Hall].
  apply no_sep_append; [|apply newline_no_cr].
  apply no_sep_join; [apply newline_no_cr|].
  eapply Forall_impl; [exact Hall|]. apply no_linebreak_no_cr.
Qed.

Lemma shadow_content_read_back (content : string) :
  Utf8.as_read (Utf8.encode (shadow_content content)) = shadow_content content.
Proof. apply as_read_encode, shadow_content_no_cr. Qed.

(** ** Following links *)

Section links.
Context (w : World).
Implicit Types (fs ls : gmap string string) (p t : string).

Lemma resolve_go_eq fs ls (fuel : nat) p :
  resolve_go w fs ls fuel p
  = match fs !! p with
    | Some _ => Some p
    | None =>
        match ls !! p with
        | None => Some p
        | Some target =>
            match fuel with
            | 0 => None
            | S fuel' => resolve_go w fs ls fuel' (follow w p target)
            end
        end
    end.
Proof. by destruct fuel. Qed.

Lemma resolve_go_file fs ls (fuel : nat) p (bytes : string) :
  fs !! p = Some bytes → resolve_go w fs ls fuel p = Some p.
Proof. intros H. by rewrite resolve_go_eq, H. Qed.

Lemma resolve_go_plain fs ls (fuel : nat) p :
  ls !! p = None → resolve_go w fs ls fuel p = Some p.
Proof. intros H. rewrite resolve_go_eq, H. by destruct (fs !! p). Qed.

Lemma resolve_file (s : state) p (bytes : string) :
  files s !! p = Some bytes → resolve w s p = Some p.
Proof. apply resolve_go_file. Qed.

Lemma resolve_plain (s : state) p :
  links s !! p = None → resolve w s p = Some p.
Proof. apply resolve_go_plain. Qed.

(** Where a chain of links ends there is a file, or nothing. *)
Lemma resolve_go_end fs ls (fuel : nat) p t :
  resolve_go w fs ls fuel p = Some t → is_Some (fs !! t) ∨ ls !! t = None.
Proof.
  revert p. induction fuel as [|fuel IH]; intros p; rewrite resolve_go_eq.
  - destruct (fs !! p) as [b|] eqn:Hf.
    + intros [= Hp]. subst t. left. by exists b.
    + destruct (ls !! p) as [target|] eqn:Hl; [done|].
      intros [= Hp]. subst t. by right.
  - destruct (fs !! p) as [b|] eqn:Hf.
    + intros [= Hp]. subst t. left. by exists b.
    + destruct (ls !! p) as [target|] eqn:Hl; [apply IH|].
      intros [= Hp]. subst t. by right.
Qed.

(** Writing where a chain ends sends no chain elsewhere. *)
Lemma resolve_go_insert fs ls (fuel : nat) p t (x : string) :
  is_Some (fs !! t) ∨ ls !! t = None →
  resolve_go w (<[t := x]> fs) ls fuel p = resolve_go w fs ls fuel p.
Proof.
  intros Ht.
  assert (∀ fuel, resolve_go w fs ls fuel t = Some t) as HA.
  { intros f. destruct Ht as [[b Hb]|Hl].
    - by apply (resolve_go_file _ _ _ _ b).
    - by apply resolve_go_plain. }
  assert (∀ fuel, resolve_go w (<[t := x]> fs) ls fuel t = Some t) as HB.
  { intros f. apply (resolve_go_file _ _ _ _ x), lookup_insert_eq. }
  revert p. induction fuel as [|fuel IH]; intros p.
  - destruct (decide (p = t)) as [->|Hne]; [by rewrite HA, HB|].
    rewrite !(resolve_go_eq _ _ 0). by rewrite lookup_insert_ne.
  - destruct (decide (p = t)) as [->|Hne]; [by rewrite HA, HB|].
    rewrite !(resolve_go_eq _ _ (S fuel)). rewrite lookup_insert_ne by done.
    destruct (fs !! p); [done|]. destruct (ls !! p); [apply IH|done].
Qed.

End links.

(** ** The mutating helpers, case by case *)

Ltac unfold_M :=
  unfold mbind, M_bind, mret, M_ret, try_except, raise, print, eprint,
    emit_event, mkdir, file_exists, read_text, write_text, move in *.

Lemma set_nodisplay_override_raises (w : World) (p msg : string) (s : state) :
  mkdir_error w (user_applications w) = Some msg →
  set_nodisplay_override w p s = Raised msg s.
Proof.
  intros H. unfold set_nodisplay_override, ensure_user_dir. unfold_M.
  by rewrite H.
Qed.

(** The helper, branch by branch: the directory, the read, the write. *)
Lemma set_nodisplay_override_run (w : World) (p : string) (s : state) :
  set_nodisplay_override w p s
  = match mkdir_error w (user_applications w) with
    | Some msg => Raised msg s
    | None =>
        let failed msg :=
          Done p {| files := files s; links := links s;
                    dirs := {[user_applications w]} ∪ dirs s;
                    trace := trace s ++ [Stderr ("Failed to override " +:+ p
                                                 +:+ ": " +:+ msg)] |} in
        match read_error w p with
        | Some msg => failed msg
        | None =>
            match resolve w s p with
            | None => failed (too_many_links p)
            | Some t =>
                match files s !! t with
                | None => failed ("No such file or directory: " +:+ p)
                | Some bytes =>
                    match write_error w (shadow_path w p) with
                    | Some msg => failed msg
                    | None =>
                        match resolve w s (shadow_path w p) with
                        | None => failed (too_many_links (shadow_path w p))
                        | Some d =>
                            Done (shadow_path w p)
                              {| files :=
                                   <[d := Utf8.encode
                                            (shadow_content (Utf8.as_read bytes))]>
                                     (files s);
                                 links := links s;
                                 dirs := {[user_applications w]} ∪ dirs s;
                                 trace := trace s |}
                        end
                    end
                end
            end
        end
    end.
Proof.
  unfold set_nodisplay_override, ensure_user_dir, shadow_path. unfold_M.
  destruct (mkdir_error w (user_applications w)); [done|]. simpl.
  destruct (read_error w p); [done|].
  unfold resolve. simpl.
  destruct (resolve_go w (files s) (links s) max_links p) as [t|]; [|done].
  destruct (files s !! t); [|done]. simpl.
  destruct (write_error w _); [done|].
  by destruct (resolve_go w (files s) (links s) max_links _).
Qed.


Lemma disable_user_file_raises (w : World) (p msg : string) (s : state) :
  mkdir_error w (disabled_dir w) = Some msg →
  disable_user_file w p s = Raised msg s.
Proof.
  intros H. unfold disable_user_file. unfold_M. by rewrite H.
Qed.

(** The helper, branch by branch: the directory, the test, the move of a
    regular file or of a link. *)
Lemma disable_user_file_run (w : World) (p : string) (s : state) :
  disable_user_file w p s
  = match mkdir_error w (disabled_dir w) with
    | Some msg => Raised msg s
    | None =>
        let failed msg :=
          Done p {| files := files s; links := links s;
                    dirs := {[disabled_dir w]} ∪ dirs s;
                    trace := trace s ++ [Stderr ("Failed to move " +:+ p
                                                 +:+ ": " +:+ msg)] |} in
        if match resolve w s p with
           | Some t => bool_decide (is_Some (files s !! t))
           | None => false
           end
        then
          match move_error w p (disabled_path w p) with
          | Some msg => failed msg
          | None =>
              match files s !! p with
              | Some bytes =>
                  Done (disabled_path w p)
                    {| files := <[disabled_path w p := bytes]> (delete p (files s));
                       links := delete (disabled_path w p) (delete p (links s));
                       dirs := {[disabled_dir w]} ∪ dirs s;
                       trace := trace s |}
              | None =>
                  match links s !! p with
                  | Some target =>
                      Done (disabled_path w p)
                        {| files := delete (disabled_path w p) (files s);
                           links := <[disabled_path w p := target]>
                                      (delete p (links s));
                           dirs := {[disabled_dir w]} ∪ dirs s;
                           trace := trace s |}
                  | None => failed ("No such file or directory: " +:+ p)
                  end
              end
          end
        else
          Done (disabled_path w p)
            {| files := files s; links := links s;
               dirs := {[disabled_dir w]} ∪ dirs s; trace := trace s |}
    end.
Proof.
  unfold disable_user_file, disabled_path. unfold_M.
  destruct (mkdir_error w (disabled_dir w)); [done|]. simpl.
  unfold resolve. simpl.
  destruct (match resolve_go w (files s) (links s) max_links p with
            | Some t => bool_decide (is_Some (files s !! t))
            | None => false
            end); simpl; [|done].
  destruct (move_error w p _); [done|].
  destruct (files s !! p); [done|]. by destruct (links s !! p).
Qed.


Lemma read_desktop_scope (w : World) (q : string) (e : Entry) :
  read_desktop w q = Some e → scope e = scope_of w (path e).
Proof.
  unfold read_desktop, read_desktop_body.
  repeat case_match; intros; simplify_eq; done.
Qed.






(** The flag is set line by line, not key by key: appended after a later
    group of the descriptor it is no key of [Desktop Entry]; and text
    that does not decode is left out of the copy. *)
Example shadow_flag_after_later_group :
  shadow_content grouped_descriptor
  = grouped_descriptor +:+ "NoDisplay=true" +:+ newline
  ∧ match ConfigParser.read_file (shadow_content grouped_descriptor) with
    | inr c => Some (ConfigParser.get c "Desktop Entry" "nodisplay",
                     ConfigParser.get c "Desktop Action new" "nodisplay")
    | inl _ => None
    end = Some (None, Some "true").
Proof. split; reflexivity. Qed.

Example shadow_copy_of_undecodable_bytes :
  shadow_content (Utf8.as_read latin1_descriptor)
  = "[Desktop Entry]" +:+ newline +:+ "Name=Caf" +:+ newline
    +:+ "NoDisplay=true" +:+ newline.
Proof. reflexivity. Qed.



(** ** Loops over items *)






Section batch.

Variable w : World.
Hypothesis user_dir_made : mkdir_error w (user_applications w) = None.
Hypothesis disabled_dir_made : mkdir_error w (disabled_dir w) = None.





End batch.

Lemma dup_group_nonempty (g : list Entry) : is_dup_group g = true → g ≠ [].
Proof. by destruct g. Qed.

Lemma dup_name_groups_nonempty (entries : list Entry) :
  Forall (λ g, g ≠ []) (dup_name_groups entries).
Proof.
  apply Forall_forall. intros g [Hg _]%list_elem_of_filter.
  by apply dup_group_nonempty.
Qed.

Lemma dup_name_cmd_groups_nonempty (entries : list Entry) :
  Forall (λ g, g ≠ []) (dup_name_cmd_groups entries).
Proof.
  apply Forall_forall. intros g [Hg _]%list_elem_of_filter.
  by apply dup_group_nonempty.
Qed.




(** The two [mkdir] calls stand before the [try] blocks: when one of them
    fails, the exception leaves the helper and ends the loop. *)
Remark mkdir_failure_leaves_the_loop (w : World) (e : Entry)
    (rest : list Entry) (s : state) (msg : string) :
  scope e = "user" →
  mkdir_error w (disabled_dir w) = Some msg →
  fix_broken_loop w (e :: rest) s = Raised msg s.
Proof.
  intros Hscope Hmk. unfold fix_broken_loop. simpl.
  unfold hide_entry. rewrite Hscope.
  change (String.eqb "user" "user") with true. cbv iota.
  unfold mbind, M_bind.
  by rewrite (disable_user_file_raises w (path e) msg s Hmk).
Qed.

(** ** The report is written once and never touched again *)

Lemma reports_app (t u : list event) :
  reports (t ++ u) = reports t ++ reports u.
Proof. apply omap_app. Qed.

Lemma silent_ret {A} (a : A) : silent (mret a : M A).
Proof. by intros s. Qed.

Lemma silent_raise {A} (msg : string) : silent (raise msg : M A).
Proof. by intros s. Qed.

Lemma silent_bind {A B} (m : M A) (k : A → M B) :
  silent m → (∀ a, silent (k a)) → silent (m ≫= k).
Proof.
  intros Hm Hk s. unfold mbind, M_bind.
  specialize (Hm s). destruct (m s) as [a s1|msg s1]; simpl in *.
  - by rewrite Hk.
  - done.
Qed.

Lemma silent_try_except {A} (m : M A) (h : string → M A) :
  silent m → (∀ e, silent (h e)) → silent (try_except m h).
Proof.
  intros Hm Hh s. unfold try_except.
  specialize (Hm s). destruct (m s) as [a s1|msg s1]; simpl in *.
  - done.
  - by rewrite Hh.
Qed.

Lemma silent_print (line : string) : silent (print line).
Proof.
  intros s. unfold print, emit_event. simpl.
  by rewrite reports_app, app_nil_r.
Qed.

Lemma silent_eprint (line : string) : silent (eprint line).
Proof.
  intros s. unfold eprint, emit_event. simpl.
  by rewrite reports_app, app_nil_r.
Qed.

Lemma silent_mkdir (w : World) (d : string) : silent (mkdir w d).
Proof. intros s. unfold mkdir. by destruct (mkdir_error w d). Qed.

Lemma silent_file_exists (w : World) (p : string) : silent (file_exists w p).
Proof. by intros s. Qed.

Lemma silent_read_text (w : World) (p : string) : silent (read_text w p).
Proof. intros s. unfold read_text. by repeat case_match. Qed.

Lemma silent_write_text (w : World) (p c : string) : silent (write_text w p c).
Proof. intros s. unfold write_text. by repeat case_match. Qed.

Lemma silent_move (w : World) (p q : string) : silent (move w p q).
Proof. intros s. unfold move. by repeat case_match. Qed.

Lemma silent_for_each {A} (l : list A) (body : A → M unit) :
  (∀ x, silent (body x)) → silent (for_each l body).
Proof.
  intros Hbody. induction l as [|x l IH]; simpl.
  - apply silent_ret.
  - apply silent_bind; [done|by intros _].
Qed.

Lemma silent_for_each_i {A} (l : list A) (body : nat → A → M unit) (i : nat) :
  (∀ j x, silent (body j x)) → silent (for_each_i i l body).
Proof.
  intros Hbody. revert i. induction l as [|x l IH]; intros i; simpl.
  - apply silent_ret.
  - apply silent_bind; [done|by intros _].
Qed.

Lemma silent_set_nodisplay_override (w : World) (p : string) :
  silent (set_nodisplay_override w p).
Proof.
  unfold set_nodisplay_override, ensure_user_dir.
  apply silent_bind.
  - apply silent_bind; [apply silent_mkdir|intros _; apply silent_ret].
  - intros ud. apply silent_try_except.
    + apply silent_bind; [apply silent_read_text|intros content].
      apply silent_bind; [apply silent_write_text|intros _; apply silent_ret].
    + intros e.
      apply silent_bind; [apply silent_eprint|intros _; apply silent_ret].
Qed.

Lemma silent_disable_user_file (w : World) (p : string) :
  silent (disable_user_file w p).
Proof.
  unfold disable_user_file.
  apply silent_bind; [apply silent_mkdir|intros _].
  apply silent_try_except.
  - apply silent_bind; [apply silent_file_exists|intros ex].
    apply silent_bind; [|intros _; apply silent_ret].
    destruct ex; [apply silent_move|apply silent_ret].
  - intros e. apply silent_bind; [apply silent_eprint|intros _; apply silent_ret].
Qed.

Lemma silent_hide_entry (w : World) (e : Entry) (um sm : string → string) :
  silent (hide_entry w e um sm).
Proof.
  unfold hide_entry. destruct (String.eqb (scope e) "user").
  - apply silent_bind; [apply silent_disable_user_file|intros ?; apply silent_print].
  - apply silent_bind; [apply silent_set_nodisplay_override|intros ?; apply silent_print].
Qed.

Lemma silent_fix_broken_loop (w : World) (broken : list Entry) :
  silent (fix_broken_loop w broken).
Proof.
  unfold fix_broken_loop. apply silent_for_each. intros e.
  apply silent_hide_entry.
Qed.

Lemma silent_hide_duplicates_step (w : World) (a : Args)
    (name_groups name_cmd_groups : list (list Entry)) :
  silent (hide_duplicates_step w a name_groups name_cmd_groups).
Proof.
  assert (∀ g, silent (hide_group_by_name w (prefer a) g)) as Hn.
  { intros g. unfold hide_group_by_name.
    destruct (keep_by_name (prefer a) g) as [[k keep]|]; [|apply silent_raise].
    apply silent_for_each_i. intros i e.
    destruct (i =? k); [apply silent_print|apply silent_hide_entry]. }
  assert (∀ g, silent (hide_group_by_name_cmd w g)) as Hc.
  { intros g. unfold hide_group_by_name_cmd.
    destruct (keep_by_name_cmd g) as [[k keep]|]; [|apply silent_raise].
    apply silent_for_each_i. intros i e.
    destruct (i =? k); [apply silent_print|apply silent_hide_entry]. }
  unfold hide_duplicates_step.
  apply silent_bind; [apply silent_print|intros _].
  apply silent_bind; [|intros _].
  - destruct (strategy a); try apply silent_ret; by apply silent_for_each.
  - destruct (strategy a); try apply silent_ret; by apply silent_for_each.
Qed.

Lemma silent_clean_mimeapps (w : World) (p : string) (existing : list string) :
  silent (clean_mimeapps w p existing).
Proof.
  unfold clean_mimeapps. apply silent_bind; [apply silent_file_exists|].
  intros ex. destruct ex; simpl; [|apply silent_ret].
  apply silent_bind; [apply silent_read_text|]. intros content.
  destruct (ConfigParser.read_file content); [apply silent_raise|].
  apply silent_bind; [|intros _; apply silent_ret].
  destruct (changed _); [apply silent_write_text|apply silent_ret].
Qed.

Lemma returns_silently_print (line : string) : returns_silently (print line).
Proof.
  intros s. unfold print, emit_event. eexists _, _. split; [done|]. simpl.
  by rewrite reports_app, app_nil_r.
Qed.

Lemma returns_silently_bind {A B} (m : M A) (k : A → M B) :
  returns_silently m → (∀ a, returns_silently (k a)) →
  returns_silently (m ≫= k).
Proof.
  intros Hm Hk s. unfold mbind, M_bind.
  destruct (Hm s) as (a & s1 & -> & H1).
  destruct (Hk a s1) as (b & s2 & -> & H2).
  exists b, s2. split; [done|congruence].
Qed.

Lemma returns_silently_for_each {A} (P : A → Prop) (l : list A)
    (body : A → M unit) :
  (∀ x, P x → returns_silently (body x)) → Forall P l →
  returns_silently (for_each l body).
Proof.
  intros Hbody. induction 1 as [|x l Hx Hl IH]; simpl.
  - intros s. by exists tt, s.
  - apply returns_silently_bind; [by apply Hbody|by intros _].
Qed.

Lemma returns_silently_print_members (g : list Entry) :
  returns_silently (print_members g).
Proof.
  unfold print_members.
  apply (returns_silently_for_each (λ _, True)); [|by apply Forall_true].
  intros e _. apply returns_silently_print.
Qed.

Lemma returns_silently_first_entry (g : list Entry) :
  g ≠ [] → returns_silently (first_entry g).
Proof. destruct g as [|e g]; [done|]. intros _ s. by exists e, s. Qed.

Lemma scan_report_returns_silently (entries broken : list Entry)
    (name_groups name_cmd_groups : list (list Entry)) :
  Forall (λ g, g ≠ []) name_groups →
  Forall (λ g, g ≠ []) name_cmd_groups →
  returns_silently (scan_report entries broken name_groups name_cmd_groups).
Proof.
  intros Hn Hc. unfold scan_report.
  repeat (apply returns_silently_bind; [apply returns_silently_print|intros _]).
  apply returns_silently_bind; [|intros _].
  { apply (returns_silently_for_each (λ _, True)); [|by apply Forall_true].
    intros e _. apply returns_silently_print. }
  apply returns_silently_bind; [apply returns_silently_print|intros _].
  apply returns_silently_bind; [|intros _].
  { apply (returns_silently_for_each (λ g, g ≠ [])); [|done].
    intros g Hg.
    apply returns_silently_bind; [by apply returns_silently_first_entry|].
    intros e0.
    apply returns_silently_bind; [apply returns_silently_print|intros _].
    apply returns_silently_print_members. }
  apply returns_silently_bind; [apply returns_silently_print|intros _].
  apply (returns_silently_for_each (λ g, g ≠ [])); [|done].
  intros g Hg.
  apply returns_silently_bind; [by apply returns_silently_first_entry|].
  intros e0.
  apply returns_silently_bind; [apply returns_silently_print|intros _].
  apply returns_silently_print_members.
Qed.

Lemma silent_after {A B} (m : M A) (k : A → M B) (s : state) (extra : list (string * Payload)) :
  (∀ a, silent (k a)) →
  reports (trace (final (m s))) = reports (trace s) ++ extra →
  reports (trace (final ((m ≫= k) s))) = reports (trace s) ++ extra.
Proof.
  intros Hk Hm. unfold mbind, M_bind.
  destruct (m s) as [a s1|msg s1]; simpl in *; [|done].
  by rewrite Hk.
Qed.

(** C10. Whatever flags are passed, the run of [main] on a given list of
    loaded entries writes the JSON report at most once, to the [--json]
    path, and its payload is the projection [json_payload] of the
    entries: the count, the broken entries and the two listings of
    duplicate groups. Two runs from the same state that agree on the
    [--json] argument therefore write the same report, whether or not
    either one also fixes broken entries, hides duplicates or cleans the
    association file. *)
Theorem json_report_independent_of_flags (w : World) (entries : list Entry)
    (s : state) :
  (∀ a, reports (trace (final (main_on w a entries s)))
        = reports (trace s) ++ json_reports w (json a) entries)
  ∧ (∀ a1 a2, json a1 = json a2 →
       reports (trace (final (main_on w a1 entries s)))
       = reports (trace (final (main_on w a2 entries s))))
  ∧ (∀ a1 a2, json a1 = json a2 →
       reports (trace (final (main w a1 s)))
       = reports (trace (final (main w a2 s)))).
Proof.
  assert (∀ es s0 a, reports (trace (final (main_on w a es s0)))
                     = reports (trace s0) ++ json_reports w (json a) es) as Hrun.
  { intros es s0 a. unfold main_on.
    (* the scan report returns and writes no report *)
    assert (returns_silently
              (if scan a || (negb (fix_broken a) && negb (hide_duplicates a)
                             && negb (fix_mimeapps a))
               then scan_report es (broken_entries es) (dup_name_groups es)
                      (dup_name_cmd_groups es)
               else mret tt)) as Hscan.
    { destruct (scan a || (negb (fix_broken a) && negb (hide_duplicates a)
                           && negb (fix_mimeapps a))).
      - apply scan_report_returns_silently;
          [apply dup_name_groups_nonempty|apply dup_name_cmd_groups_nonempty].
      - intros s1. by exists tt, s1. }
    unfold mbind at 1, M_bind at 1.
    destruct (Hscan s0) as ([] & s1 & -> & <-).
    (* the JSON step adds the report; nothing after it writes one *)
    apply silent_after.
    { intros _. apply silent_bind; [|intros _].
      { destruct (fix_broken a); [|apply silent_ret].
        apply silent_bind; [apply silent_print|intros _].
        apply silent_fix_broken_loop. }
      apply silent_bind; [|intros _].
      { destruct (hide_duplicates a); [|apply silent_ret].
        apply silent_hide_duplicates_step. }
      apply silent_bind; [|intros _].
      { destruct (fix_mimeapps a); [|apply silent_ret].
        apply silent_bind; [apply silent_clean_mimeapps|intros r].
        apply silent_print. }
      destruct (fix_broken a || hide_duplicates a || fix_mimeapps a);
        [|apply silent_ret].
      apply silent_bind; [|intros _].
      { apply silent_try_except; [|intros _; apply silent_ret].
        apply silent_bind; [|intros _; apply silent_ret].
        unfold ensure_user_dir.
        apply silent_bind; [apply silent_mkdir|intros _; apply silent_ret]. }
      apply silent_bind; [apply silent_print|intros _; apply silent_print]. }
    unfold json_reports.
    destruct (json a) as [p|]; [|by rewrite app_nil_r].
    destruct (Py.truthy p); [|by rewrite app_nil_r].
    unfold mbind, M_bind, write_json.
    destruct (write_error w p); simpl; [by rewrite app_nil_r|].
    by rewrite !reports_app, app_nil_r. }
  split_and!.
  - intros a. apply Hrun.
  - intros a1 a2 Hjson. by rewrite !Hrun, Hjson.
  - intros a1 a2 Hjson. unfold main. by rewrite !Hrun, Hjson.
Qed.

(** ** Association values *)

Lemma no_sep_rev_app (sep : ascii) (s t : string) :
  no_sep sep s → no_sep sep t → no_sep sep (String.rev_app s t).
Proof.
  revert t. induction s as [|c s IH]; intros t Hs Ht; simpl; [done|].
  apply no_sep_cons in Hs as [Hc Hs].
  apply IH; [done|]. by apply no_sep_cons.
Qed.

Lemma split_go_no_sep (sep : ascii) (s cur : string) :
  no_sep sep cur → Forall (no_sep sep) (Py.split_go sep cur s).
Proof.
  revert cur. induction s as [|c s IH]; intros cur Hcur; simpl.
  - constructor; [|constructor].
    apply no_sep_rev_app; [done|apply no_sep_nil].
  - destruct (Ascii.eqb_spec c sep) as [->|Hc].
    + constructor; [|apply IH, no_sep_nil].
      apply no_sep_rev_app; [done|apply no_sep_nil].
    + apply IH. by apply no_sep_cons.
Qed.

Lemma split_go_piece (sep : ascii) (x cur rest : string) :
  no_sep sep x →
  Py.split_go sep cur (x +:+ String sep rest)
  = (String.rev cur +:+ x) :: Py.split_go sep "" rest.
Proof.
  revert cur. induction x as [|c x IH]; intros cur Hx.
  - rewrite append_nil_l, append_nil_r. simpl. by rewrite Ascii.eqb_refl.
  - apply no_sep_cons in Hx as [Hc Hx].
    rewrite append_cons. simpl.
    destruct (Ascii.eqb_spec c sep) as [?|_]; [done|].
    rewrite IH by done. by rewrite rev_cons, append_assoc.
Qed.

Lemma split_ids_no_sep (val : string) :
  Forall (λ x, x ≠ "" ∧ no_sep ";" x) (split_ids val).
Proof.
  unfold split_ids, Py.split.
  pose proof (split_go_no_sep ";" val "" (no_sep_nil _)) as H.
  induction H as [|x l Hx Hl IH]; [constructor|].
  destruct x as [|c x].
  - rewrite filter_cons_False by (by intros ?). done.
  - rewrite filter_cons_True by done. constructor; [|done]. done.
Qed.

Lemma join_ids_cons (x : string) (xs : list string) :
  join_ids (x :: xs) = x +:+ ";" +:+ join_ids xs.
Proof.
  unfold join_ids, Py.join. destruct xs as [|y ys].
  - simpl. by rewrite append_nil_r.
  - change (String.concat ";" (x :: y :: ys))
      with (x +:+ ";" +:+ String.concat ";" (y :: ys)).
    by rewrite !append_assoc.
Qed.

Lemma split_join_ids (new : list string) :
  Forall (λ x, x ≠ "" ∧ no_sep ";" x) new →
  split_ids (join_ids new) = new.
Proof.
  induction 1 as [|x xs [Hne Hx] Hxs IH]; [done|].
  rewrite join_ids_cons. unfold split_ids, Py.split in *.
  change (";" +:+ join_ids xs) with (String ";" (join_ids xs)).
  rewrite split_go_piece by done.
  change (String.rev "" +:+ x) with x.
  rewrite filter_cons_True by (by destruct x).
  by rewrite IH.
Qed.

Ltac triple_eq :=
  apply (f_equal2 pair); [apply (f_equal2 pair)|]; try reflexivity; try lia.

Lemma clean_items_counts (existing items new : list string) (seen : gset string)
    (d m : nat) :
  clean_items existing items new seen d m
  = ((clean_items existing items new seen 0 0).1.1,
     d + (clean_items existing items new seen 0 0).1.2,
     m + (clean_items existing items new seen 0 0).2).
Proof.
  revert new seen d m.
  induction items as [|it items IH]; intros new seen d m; simpl.
  - triple_eq.
  - destruct (bool_decide (it ∈ existing)); simpl.
    + destruct (bool_decide (it ∈ seen)).
      * rewrite (IH _ _ (S d) m), (IH _ _ 1 0). simpl. triple_eq.
      * apply IH.
    + rewrite (IH _ _ d (S m)), (IH _ _ 0 1). simpl. triple_eq.
Qed.

Lemma clean_items_kept (existing items new : list string) (seen : gset string) :
  (∀ x, x ∈ seen ↔ x ∈ new) → NoDup new → Forall (λ x, x ∈ existing) new →
  ∃ ext,
    (clean_items existing items new seen 0 0).1.1 = new ++ ext
    ∧ NoDup (new ++ ext)
    ∧ Forall (λ x, x ∈ existing) (new ++ ext)
    ∧ Forall (λ x, x ∈ items) ext.
Proof.
  revert new seen.
  induction items as [|it items IH]; intros new seen Hseen Hnd Hex; simpl.
  - exists []. rewrite app_nil_r. done.
  - assert (∀ ext, Forall (λ x, x ∈ items) ext →
                   Forall (λ x, x ∈ it :: items) ext) as Hweak.
    { intros ext H. eapply Forall_impl; [exact H|].
      intros x Hx. by apply list_elem_of_further. }
    destruct (bool_decide (it ∈ existing)) eqn:Hit; simpl.
    + apply bool_decide_eq_true in Hit.
      destruct (bool_decide (it ∈ seen)) eqn:Hs.
      * rewrite clean_items_counts. simpl.
        destruct (IH new seen Hseen Hnd Hex) as (ext & E & ? & ? & ?).
        exists ext. split_and!; auto.
      * apply bool_decide_eq_false in Hs.
        destruct (IH (new ++ [it]) ({[it]} ∪ seen)) as (ext & E & Hnd2 & Hex2 & Hin).
        { intros x. rewrite elem_of_union, elem_of_singleton, elem_of_app,
            list_elem_of_singleton, Hseen. tauto. }
        { apply NoDup_app. split_and!; [done| |apply NoDup_singleton].
          intros x Hx ->%list_elem_of_singleton. apply Hs. by apply Hseen. }
        { apply Forall_app. split; [done|]. by constructor. }
        exists (it :: ext). rewrite <- app_assoc in *. simpl in *.
        split_and!; [done|done|done|].
        constructor; [apply list_elem_of_here|by apply Hweak].
    + rewrite clean_items_counts. simpl.
      destruct (IH new seen Hseen Hnd Hex) as (ext & E & ? & ? & ?).
      exists ext. split_and!; auto.
Qed.

Lemma clean_items_keeps_all (existing l new : list string) (seen : gset string)
    (d m : nat) :
  NoDup l → Forall (λ x, x ∈ existing) l → (∀ x, x ∈ l → x ∉ seen) →
  clean_items existing l new seen d m = (new ++ l, d, m).
Proof.
  revert new seen.
  induction l as [|x l IH]; intros new seen Hnd Hex Hfresh; simpl.
  - by rewrite app_nil_r.
  - apply NoDup_cons in Hnd as [Hx Hnd].
    apply Forall_cons in Hex as [Hxe Hex].
    rewrite bool_decide_true by done. simpl.
    rewrite bool_decide_false by (apply Hfresh, list_elem_of_here).
    rewrite IH; [by rewrite <- app_assoc|done|done|].
    intros y Hy. rewrite elem_of_union, elem_of_singleton.
    intros [->|Hs]; [done|].
    by apply (Hfresh y); [apply list_elem_of_further|].
Qed.

(** Cleaning a cleaned value changes nothing and removes nothing. *)
Lemma clean_value_idempotent (existing : list string) (val : string) :
  is_clean existing (clean_value existing val).1.1.
Proof.
  unfold is_clean, clean_value.
  destruct (clean_items_kept existing (split_ids val) [] ∅)
    as (new & E & Hnd & Hex & Hin); [|constructor|constructor|].
  { intros x. rewrite elem_of_empty, elem_of_nil. tauto. }
  simpl in *.
  destruct (clean_items existing (split_ids val) [] ∅ 0 0) as [[new0 d] m].
  simpl in *. subst new0.
  rewrite split_join_ids.
  - rewrite clean_items_keeps_all; [done|done|done|].
    intros x _. apply not_elem_of_empty.
  - pose proof (split_ids_no_sep val) as Hsep.
    rewrite Forall_forall in Hsep, Hin. apply Forall_forall.
    intros x Hx. by apply Hsep, Hin.
Qed.

(** A value the cleaner returns as it was had nothing to remove. *)
Lemma clean_value_fixed (existing : list string) (val : string) :
  (clean_value existing val).1.1 = val → is_clean existing val.
Proof.
  intros E. pose proof (clean_value_idempotent existing val) as H.
  by rewrite E in H.
Qed.

(** ** Ordered dictionaries and the section view *)

Section dictionaries.

Context {V : Type}.
Implicit Types (d : list (string * V)) (k : string) (v : V).

Lemma dict_find_set_eq d k v :
  ConfigParser.dict_find (ConfigParser.dict_set d k v) k = Some v.
Proof.
  induction d as [|[k0 v0] d IH]; simpl.
  - by rewrite String.eqb_refl.
  - destruct (String.eqb k0 k) eqn:E; simpl; by rewrite E.
Qed.

Lemma dict_find_set_ne d k k' v :
  k' ≠ k →
  ConfigParser.dict_find (ConfigParser.dict_set d k v) k'
  = ConfigParser.dict_find d k'.
Proof.
  intros Hne. induction d as [|[k0 v0] d IH]; simpl.
  - destruct (String.eqb_spec k k'); [congruence|done].
  - destruct (String.eqb_spec k0 k) as [->|Hk]; simpl.
    + destruct (String.eqb_spec k k'); [congruence|done].
    + destruct (String.eqb_spec k0 k'); [done|apply IH].
Qed.

Lemma dict_find_in d k v :
  ConfigParser.dict_find d k = Some v → k ∈ fst <$> d.
Proof.
  induction d as [|[k0 v0] d IH]; simpl; [done|].
  destruct (String.eqb_spec k0 k) as [->|Hk].
  - intros _. apply list_elem_of_here.
  - intros H. by apply list_elem_of_further, IH.
Qed.

Lemma has_key_set d k k' v :
  ConfigParser.has_key d k' = true →
  ConfigParser.has_key (ConfigParser.dict_set d k v) k' = true.
Proof.
  unfold ConfigParser.has_key.
  destruct (decide (k' = k)) as [->|Hne].
  - by rewrite dict_find_set_eq.
  - by rewrite dict_find_set_ne.
Qed.

Lemma has_key_set_same d k v :
  ConfigParser.has_key d k = true →
  ∀ k', ConfigParser.has_key (ConfigParser.dict_set d k v) k'
        = ConfigParser.has_key d k'.
Proof.
  unfold ConfigParser.has_key. intros Hk k'.
  destruct (decide (k' = k)) as [->|Hne].
  - rewrite dict_find_set_eq. by destruct (ConfigParser.dict_find d k).
  - by rewrite dict_find_set_ne.
Qed.

End dictionaries.

Lemma get_set_eq (c : ConfigParser.config) (section key value : string) :
  ConfigParser.get (ConfigParser.set c section key value) section key
  = Some value.
Proof.
  unfold ConfigParser.get, ConfigParser.set. simpl.
  rewrite dict_find_set_eq. simpl. by rewrite dict_find_set_eq.
Qed.

Lemma get_set_other_key (c : ConfigParser.config) (section key key' value : string) :
  key' ≠ key →
  ConfigParser.get (ConfigParser.set c section key value) section key'
  = ConfigParser.get c section key'.
Proof.
  intros Hne. unfold ConfigParser.get, ConfigParser.set. simpl.
  rewrite dict_find_set_eq. simpl. by rewrite dict_find_set_ne.
Qed.

Lemma get_set_other_section (c : ConfigParser.config)
    (section section' key key' value : string) :
  section' ≠ section →
  ConfigParser.get (ConfigParser.set c section key value) section' key'
  = ConfigParser.get c section' key'.
Proof.
  intros Hne. unfold ConfigParser.get, ConfigParser.set. simpl.
  by rewrite dict_find_set_ne.
Qed.

Lemma contains_set (c : ConfigParser.config) (section section' key value : string) :
  ConfigParser.has_key (ConfigParser.sections c) section = true →
  ConfigParser.contains (ConfigParser.set c section key value) section'
  = ConfigParser.contains c section'.
Proof.
  intros H. unfold ConfigParser.contains, ConfigParser.set. simpl.
  by rewrite has_key_set_same.
Qed.

Lemma has_section_set (c : ConfigParser.config) (section key value : string) :
  ConfigParser.has_key (ConfigParser.sections c) section = true →
  ConfigParser.has_key
    (ConfigParser.sections (ConfigParser.set c section key value)) section = true.
Proof. intros H. unfold ConfigParser.set. simpl. by apply has_key_set. Qed.

Lemma get_in_keys (c : ConfigParser.config) (section key value : string) :
  ConfigParser.get c section key = Some value →
  key ∈ ConfigParser.keys c section.
Proof.
  unfold ConfigParser.get, ConfigParser.keys.
  set (own := default [] (ConfigParser.dict_find (ConfigParser.sections c) section)).
  destruct (ConfigParser.dict_find own key) as [v|] eqn:Hown.
  - intros _. apply elem_of_app. left. by eapply dict_find_in.
  - intros Hd. apply elem_of_app. right.
    apply list_elem_of_filter. split; [|by eapply dict_find_in].
    unfold ConfigParser.has_key. by rewrite Hown.
Qed.

(** ** Cleaning a configuration *)

Lemma clean_key_unfold (existing : list string) (section : string)
    (st : cleaning) (key : string) :
  clean_key existing section st key
  = let val := default "" (ConfigParser.get (cfg st) section key) in
    let r := clean_value existing val in
    if negb (String.eqb r.1.1 val) then
      {| cfg := ConfigParser.set (cfg st) section key r.1.1; changed := true;
         removed_dup := removed_dup st + r.1.2;
         removed_missing := removed_missing st + r.2 |}
    else
      {| cfg := cfg st; changed := changed st;
         removed_dup := removed_dup st + r.1.2;
         removed_missing := removed_missing st + r.2 |}.
Proof.
  unfold clean_key, clean_value. cbv zeta.
  rewrite clean_items_counts.
  destruct (clean_items existing _ [] ∅ 0 0) as [[new d] m]. done.
Qed.

Lemma is_clean_empty (existing : list string) : is_clean existing "".
Proof. reflexivity. Qed.

Lemma clean_key_on_clean (existing : list string) (section : string)
    (st : cleaning) (key : string) :
  is_clean existing (default "" (ConfigParser.get (cfg st) section key)) →
  clean_key existing section st key = st.
Proof.
  intros H. rewrite clean_key_unfold. cbv zeta.
  destruct st as [c ch d m]. unfold is_clean in H. simpl in *.
  rewrite !H. simpl. rewrite String.eqb_refl. simpl. f_equal; lia.
Qed.

Lemma all_clean_default (existing : list string) (c : ConfigParser.config)
    (section key : string) :
  all_clean existing c section →
  is_clean existing (default "" (ConfigParser.get c section key)).
Proof.
  intros H. destruct (ConfigParser.get c section key) as [v|] eqn:E; simpl.
  - by eapply H.
  - apply is_clean_empty.
Qed.

Lemma fold_clean_key_on_clean (existing : list string) (section : string)
    (ks : list string) (st : cleaning) :
  all_clean existing (cfg st) section →
  fold_left (clean_key existing section) ks st = st.
Proof.
  intros H. induction ks as [|k ks IH]; simpl; [done|].
  by rewrite clean_key_on_clean by (by apply all_clean_default).
Qed.

(** One turn of the loop: the value at the key is clean afterwards,
    nothing else is read differently, and a turn that leaves [changed]
    false has changed nothing and counted nothing. *)
Lemma clean_key_spec (existing : list string) (section : string)
    (st : cleaning) (key : string) :
  let st' := clean_key existing section st key in
  (∀ v, ConfigParser.get (cfg st') section key = Some v → is_clean existing v)
  ∧ (∀ k, k ≠ key →
          ConfigParser.get (cfg st') section k = ConfigParser.get (cfg st) section k)
  ∧ (∀ sec k, sec ≠ section →
              ConfigParser.get (cfg st') sec k = ConfigParser.get (cfg st) sec k)
  ∧ (ConfigParser.has_key (ConfigParser.sections (cfg st)) section = true →
     ConfigParser.has_key (ConfigParser.sections (cfg st')) section = true
     ∧ ∀ sec, ConfigParser.contains (cfg st') sec = ConfigParser.contains (cfg st) sec)
  ∧ (changed st = true → changed st' = true)
  ∧ (changed st' = false → st' = st).
Proof.
  cbv zeta. rewrite clean_key_unfold. cbv zeta.
  set (val := default "" (ConfigParser.get (cfg st) section key)).
  pose proof (clean_value_idempotent existing val) as Hidem.
  pose proof (clean_value_fixed existing val) as Hfixed.
  unfold is_clean in Hfixed.
  destruct (clean_value existing val) as [[new_val d] m] eqn:Hcv. simpl in *.
  destruct (String.eqb_spec new_val val) as [->|Hne]; simpl.
  - specialize (Hfixed eq_refl). injection Hfixed as -> ->.
    split_and!; try done.
    + intros v Hv. subst val. rewrite Hv in Hcv. done.
    + intros _. destruct st; simpl. f_equal; lia.
  - split_and!; try done.
    + intros v. rewrite get_set_eq. by intros [= <-].
    + intros k Hk. by apply get_set_other_key.
    + intros sec k Hsec. by apply get_set_other_section.
    + intros Hhas. split; [by apply has_section_set|].
      intros sec. by apply contains_set.
Qed.

Lemma fold_clean_key_spec (existing : list string) (section : string)
    (ks : list string) (st : cleaning) :
  let st' := fold_left (clean_key existing section) ks st in
  (∀ k v, ConfigParser.get (cfg st') section k = Some v →
          is_clean existing v
          ∨ ((k ∉ ks) ∧ ConfigParser.get (cfg st) section k = Some v))
  ∧ (∀ sec k, sec ≠ section →
              ConfigParser.get (cfg st') sec k = ConfigParser.get (cfg st) sec k)
  ∧ (ConfigParser.has_key (ConfigParser.sections (cfg st)) section = true →
     ∀ sec, ConfigParser.contains (cfg st') sec = ConfigParser.contains (cfg st) sec)
  ∧ (changed st' = false → st' = st).
Proof.
  cbv zeta. revert st. induction ks as [|key ks IH]; intros st; simpl.
  - split_and!; try done. intros k v Hv. right. split; [apply not_elem_of_nil|done].
  - destruct (clean_key_spec existing section st key)
      as (Hkey & Hother & Hsec & Hhas & Hmono & Hsame).
    destruct (IH (clean_key existing section st key))
      as (IHval & IHsec & IHhas & IHsame).
    split_and!.
    + intros k v Hv. destruct (IHval k v Hv) as [?|[Hk Hv1]]; [by left|].
      destruct (decide (k = key)) as [->|Hne].
      * left. by apply Hkey.
      * right. split; [|by rewrite <- Hother].
        rewrite not_elem_of_cons. done.
    + intros sec k Hne. by rewrite IHsec, Hsec.
    + intros H sec. destruct (Hhas H) as [H1 H2]. by rewrite IHhas, H2.
    + intros Hch. specialize (IHsame Hch). rewrite IHsame in Hch |- *.
      by apply Hsame.
Qed.

Lemma named_section_contains (c : ConfigParser.config) (section : string) :
  section ≠ "DEFAULT" →
  ConfigParser.contains c section
  = ConfigParser.has_key (ConfigParser.sections c) section.
Proof.
  intros H. unfold ConfigParser.contains.
  by destruct (String.eqb_spec section "DEFAULT").
Qed.

Lemma clean_section_spec (existing : list string) (section : string)
    (st : cleaning) :
  section ≠ "DEFAULT" →
  let st' := clean_section existing st section in
  (ConfigParser.contains (cfg st') section = true →
   all_clean existing (cfg st') section)
  ∧ (∀ sec k, sec ≠ section →
              ConfigParser.get (cfg st') sec k = ConfigParser.get (cfg st) sec k)
  ∧ (∀ sec, ConfigParser.contains (cfg st') sec = ConfigParser.contains (cfg st) sec)
  ∧ (changed st' = false → st' = st).
Proof.
  intros Hname. cbv zeta. unfold clean_section.
  destruct (ConfigParser.contains (cfg st) section) eqn:Hc.
  - destruct (fold_clean_key_spec existing section
                (ConfigParser.keys (cfg st) section) st)
      as (Hval & Hsec & Hhas & Hsame).
    rewrite named_section_contains in Hc by done.
    split_and!; [|done|by apply Hhas|done].
    intros _ k v Hv. destruct (Hval k v Hv) as [?|[Hk Hv0]]; [done|].
    exfalso. apply Hk. by eapply get_in_keys.
  - split_and!; try done. congruence.
Qed.

Lemma clean_section_on_clean (existing : list string) (section : string)
    (st : cleaning) :
  (ConfigParser.contains (cfg st) section = true →
   all_clean existing (cfg st) section) →
  clean_section existing st section = st.
Proof.
  intros H. unfold clean_section.
  destruct (ConfigParser.contains (cfg st) section); [|done].
  by apply fold_clean_key_on_clean, H.
Qed.

(** The cleaner is idempotent on configurations: a second pass over the
    configuration the first pass leaves changes nothing and removes
    nothing. *)
Lemma clean_config_idempotent (existing : list string) (c : ConfigParser.config) :
  clean_config existing (cfg (clean_config existing c))
  = untouched (cfg (clean_config existing c)).
Proof.
  unfold clean_config at 2 3. simpl.
  set (st0 := {| cfg := c; changed := false; removed_dup := 0;
                 removed_missing := 0 |}).
  destruct (clean_section_spec existing "Added Associations" st0)
    as (Ha & _ & Hca & _); [done|].
  set (st1 := clean_section existing st0 "Added Associations") in *.
  destruct (clean_section_spec existing "Default Applications" st1)
    as (Hd & Hda & Hcd & _); [done|].
  set (st2 := clean_section existing st1 "Default Applications") in *.
  unfold clean_config, untouched. simpl.
  rewrite (clean_section_on_clean existing "Added Associations").
  - rewrite clean_section_on_clean; [done|]. simpl. exact Hd.
  - simpl. rewrite Hcd. intros Hc k v. rewrite Hda by done. by apply Ha.
Qed.

(** A pass that reports no change has left the configuration as it was
    and removed nothing. *)
Lemma clean_config_unchanged (existing : list string) (c : ConfigParser.config) :
  changed (clean_config existing c) = false →
  clean_config existing c = untouched c.
Proof.
  unfold clean_config. simpl.
  set (st0 := {| cfg := c; changed := false; removed_dup := 0;
                 removed_missing := 0 |}).
  destruct (clean_section_spec existing "Added Associations" st0)
    as (_ & _ & _ & Hsa); [done|].
  set (st1 := clean_section existing st0 "Added Associations") in *.
  destruct (clean_section_spec existing "Default Applications" st1)
    as (_ & _ & _ & Hsd); [done|].
  intros Hch. specialize (Hsd Hch). rewrite Hsd in Hch |- *.
  by apply Hsa.
Qed.

(** ** The cleaner on files *)

Lemma clean_mimeapps_run (w : World) (p : string) (existing : list string)
    (s : state) :
  clean_mimeapps w p existing s
  = match resolve w s p with
    | None => Done (0, 0) s
    | Some t =>
        match files s !! t with
        | None => Done (0, 0) s
        | Some bytes =>
            match read_error w p with
            | Some msg => Raised msg s
            | None =>
                match ConfigParser.read_file (Utf8.as_read bytes) with
                | inl msg => Raised msg s
                | inr c =>
                    let st := clean_config existing c in
                    if changed st then
                      match write_error w p with
                      | Some msg => Raised msg s
                      | None =>
                          Done (removed_dup st, removed_missing st)
                            {| files :=
                                 <[t := Utf8.encode (ConfigParser.write (cfg st))]>
                                   (files s);
                               links := links s;
                               dirs := dirs s; trace := trace s |}
                      end
                    else Done (removed_dup st, removed_missing st) s
                end
            end
        end
    end.
Proof.
  unfold clean_mimeapps. unfold_M.
  destruct (resolve w s p) as [t|] eqn:Ht; [|done].
  destruct (files s !! t) as [bytes|] eqn:Hf; simpl; [|done].
  destruct (read_error w p); [done|]. rewrite Ht, Hf.
  destruct (ConfigParser.read_file (Utf8.as_read bytes)) as [msg|c]; [done|].
  cbv zeta. destruct (changed (clean_config existing c)); [|done].
  destruct (write_error w p); [done|]. by rewrite Ht.
Qed.

(** C7, as stated, fails. The library strips the blanks around a value
    when it reads a file. With a descriptor named [ b.desktop] (a leading
    blank) the first pass drops the missing identifier in front of it and
    writes a value that starts with that blank; read again, the value has
    lost the blank, names no known descriptor, and the second pass
    removes one more reference and rewrites the file. *)
Lemma second_pass_rewrites_after_blank :
  ¬ (∀ (w : World) (p : string) (existing : list string) (s s1 : state)
       (r : nat * nat),
       clean_mimeapps w p existing s = Done r s1 →
       clean_mimeapps w p existing s1 = Done (0, 0) s1).
Proof.
  intros H.
  pose (p := mimeapps_path example_world).
  destruct (clean_mimeapps example_world p spaced_ids
              (state_with p spaced_mimeapps)) as [r s1|msg s1] eqn:E1;
    [|vm_compute in E1; discriminate].
  specialize (H example_world p spaced_ids _ s1 r E1).
  vm_compute in E1. injection E1 as <- <-.
  vm_compute in H. discriminate.
Qed.

(** C7, amended. [clean_mimeapps] is idempotent whenever the file it
    rewrites reads back as the configuration it wrote: then a second run
    right after the first returns the counts (0, 0) and leaves the state,
    and with it the file, exactly as the first run left it. A first run
    that rewrites nothing needs no such condition. *)
Theorem clean_mimeapps_idempotent_when_read_back (w : World) (p : string)
    (existing : list string) (s s1 : state) (r : nat * nat) :
  clean_mimeapps w p existing s = Done r s1 →
  (∀ content c,
     text_at w s p = Some content →
     ConfigParser.read_file content = inr c →
     changed (clean_config existing c) = true →
     ConfigParser.read_file
       (Utf8.as_read
          (Utf8.encode (ConfigParser.write (cfg (clean_config existing c)))))
     = inr (cfg (clean_config existing c))) →
  clean_mimeapps w p existing s1 = Done (0, 0) s1.
Proof.
  rewrite (clean_mimeapps_run w p existing s). unfold text_at.
  destruct (resolve w s p) as [t|] eqn:Ht.
  2: { intros [= <- <-] _. by rewrite clean_mimeapps_run, Ht. }
  destruct (files s !! t) as [bytes|] eqn:Hf.
  2: { intros [= <- <-] _. by rewrite clean_mimeapps_run, Ht, Hf. }
  destruct (read_error w p) eqn:Hr; [done|].
  destruct (ConfigParser.read_file (Utf8.as_read bytes)) as [msg|c] eqn:Hc;
    [done|].
  cbv zeta. destruct (changed (clean_config existing c)) eqn:Hch.
  - destruct (write_error w p) eqn:Hw; [done|].
    intros [= <- <-] Hback. specialize (Hback _ c eq_refl Hc Hch).
    rewrite clean_mimeapps_run. unfold resolve in *. cbn [files links].
    rewrite resolve_go_insert by (left; eauto).
    rewrite Ht, lookup_insert_eq, Hr, Hback. cbv zeta.
    by rewrite clean_config_idempotent.
  - intros [= <- <-] _.
    rewrite clean_mimeapps_run, Ht, Hf, Hr, Hc. cbv zeta.
    by rewrite (clean_config_unchanged existing c Hch).
Qed.

Lemma clean_mimeapps_idempotent_when_read_back_witness :
  ∃ s1, clean_mimeapps example_world (mimeapps_path example_world) ["a.desktop"]
          (state_with (mimeapps_path example_world) example_mimeapps)
        = Done (1, 1) s1
        ∧ clean_mimeapps example_world (mimeapps_path example_world)
            ["a.desktop"] s1 = Done (0, 0) s1.
Proof.
  eexists. split; [vm_compute; reflexivity|].
  eapply (clean_mimeapps_idempotent_when_read_back example_world
            (mimeapps_path example_world) ["a.desktop"]
            (state_with (mimeapps_path example_world) example_mimeapps)).
  - vm_compute. reflexivity.
  - intros content c Hf Hc _.
    vm_compute in Hf. injection Hf as <-.
    vm_compute in Hc. injection Hc as <-.
    vm_compute. reflexivity.
Defined.

Lemma clean_example_value (existing : list string) :
  "a.desktop" ∈ existing → "missing.desktop" ∉ existing →
  clean_value existing "a.desktop;missing.desktop;a.desktop;"
  = ("a.desktop;", 1, 1).
Proof.
  intros Ha Hm. unfold clean_value.
  change (split_ids "a.desktop;missing.desktop;a.desktop;")
    with ["a.desktop"; "missing.desktop"; "a.desktop"].
  simpl. rewrite (bool_decide_true _ Ha), (bool_decide_false _ Hm). simpl.
  reflexivity.
Qed.

Lemma clean_single_value (existing : list string) :
  "a.desktop" ∈ existing →
  clean_value existing "a.desktop;" = ("a.desktop;", 0, 0).
Proof.
  intros Ha. unfold clean_value.
  change (split_ids "a.desktop;") with ["a.desktop"].
  simpl. rewrite (bool_decide_true _ Ha). reflexivity.
Qed.

(** C6. Where [a.desktop] is among the discovered descriptor file names
    and [missing.desktop] is not, the cleaner turns the value
    [a.desktop;missing.desktop;a.desktop;] into [a.desktop;] and counts
    one duplicate and one missing reference for it: so for the value
    alone, so for the turn of the loop at any key that holds it, and so
    for [clean_mimeapps] on a file that holds it, which returns (1, 1)
    and rewrites the file, touching no other file. *)
Theorem clean_mimeapps_round_trip (w : World) (p : string)
    (existing : list string) (s : state) :
  "a.desktop" ∈ existing → "missing.desktop" ∉ existing →
  clean_value existing "a.desktop;missing.desktop;a.desktop;"
  = ("a.desktop;", 1, 1)
  ∧ (∀ section key st,
       ConfigParser.get (cfg st) section key
       = Some "a.desktop;missing.desktop;a.desktop;" →
       let st' := clean_key existing section st key in
       ConfigParser.get (cfg st') section key = Some "a.desktop;"
       ∧ changed st' = true
       ∧ removed_dup st' = removed_dup st + 1
       ∧ removed_missing st' = removed_missing st + 1)
  ∧ (read_error w p = None → write_error w p = None →
     files s !! p = Some example_mimeapps →
     ∃ s', clean_mimeapps w p existing s = Done (1, 1) s'
           ∧ files s' !! p = Some example_mimeapps_cleaned
           ∧ ∀ q, q ≠ p → files s' !! q = files s !! q).
Proof.
  intros Ha Hm. split_and!.
  - by apply clean_example_value.
  - intros section key st Hget. cbv zeta.
    rewrite clean_key_unfold. cbv zeta. rewrite Hget. simpl.
    rewrite clean_example_value by done. simpl.
    rewrite get_set_eq. done.
  - intros Hr Hw Hf.
    rewrite clean_mimeapps_run, (resolve_file w s p _ Hf), Hf, Hr.
    change (ConfigParser.read_file (Utf8.as_read example_mimeapps))
      with (inr (A := string) example_mimeapps_cfg).
    cbv beta iota zeta.
    assert (clean_config existing example_mimeapps_cfg
            = {| cfg := {| ConfigParser.defaults := [];
                           ConfigParser.sections :=
                             [("Default Applications", [("image/png", "a.desktop;")]);
                              ("Added Associations", [("text/plain", "a.desktop;")])] |};
                 changed := true; removed_dup := 1; removed_missing := 1 |}) as ->.
    { unfold clean_config, example_mimeapps_cfg. simpl.
      unfold clean_section at 2. simpl.
      rewrite clean_key_unfold. cbv zeta.
      change (ConfigParser.get _ "Added Associations" "text/plain")
        with (Some "a.desktop;missing.desktop;a.desktop;").
      simpl. rewrite clean_example_value by done. simpl.
      unfold clean_section, ConfigParser.set. simpl.
      rewrite clean_key_unfold. cbv zeta.
      change (ConfigParser.get _ "Default Applications" "image/png")
        with (Some "a.desktop;").
      simpl. rewrite clean_single_value by done. reflexivity. }
    simpl. rewrite Hw.
    eexists. split; [done|]. simpl. split.
    + rewrite lookup_insert_eq. reflexivity.
    + intros q Hq. by rewrite lookup_insert_ne.
Qed.

Lemma clean_mimeapps_round_trip_witness :
  clean_value ["a.desktop"] "a.desktop;missing.desktop;a.desktop;"
  = ("a.desktop;", 1, 1)
  ∧ ∃ s', clean_mimeapps example_world (mimeapps_path example_world)
            ["a.desktop"]
            (state_with (mimeapps_path example_world) example_mimeapps)
          = Done (1, 1) s'
          ∧ files s' !! mimeapps_path example_world
            = Some example_mimeapps_cleaned.
Proof.
  assert ("a.desktop" ∈ ["a.desktop"]) as Ha by apply list_elem_of_here.
  assert ("missing.desktop" ∉ ["a.desktop"]) as Hm.
  { intros H. apply list_elem_of_singleton in H. discriminate. }
  destruct (clean_mimeapps_round_trip example_world
              (mimeapps_path example_world) ["a.desktop"]
              (state_with (mimeapps_path example_world) example_mimeapps)
              Ha Hm) as (Hv & _ & Hfile).
  split; [exact Hv|].
  destruct (Hfile eq_refl eq_refl) as (s' & Hrun & Hp & _).
  - vm_compute. reflexivity.
  - by exists s'.
Defined.

(** * Further properties of the code *)

(** ** Reversal and stripping *)

Lemma rev_append (s t : string) :
  String.rev (s +:+ t) = String.rev t +:+ String.rev s.
Proof.
  induction s as [|c s IH].
  - by rewrite append_nil_l, append_nil_r.
  - by rewrite append_cons, !rev_cons, IH, append_assoc.
Qed.

Lemma rev_involutive (s : string) : String.rev (String.rev s) = s.
Proof.
  induction s as [|c s IH]; [done|].
  by rewrite rev_cons, rev_append, IH.
Qed.

Lemma rev_empty (s : string) : String.rev s = "" → s = "".
Proof. intros H. apply (f_equal String.rev) in H. by rewrite rev_involutive in H. Qed.

Lemma lstrip_append (a b : string) :
  Py.lstrip (a +:+ b)
  = match Py.lstrip a with
    | EmptyString => Py.lstrip b
    | String c r => String c r +:+ b
    end.
Proof.
  induction a as [|c a IH]; [done|].
  rewrite append_cons. simpl. destruct (Py.isspace c); [done|].
  by rewrite append_cons.
Qed.

(** [rstrip], read from the front of the string. *)
Lemma rstrip_cons (c : ascii) (s : string) :
  Py.rstrip (String c s)
  = match Py.rstrip s with
    | EmptyString => if Py.isspace c then "" else String c ""
    | String d r => String c (String d r)
    end.
Proof.
  unfold Py.rstrip. rewrite rev_cons, lstrip_append.
  destruct (Py.lstrip (String.rev s)) as [|d r] eqn:E.
  - simpl. by destruct (Py.isspace c).
  - rewrite rev_append.
    destruct (String.rev (String d r)) as [|d' r'] eqn:E'; [|done].
    apply rev_empty in E'. done.
Qed.

Lemma rstrip_append_kept (x y : string) :
  Py.rstrip y ≠ "" → Py.rstrip (x +:+ y) = x +:+ Py.rstrip y.
Proof.
  intros Hy. induction x as [|c x IH]; [done|].
  rewrite !append_cons, rstrip_cons, IH.
  destruct (x +:+ Py.rstrip y) as [|d r] eqn:E; [|done].
  destruct x; [|done]. by rewrite append_nil_l in E.
Qed.

Lemma rstrip_after_word (x y : string) :
  all_chars (λ c, negb (Py.isspace c)) x = true →
  Py.rstrip (x +:+ y) = x +:+ Py.rstrip y.
Proof.
  induction x as [|c x IH]; [done|]. simpl.
  intros [Hc Hx]%andb_true_iff.
  rewrite !append_cons, rstrip_cons, IH by done.
  destruct (x +:+ Py.rstrip y) as [|d r]; [|done].
  by destruct (Py.isspace c).
Qed.

Lemma rstrip_blank_led (y : string) :
  blank_led y = true → blank_led (Py.rstrip y) = true.
Proof.
  destruct y as [|c y]; [done|]. simpl. intros Hc.
  rewrite rstrip_cons. destruct (Py.rstrip y); [by rewrite Hc|done].
Qed.

Lemma lstrip_idempotent (s : string) : Py.lstrip (Py.lstrip s) = Py.lstrip s.
Proof.
  induction s as [|c s IH]; [done|]. simpl.
  destruct (Py.isspace c) eqn:Hc; [done|]. simpl. by rewrite Hc.
Qed.

Lemma rstrip_idempotent (s : string) : Py.rstrip (Py.rstrip s) = Py.rstrip s.
Proof.
  unfold Py.rstrip. by rewrite rev_involutive, lstrip_idempotent.
Qed.

(** [rstrip] keeps a first character that is no blank. *)
Lemma lstrip_rstrip (s : string) :
  Py.lstrip (Py.rstrip (Py.lstrip s)) = Py.rstrip (Py.lstrip s).
Proof.
  assert (∀ t, Py.lstrip t = t → Py.lstrip (Py.rstrip t) = Py.rstrip t) as H.
  { intros [|c t] Ht; [done|].
    simpl in Ht. destruct (Py.isspace c) eqn:Hc.
    - exfalso. assert (String.length (Py.lstrip t) ≤ String.length t) as Hlen.
      { clear. induction t as [|d t IH]; simpl; [done|].
        destruct (Py.isspace d); simpl; lia. }
      rewrite Ht in Hlen. simpl in Hlen. lia.
    - rewrite rstrip_cons.
      destruct (Py.rstrip t); rewrite ?Hc; simpl; by rewrite Hc. }
  apply H, lstrip_idempotent.
Qed.

Lemma strip_idempotent (s : string) : Py.strip (Py.strip s) = Py.strip s.
Proof.
  unfold Py.strip. by rewrite lstrip_rstrip, rstrip_idempotent.
Qed.

(** ** The first token of an Exec line *)

Lemma blank_is_no_quote (c : ascii) : Py.isspace c = true → is_quote c = false.
Proof. destruct c as [[] [] [] [] [] [] [] []]; done. Qed.

Lemma quote_is_no_blank (q : ascii) : is_quote q = true → Py.isspace q = false.
Proof. destruct q as [[] [] [] [] [] [] [] []]; done. Qed.

Lemma quote_cases (q : ascii) : is_quote q = true → q = dquote ∨ q = squote.
Proof.
  unfold is_quote. intros [H|H]%orb_true_iff; apply Ascii.eqb_eq in H; auto.
Qed.

Lemma findall_plain_run (word cur u : string) :
  all_chars plain_char word = true →
  findall_go InMatch cur (word +:+ u)
  = findall_go InMatch (String.rev word +:+ cur) u.
Proof.
  revert cur. induction word as [|c w IH]; intros cur Hw; [done|].
  simpl in Hw. apply andb_true_iff in Hw as [Hc Hw].
  apply andb_true_iff in Hc as [Hs%negb_true_iff Hq%negb_true_iff].
  rewrite append_cons. simpl. rewrite Hq, Hs, IH by done.
  by rewrite rev_cons, append_assoc.
Qed.

Lemma findall_quoted_span (q : ascii) (body cur u : string) :
  has_char q body = false →
  findall_go (InQuote q) cur (body +:+ String q u)
  = findall_go InMatch (String q (String.rev body +:+ cur)) u.
Proof.
  revert cur. induction body as [|c b IH]; intros cur Hb.
  - rewrite append_nil_l. simpl. by rewrite Ascii.eqb_refl.
  - simpl in Hb. apply orb_false_iff in Hb as [Hc Hb].
    rewrite append_cons. simpl. rewrite Hc, IH by done.
    by rewrite rev_cons, append_assoc.
Qed.

Lemma findall_token_ends (cur u : string) :
  blank_led u = true →
  ∃ rest, findall_go InMatch cur u = String.rev cur :: rest.
Proof.
  destruct u as [|c u]; simpl; [by eexists|].
  intros Hc. rewrite (blank_is_no_quote c Hc), Hc. simpl. by eexists.
Qed.

Lemma has_char_append (q : ascii) (a b : string) :
  has_char q (a +:+ String q b) = true.
Proof.
  induction a as [|c a IH].
  - rewrite append_nil_l. simpl. by rewrite Ascii.eqb_refl.
  - rewrite append_cons. simpl. by rewrite IH, orb_true_r.
Qed.

Lemma lstrip_all_blank (s : string) :
  all_chars Py.isspace s = true → Py.lstrip s = "".
Proof.
  induction s as [|c s IH]; [done|]. simpl.
  intros [-> Hs]%andb_true_iff. by apply IH.
Qed.

Lemma prefix_empty (s : string) : String.prefix "" s = true.
Proof. by destruct s. Qed.

Lemma prefix_other_head (a c : ascii) (s w : string) :
  a ≠ c → String.prefix (String a s) (String c w) = false.
Proof. intros H. simpl. by destruct (ascii_dec a c). Qed.

(** X1. The resolved command is the first token of the Exec line: a line
    of blanks resolves to nothing; a line that starts with a plain word
    (no blank, no quote) followed by nothing or by a blank resolves to
    that word, whatever comes after; a line that starts with a quoted
    span followed by nothing or by a blank resolves to the text between
    the quotes, blanks included. *)
Theorem first_command_is_first_token :
  (∀ s, all_chars Py.isspace s = true → extract_first_command s = "")
  ∧ (∀ c w u,
       all_chars plain_char (String c w) = true → blank_led u = true →
       extract_first_command (String c w +:+ u) = String c w)
  ∧ (∀ q body u,
       is_quote q = true → has_char q body = false → blank_led u = true →
       extract_first_command (String q body +:+ String q u) = body).
Proof.
  split_and!.
  - intros s Hs. unfold extract_first_command, Py.strip.
    destruct (Py.truthy s); [|done]. simpl.
    by rewrite lstrip_all_blank.
  - intros c w u Hw Hu. unfold extract_first_command, Py.strip.
    rewrite append_cons. simpl.
    simpl in Hw. apply andb_true_iff in Hw as [Hc Hw].
    pose proof Hc as Hc'. unfold plain_char in Hc'.
    apply andb_true_iff in Hc' as [Hs%negb_true_iff Hq%negb_true_iff].
    rewrite Hs.
    assert (all_chars (λ c, negb (Py.isspace c)) (String c w) = true) as Hns.
    { simpl. rewrite Hs. simpl. clear -Hw.
      induction w as [|d w IH]; [done|]. simpl in *.
      apply andb_true_iff in Hw as [Hd Hw]. rewrite IH by done.
      unfold plain_char in Hd. apply andb_true_iff in Hd as [-> _]. done. }
    rewrite <- append_cons, (rstrip_after_word _ _ Hns), append_cons.
    unfold findall_tokens. simpl. rewrite Hq, Hs.
    rewrite findall_plain_run by done.
    destruct (findall_token_ends (String.rev w +:+ String c "") (Py.rstrip u)
                (rstrip_blank_led u Hu)) as [rest ->].
    rewrite rev_append, rev_involutive.
    change (String.rev (String c "") +:+ w) with (String c w).
    unfold Py.startswith, dquote_s, squote_s.
    rewrite !prefix_other_head; [done|..].
    + intros <-. done.
    + intros <-. done.
  - intros q body u Hq Hb Hu. unfold extract_first_command, Py.strip.
    rewrite append_cons. simpl.
    rewrite (quote_is_no_blank q Hq).
    assert (Py.rstrip (String q u) = String q (Py.rstrip u)) as Hr.
    { rewrite rstrip_cons, (quote_is_no_blank q Hq).
      by destruct (Py.rstrip u). }
    rewrite <- append_cons, rstrip_append_kept by (by rewrite Hr).
    rewrite Hr, append_cons.
    unfold findall_tokens. simpl. rewrite Hq, has_char_append.
    rewrite findall_quoted_span by done.
    destruct (findall_token_ends (String q (String.rev body +:+ String q ""))
                (Py.rstrip u) (rstrip_blank_led u Hu)) as [rest ->].
    rewrite rev_cons, rev_append, rev_involutive.
    change (String.rev (String q "")) with (String q "").
    change ((String q "" +:+ body) +:+ String q "")
      with (String q (body +:+ String q "")).
    assert (Py.strip_ends (String q (body +:+ String q "")) = body) as ->.
    { unfold Py.strip_ends. rewrite rev_append.
      change (String.rev (String q "") +:+ String.rev body)
        with (String q (String.rev body)).
      apply rev_involutive. }
    assert (Py.endswith (String q (body +:+ String q "")) (String q "") = true)
      as He.
    { unfold Py.endswith. rewrite <- append_cons, rev_append.
      apply prefix_append. }
    unfold Py.startswith, dquote_s, squote_s.
    destruct (quote_cases q Hq) as [-> | ->].
    + rewrite He. simpl. by rewrite prefix_empty.
    + rewrite He. simpl. by rewrite prefix_empty.
Qed.

(** ** Loaded entries *)

Lemma append_not_empty (c : ascii) (s t : string) : String c s +:+ t ≠ "".
Proof. by rewrite append_cons. Qed.

Lemma looks_broken_reason (w : World) (exec_line tryexec : string) :
  (looks_broken w exec_line tryexec).1 = true
  ↔ (looks_broken w exec_line tryexec).2 ≠ "".
Proof.
  unfold looks_broken.
  repeat (match goal with |- context [if ?b then _ else _] => destruct b end);
    simpl; split; try done; intros _; apply append_not_empty.
Qed.

Lemma detect_provider_values (w : World) (p exec_line : string) :
  detect_provider w p exec_line ∈ ["native"; "flatpak"; "snap"; "other"].
Proof.
  unfold detect_provider.
  repeat (match goal with |- context [if ?b then _ else _] => destruct b end);
    repeat (first [apply list_elem_of_here | apply list_elem_of_further]).
Qed.

Lemma read_desktop_invariants (w : World) (p : string) (e : Entry) :
  read_desktop w p = Some e → mimetypes e ≠ [] →
  Forall (λ m, m ≠ "") (mimetypes e)
  ∧ Py.lower (entry_type e) = "application"
  ∧ scope e ∈ ["user"; "system"]
  ∧ provider e = detect_provider w p (exec_line e)
  ∧ first_cmd e = extract_first_command (exec_line e)
  ∧ (broken e, reason e) = looks_broken w (exec_line e) (tryexec e)
  ∧ (broken e = true ↔ reason e ≠ "")
  ∧ Py.strip (name e) = name e
  ∧ Py.strip (exec_line e) = exec_line e
  ∧ Py.strip (tryexec e) = tryexec e.
Proof.
  unfold read_desktop, read_desktop_body.
  destruct (read_ini w p) as [msg|[s|]].
  { intros [= <-]. done. }
  2: done.
  destruct (negb (String.eqb (Py.lower (default "Application" (sget s "Type")))
                    "application")) eqn:Htype; [done|].
  apply negb_false_iff, String.eqb_eq in Htype.
  destruct (getboolean s "Hidden" false) as [msg|hid].
  { intros [= <-]. done. }
  destruct (getboolean s "NoDisplay" false) as [msg|nod].
  { intros [= <-]. done. }
  destruct (filter _ _) as [|m ms] eqn:Hfilter; [done|].
  pose proof (looks_broken_reason w
                (Py.strip (default "" (sget s "Exec")))
                (Py.strip (default "" (sget s "TryExec")))) as Hreason.
  destruct (looks_broken w _ _) as [b r] eqn:Hlb.
  intros [= <-] _. simpl in *.
  split_and!; try done.
  - rewrite <- Hfilter. apply Forall_forall.
    intros x [Hx _]%list_elem_of_filter. by destruct x.
  - unfold scope_of. destruct (Py.startswith _ _).
    + apply list_elem_of_here.
    + apply list_elem_of_further, list_elem_of_here.
  - apply strip_idempotent.
  - apply strip_idempotent.
  - apply strip_idempotent.
Qed.

(** X2. Every loaded entry is the entry [read_desktop] built for a
    discovered file and keeps the invariants of the data model: at least
    one mime type and no empty one, the Application type in any letter
    case, a scope of user or system decided by the home directory, one of
    the four providers, the resolved command of its Exec line, the
    verdict of the health check with a reason that is non-empty exactly
    when the entry is broken, and name, Exec and TryExec fields without
    blanks around them. *)
Theorem loaded_entry_invariants (w : World) (e : Entry) :
  e ∈ load_entries w →
  path e ∈ find_desktop_files w
  ∧ read_desktop w (path e) = Some e
  ∧ mimetypes e ≠ [] ∧ Forall (λ m, m ≠ "") (mimetypes e)
  ∧ Py.lower (entry_type e) = "application"
  ∧ scope e = scope_of w (path e) ∧ scope e ∈ ["user"; "system"]
  ∧ provider e = detect_provider w (path e) (exec_line e)
  ∧ provider e ∈ ["native"; "flatpak"; "snap"; "other"]
  ∧ first_cmd e = extract_first_command (exec_line e)
  ∧ (broken e, reason e) = looks_broken w (exec_line e) (tryexec e)
  ∧ (broken e = true ↔ reason e ≠ "")
  ∧ Py.strip (name e) = name e
  ∧ Py.strip (exec_line e) = exec_line e
  ∧ Py.strip (tryexec e) = tryexec e.
Proof.
  intros [Hfile Hkeep]%load_entries_from_path.
  assert (read_desktop w (path e) = Some e ∧ mimetypes e ≠ []) as [Hread Hmime].
  { unfold keep_entry in Hkeep.
    destruct (read_desktop w (path e)) as [e2|]; [|done].
    destruct (mimetypes e2) eqn:Hm; [done|]. injection Hkeep as ->.
    by rewrite Hm. }
  destruct (read_desktop_invariants w (path e) e Hread Hmime)
    as (? & ? & ? & Hprov & ? & ? & ? & ? & ? & ?).
  split_and!; try done.
  - by eapply read_desktop_scope.
  - rewrite Hprov. apply detect_provider_values.
Qed.

Lemma loaded_entry_invariants_witness :
  looks_broken example_world (exec_line example_viewer) (tryexec example_viewer)
  = (true, reason example_viewer)
  ∧ reason example_viewer ≠ "".
Proof.
  assert (example_viewer ∈ load_entries example_world) as Hin.
  { vm_compute. do 2 apply list_elem_of_further. apply list_elem_of_here. }
  destruct (loaded_entry_invariants example_world example_viewer Hin)
    as (_ & _ & _ & _ & _ & _ & _ & _ & _ & _ & Hlb & Hreason & _).
  split; [by rewrite <- Hlb|]. by apply Hreason.
Defined.

(** ** Provider detection *)

Lemma prefix_append_r (s a b : string) :
  String.prefix s a = true → String.prefix s (a +:+ b) = true.
Proof.
  revert s. induction a as [|c a IH]; intros s.
  - destruct s; [intros _; apply prefix_empty|done].
  - rewrite append_cons. destruct s as [|d s]; [done|]. simpl.
    destruct (ascii_dec d c); [apply IH|done].
Qed.

Lemma contains_append_l (a b sub : string) :
  Py.contains a sub = true → Py.contains (a +:+ b) sub = true.
Proof.
  induction a as [|c a IH].
  - simpl. rewrite orb_false_r. intros H. rewrite append_nil_l.
    destruct sub; [|done]. destruct b; simpl; by rewrite ?prefix_empty.
  - rewrite append_cons. simpl.
    intros [H|H]%orb_true_iff; apply orb_true_iff.
    + left. by apply (prefix_append_r sub (String c a) b).
    + right. by apply IH.
Qed.

Lemma contains_append_r (a b sub : string) :
  Py.contains b sub = true → Py.contains (a +:+ b) sub = true.
Proof.
  intros H. induction a as [|c a IH]; [done|].
  rewrite append_cons. simpl. by rewrite IH, orb_true_r.
Qed.

Lemma prefix_contains_suffix (s a b : string) :
  String.prefix (a +:+ b) s = true → Py.contains s b = true.
Proof.
  revert s. induction a as [|c a IH]; intros s.
  - rewrite append_nil_l. intros H. destruct s; simpl in *; by rewrite H.
  - rewrite append_cons. destruct s as [|d s]; [done|]. simpl.
    destruct (ascii_dec c d); [|done]. intros H%IH. by rewrite H, orb_true_r.
Qed.

Lemma contains_cons (c : ascii) (s sub : string) :
  Py.contains (String c s) sub
  = String.prefix sub (String c s) || Py.contains s sub.
Proof. reflexivity. Qed.

Lemma contains_suffix (s a b : string) :
  Py.contains s (a +:+ b) = true → Py.contains s b = true.
Proof.
  induction s as [|c s IH].
  - intros H. apply (prefix_contains_suffix "" a b).
    unfold Py.contains in H. by rewrite orb_false_r in H.
  - rewrite !contains_cons. intros [H|H]%orb_true_iff.
    + apply prefix_contains_suffix in H. by rewrite contains_cons in H.
    + by rewrite (IH H), orb_true_r.
Qed.

Lemma lower_char_idempotent (c : ascii) :
  Py.lower_char (Py.lower_char c) = Py.lower_char c.
Proof. destruct c as [[] [] [] [] [] [] [] []]; reflexivity. Qed.

Lemma lower_idempotent (s : string) : Py.lower (Py.lower s) = Py.lower s.
Proof.
  induction s as [|c s IH]; [done|]. simpl.
  by rewrite lower_char_idempotent, IH.
Qed.

(** X3. Provider detection looks for the packaging keywords first and at
    the executable last: a path or Exec line that mentions flatpak in any
    letter case makes the entry a flatpak one whether or not its command
    resolves, and so for snap when flatpak is not mentioned; only then is
    the entry native when its command resolves and other when it does
    not. The letter case of the path never matters. *)
Theorem provider_keywords_come_first (w : World) (p exec_line : string) :
  (Py.contains (Py.lower p) "flatpak" = true
   ∨ Py.contains (Py.lower exec_line) "flatpak" = true →
   detect_provider w p exec_line = "flatpak")
  ∧ (Py.contains (Py.lower p +:+ " " +:+ Py.lower exec_line) "flatpak" = false →
     Py.contains (Py.lower p) "snap" = true
     ∨ Py.contains (Py.lower exec_line) "snap" = true →
     detect_provider w p exec_line = "snap")
  ∧ (detect_provider w p exec_line = "native" →
     which_exists w (extract_first_command exec_line) = true)
  ∧ (detect_provider w p exec_line = "other" →
     which_exists w (extract_first_command exec_line) = false)
  ∧ detect_provider w (Py.lower p) exec_line = detect_provider w p exec_line.
Proof.
  unfold detect_provider. split_and!.
  - intros H.
    assert (Py.contains (Py.lower p +:+ " " +:+ Py.lower exec_line) "flatpak"
            = true) as ->; [|done].
    destruct H as [H|H].
    + by apply contains_append_l.
    + by apply contains_append_r, contains_append_r.
  - intros Hf H. rewrite Hf.
    destruct (Py.contains _ "/var/lib/flatpak") eqn:Hvar.
    + apply (contains_suffix _ "/var/lib/") in Hvar. congruence.
    + simpl.
      assert (Py.contains (Py.lower p +:+ " " +:+ Py.lower exec_line) "snap"
              = true) as ->; [|done].
      destruct H as [H|H].
      * by apply contains_append_l.
      * by apply contains_append_r, contains_append_r.
  - repeat (match goal with |- context [if ?b then _ else _] => destruct b eqn:? end);
      done.
  - repeat (match goal with |- context [if ?b then _ else _] => destruct b eqn:? end);
      done.
  - by rewrite lower_idempotent.
Qed.

(** ** Grouping by name and by name and command *)

Section grouping.
Context {K : Type} `{EqDecision K} (key : Entry → K).

Lemma dict_append_keys (d : list (K * list Entry)) (k : K) (e : Entry) :
  (dict_append d k e).*1 = if decide (k ∈ d.*1) then d.*1 else d.*1 ++ [k].
Proof.
  induction d as [|[k' g] d IH]; csimpl.
  - done.
  - destruct (decide (k' = k)) as [->|Hne]; csimpl.
    + rewrite decide_True; [done|apply list_elem_of_here].
    + rewrite IH. destruct (decide (k ∈ d.*1)).
      * rewrite decide_True; [done|by apply list_elem_of_further].
      * rewrite decide_False; [done|].
        intros [?|?]%elem_of_cons; [congruence|done].
Qed.

Lemma dict_append_lookup (d : list (K * list Entry)) (k k' : K)
    (e : Entry) (g : list Entry) :
  (k', g) ∈ dict_append d k e →
  (k' ≠ k ∧ (k', g) ∈ d)
  ∨ (k' = k ∧ ((∃ g0, (k, g0) ∈ d ∧ g = g0 ++ [e]) ∨ ((k ∉ d.*1) ∧ g = [e]))
     ∨ (k' = k ∧ (k, g) ∈ d ∧ ¬ NoDup d.*1)).
Proof.
  induction d as [|[k0 g0] d IH]; simpl.
  - intros [= -> ->]%list_elem_of_singleton. right. left. split; [done|].
    right. split; [apply not_elem_of_nil|done].
  - destruct (decide (k0 = k)) as [->|Hne].
    + intros [[= -> ->]|Hin]%elem_of_cons.
      * right. left. split; [done|]. left. exists g0.
        split; [apply list_elem_of_here|done].
      * destruct (decide (k' = k)) as [->|Hk].
        -- right. right. split_and!; [done|by apply list_elem_of_further|].
           intros [Hout _]%NoDup_cons. apply Hout.
           apply list_elem_of_fmap. by exists (k, g).
        -- left. split; [done|by apply list_elem_of_further].
    + intros [[= -> ->]|Hin]%elem_of_cons.
      * left. split; [done|apply list_elem_of_here].
      * destruct (IH Hin) as [[? ?]|[[-> [(g1 & ? & ->)|[Hout ->]]]|(-> & ? & Hnd)]].
        -- left. split; [done|by apply list_elem_of_further].
        -- right. left. split; [done|]. left. exists g1.
           split; [by apply list_elem_of_further|done].
        -- right. left. split; [done|]. right. split; [|done].
           intros [?|?]%elem_of_cons; [congruence|done].
        -- right. right. split_and!; [done|by apply list_elem_of_further|].
           intros [_ ?]%NoDup_cons. by apply Hnd.
Qed.

Lemma grouped_step (d : list (K * list Entry)) (seen : list Entry) (e : Entry) :
  grouped key d seen → grouped key (dict_append d (key e) e) (seen ++ [e]).
Proof.
  intros (Hnd & Hcls & Hkeys). split_and!.
  - rewrite dict_append_keys. destruct (decide (key e ∈ d.*1)); [done|].
    apply NoDup_app. split_and!; [done| |apply NoDup_singleton].
    intros k Hk ->%list_elem_of_singleton. done.
  - intros k g Hin. rewrite filter_app.
    destruct (dict_append_lookup _ _ _ _ _ Hin)
      as [[Hne Hd]|[[-> [(g0 & Hd & ->)|[Hout ->]]]|(_ & _ & Habs)]].
    + destruct (Hcls _ _ Hd) as [Hg ->]. split; [done|].
      rewrite filter_cons_False, filter_nil, app_nil_r; [done|congruence].
    + destruct (Hcls _ _ Hd) as [Hg ->]. split; [by intros [_ [=]]%app_eq_nil|].
      by rewrite filter_cons_True, filter_nil.
    + split; [done|].
      rewrite filter_cons_True, filter_nil by done.
      assert (filter (λ e0, key e0 = key e) seen = []) as ->; [|done].
      destruct (filter _ seen) as [|x l] eqn:Hf; [done|].
      assert (x ∈ filter (λ e0, key e0 = key e) seen) as [Hkx Hx]%list_elem_of_filter
        by (rewrite Hf; apply list_elem_of_here).
      destruct Hout. rewrite <- Hkx. by apply Hkeys.
    + done.
  - intros x Hx. rewrite dict_append_keys.
    apply elem_of_app in Hx as [Hx| ->%list_elem_of_singleton].
    + destruct (decide (key e ∈ d.*1)); [by apply Hkeys|].
      apply elem_of_app. left. by apply Hkeys.
    + destruct (decide (key e ∈ d.*1)); [done|].
      apply elem_of_app. right. apply list_elem_of_here.
Qed.

Lemma grouped_fold (entries seen : list Entry) (d : list (K * list Entry)) :
  grouped key d seen →
  grouped key (fold_left (λ d e, dict_append d (key e) e) entries d)
    (seen ++ entries).
Proof.
  revert seen d. induction entries as [|e entries IH]; intros seen d Hd; simpl.
  - by rewrite app_nil_r.
  - change (e :: entries) with ([e] ++ entries). rewrite app_assoc.
    apply IH. by apply grouped_step.
Qed.

Lemma grouped_all (entries : list Entry) :
  grouped key (fold_left (λ d e, dict_append d (key e) e) entries []) entries.
Proof.
  apply (grouped_fold entries [] []). split_and!.
  - apply NoDup_nil_2.
  - by intros k g ?%elem_of_nil.
  - by intros e ?%elem_of_nil.
Qed.

Lemma dup_group_shape (g : list Entry) :
  is_dup_group g = true
  ↔ 1 < length g ∧ ∃ e, head g = Some e ∧ name e ≠ "".
Proof.
  destruct g as [|e [|e2 g]]; simpl.
  - split; [done|intros [? _]; lia].
  - split; [done|intros [? _]; lia].
  - rewrite truthy_true. split.
    + intros Hn. split; [lia|by exists e].
    + by intros [_ (e0 & [= <-] & Hn)].
Qed.

Lemma groups_are_classes (entries g : list Entry) :
  g ∈ filter (λ g, is_dup_group g = true)
        (fold_left (λ d e, dict_append d (key e) e) entries []).*2
  ↔ ∃ x, x ∈ entries ∧ g = filter (λ e, key e = key x) entries
         ∧ 1 < length g ∧ ∃ e, head g = Some e ∧ name e ≠ "".
Proof.
  destruct (grouped_all entries) as (Hnd & Hcls & Hkeys).
  rewrite list_elem_of_filter, dup_group_shape. split.
  - intros [Hshape ([k g'] & Heq & Hin)%list_elem_of_fmap].
    simpl in Heq. subst g'.
    destruct (Hcls _ _ Hin) as [Hne Hg].
    destruct g as [|x g']; [done|]. exists x.
    assert (x ∈ filter (λ e, key e = k) entries) as [Hk Hx]%list_elem_of_filter
      by (rewrite <- Hg; apply list_elem_of_here).
    split_and!; [done|by rewrite Hk|apply Hshape|apply Hshape].
  - intros (x & Hx & -> & Hshape). split; [done|].
    apply Hkeys, list_elem_of_fmap in Hx as ([k g'] & Hk & Hin).
    simpl in Hk. subst k. destruct (Hcls _ _ Hin) as [_ Hg].
    rewrite <- Hg. apply list_elem_of_fmap. by exists (key x, g').
Qed.

End grouping.

(** X4. The grouping loop of [main] partitions the entries by key: the
    keys of each dictionary are distinct, and a list is reported as a
    duplicate group exactly when it is the whole class of some entry (all
    entries with that entry's key, in their original order), has more than
    one member and its first member has a non-empty name. This holds for
    the grouping by name and for the grouping by name and command. *)
Theorem duplicate_groups_are_key_classes (entries : list Entry) :
  NoDup (by_name entries).*1 ∧ NoDup (by_name_cmd entries).*1
  ∧ (∀ g, g ∈ dup_name_groups entries
       ↔ ∃ x, x ∈ entries
              ∧ g = filter (λ e, name_key e = name_key x) entries
              ∧ 1 < length g ∧ ∃ e, head g = Some e ∧ name e ≠ "")
  ∧ (∀ g, g ∈ dup_name_cmd_groups entries
       ↔ ∃ x, x ∈ entries
              ∧ g = filter (λ e, name_cmd_key e = name_cmd_key x) entries
              ∧ 1 < length g ∧ ∃ e, head g = Some e ∧ name e ≠ "").
Proof.
  split_and!.
  - apply (grouped_all name_key entries).
  - apply (grouped_all name_cmd_key entries).
  - intros g. apply (groups_are_classes name_key).
  - intros g. apply (groups_are_classes name_cmd_key).
Qed.

Lemma lower_empty (s : string) : Py.lower s = "" → s = "".
Proof. by destruct s. Qed.

Lemma loaded_name_stripped (w : World) (e : Entry) :
  e ∈ load_entries w → Py.strip (name e) = name e.
Proof.
  intros [Hfile Hkeep]%load_entries_from_path.
  assert (read_desktop w (path e) = Some e ∧ mimetypes e ≠ []) as [Hread Hmime].
  { unfold keep_entry in Hkeep.
    destruct (read_desktop w (path e)) as [e2|]; [|done].
    destruct (mimetypes e2) eqn:Hm; [done|]. injection Hkeep as ->.
    by rewrite Hm. }
  by destruct (read_desktop_invariants w (path e) e Hread Hmime)
    as (_ & _ & _ & _ & _ & _ & _ & ? & _).
Qed.

Lemma class_of_named (w : World) (x e : Entry) :
  x ∈ load_entries w → e ∈ load_entries w →
  name_key e = name_key x → name x ≠ "" → name e ≠ "".
Proof.
  unfold name_key. intros Hx He Hk Hn Heq.
  rewrite (loaded_name_stripped w x Hx), Heq in Hk.
  apply Hn, lower_empty. by rewrite <- Hk.
Qed.

(** X5. Among the loaded entries no entry without a name is ever reported
    as a duplicate: every member of a duplicate group, by name or by name
    and command, has a non-empty name, although the code only tests the
    name of the first member. *)
Theorem nameless_entries_are_no_duplicates (w : World) :
  Forall (Forall (λ e, name e ≠ ""))
    (dup_name_groups (load_entries w) ++ dup_name_cmd_groups (load_entries w)).
Proof.
  apply Forall_app. split; apply Forall_forall; intros g Hg;
    apply Forall_forall; intros e He.
  - apply (groups_are_classes name_key) in Hg
      as (x & Hx & -> & _ & x0 & Hhead & Hn).
    apply list_elem_of_filter in He as [Hk He].
    apply head_Some_elem_of, list_elem_of_filter in Hhead as [Hk0 Hx0].
    apply (class_of_named w x0 e); [done|done|congruence|done].
  - apply (groups_are_classes name_cmd_key) in Hg
      as (x & Hx & -> & _ & x0 & Hhead & Hn).
    apply list_elem_of_filter in He as [Hk He].
    apply head_Some_elem_of, list_elem_of_filter in Hhead as [Hk0 Hx0].
    apply (class_of_named w x0 e); [done|done| |done].
    unfold name_cmd_key in *. unfold name_key. congruence.
Qed.

(** ** Provider ranks and the keep of the name and command strategy *)

Section rank_tables.

Local Arguments String.eqb : simpl never.

Lemma elem_of_three (x a b c : string) :
  x ∉ [a; b; c] → a ≠ x ∧ b ≠ x ∧ c ≠ x.
Proof.
  intros H. split_and!; intros <-; apply H.
  - apply list_elem_of_here.
  - apply list_elem_of_further, list_elem_of_here.
  - do 2 apply list_elem_of_further. apply list_elem_of_here.
Qed.

Lemma rank_fallback (prefer provider : string) :
  prefer ∉ ["native"; "flatpak"; "snap"] →
  provider_rank provider prefer = provider_rank provider "native".
Proof.
  intros (H1 & H2 & H3)%elem_of_three. unfold provider_rank.
  f_equal. unfold dict_get; simpl.
  destruct (String.eqb_spec "native" prefer); [done|].
  destruct (String.eqb_spec "flatpak" prefer); [done|].
  destruct (String.eqb_spec "snap" prefer); done.
Qed.

Lemma rank_unknown_provider (prefer provider : string) :
  prefer ∈ ["native"; "flatpak"; "snap"] →
  provider ∉ ["native"; "flatpak"; "snap"] →
  provider_rank provider prefer = 3.
Proof.
  intros Hp (H1 & H2 & H3)%elem_of_three.
  repeat (apply elem_of_cons in Hp as [->|Hp]); [..|by apply elem_of_nil in Hp];
    unfold provider_rank, dict_get; simpl;
    repeat match goal with
           | |- context [String.eqb ?a provider] =>
               destruct (String.eqb_spec a provider); [done|]; simpl
           end; done.
Qed.

Lemma rank_injective_known (prefer p1 p2 : string) :
  prefer ∈ ["native"; "flatpak"; "snap"] →
  p1 ∈ ["native"; "flatpak"; "snap"; "other"] →
  p2 ∈ ["native"; "flatpak"; "snap"; "other"] →
  provider_rank p1 prefer = provider_rank p2 prefer → p1 = p2.
Proof.
  intros Hp H1 H2.
  repeat (apply elem_of_cons in Hp as [->|Hp]); [..|by apply elem_of_nil in Hp];
    (repeat (apply elem_of_cons in H1 as [->|H1]); [..|by apply elem_of_nil in H1]);
    (repeat (apply elem_of_cons in H2 as [->|H2]); [..|by apply elem_of_nil in H2]);
    vm_compute; congruence.
Qed.

End rank_tables.

(** X6. For every preference the rank orders the four providers strictly:
    two of them never share a rank, the preferred one alone has rank 0,
    and the rank is at most 3. A preference other than native, flatpak or
    snap ranks as native does, and a provider outside the table ranks
    last, as other does. *)
Theorem provider_rank_is_a_strict_order (prefer : string) :
  (∀ p1 p2,
     p1 ∈ ["native"; "flatpak"; "snap"; "other"] →
     p2 ∈ ["native"; "flatpak"; "snap"; "other"] →
     provider_rank p1 prefer = provider_rank p2 prefer → p1 = p2)
  ∧ (∀ p, provider_rank p prefer ≤ 3)
  ∧ (∀ p, p ∉ ["native"; "flatpak"; "snap"] → provider_rank p prefer = 3)
  ∧ (prefer ∈ ["native"; "flatpak"; "snap"] →
     ∀ p, provider_rank p prefer = 0 ↔ p = prefer)
  ∧ (prefer ∉ ["native"; "flatpak"; "snap"] →
     ∀ p, provider_rank p prefer = provider_rank p "native").
Proof.
  assert ("native" ∈ ["native"; "flatpak"; "snap"]) as Hnat
    by apply list_elem_of_here.
  split_and!.
  - intros p1 p2 H1 H2.
    destruct (decide (prefer ∈ ["native"; "flatpak"; "snap"])) as [Hp|Hp].
    + by apply rank_injective_known.
    + rewrite !(rank_fallback prefer) by done. by apply rank_injective_known.
  - intros p. apply rank_at_most_three.
  - intros p Hout.
    destruct (decide (prefer ∈ ["native"; "flatpak"; "snap"])) as [Hp|Hp].
    + by apply rank_unknown_provider.
    + rewrite rank_fallback by done. by apply rank_unknown_provider.
  - intros Hp p. split.
    + intros H0.
      destruct (decide (p ∈ ["native"; "flatpak"; "snap"])) as [Hin|Hout].
      * apply (rank_injective_known prefer); [done| | |].
        -- repeat (apply elem_of_cons in Hin as [->|Hin]);
             [..|by apply elem_of_nil in Hin].
           ++ apply list_elem_of_here.
           ++ apply list_elem_of_further, list_elem_of_here.
           ++ do 2 apply list_elem_of_further. apply list_elem_of_here.
        -- repeat (apply elem_of_cons in Hp as [->|Hp]);
             [..|by apply elem_of_nil in Hp].
           ++ apply list_elem_of_here.
           ++ apply list_elem_of_further, list_elem_of_here.
           ++ do 2 apply list_elem_of_further. apply list_elem_of_here.
        -- by rewrite H0, rank_of_preferred.
      * rewrite rank_unknown_provider in H0 by done. lia.
    + intros ->. by apply rank_of_preferred.
  - intros Hp p. by apply rank_fallback.
Qed.

Lemma first_system_spec (group : list Entry) (i0 : nat) :
  match first_system i0 group with
  | Some (i, e) =>
      i0 ≤ i ∧ group !! (i - i0) = Some e ∧ scope e = "system"
      ∧ ∀ j x, j < i - i0 → group !! j = Some x → scope x ≠ "system"
  | None => ∀ x, x ∈ group → scope x ≠ "system"
  end.
Proof.
  revert i0. induction group as [|e group IH]; intros i0; simpl.
  - by intros x ?%elem_of_nil.
  - destruct (String.eqb_spec (scope e) "system") as [Hs|Hs].
    + rewrite Nat.sub_diag. split_and!; [lia|done|done|intros; lia].
    + specialize (IH (S i0)). destruct (first_system (S i0) group) as [[i x]|].
      * destruct IH as (Hle & Hat & Hsys & Hbefore).
        replace (i - i0) with (S (i - S i0)) by lia.
        split_and!; [lia|done|done|].
        intros [|j] y Hj Hy; simpl in Hy; [by injection Hy as <-|].
        apply (Hbefore j); [lia|done].
      * intros y [->|Hy]%elem_of_cons; [done|by apply IH].
Qed.

(** X7. The name and command strategy keeps the first system entry of a
    group, and the first entry when the group has no system entry: the
    keep is the member at the returned position, no member before it is a
    system entry, and a user entry is kept only when the whole group is
    made of user entries. Only the empty group has no keep. *)
Theorem keep_by_name_cmd_is_first_system (group : list Entry) :
  match keep_by_name_cmd group with
  | Some (i, e) =>
      group !! i = Some e
      ∧ (∀ j x, j < i → group !! j = Some x → scope x ≠ "system")
      ∧ (scope e ≠ "system" →
         i = 0 ∧ ∀ x, x ∈ group → scope x ≠ "system")
  | None => group = []
  end.
Proof.
  unfold keep_by_name_cmd. pose proof (first_system_spec group 0) as H.
  destruct (first_system 0 group) as [[i e]|].
  - rewrite Nat.sub_0_r in H. destruct H as (_ & Hat & Hsys & Hbefore).
    split_and!; [done|done|by intros []].
  - destruct group as [|e group]; [done|].
    split_and!; [done|intros; lia|done].
Qed.

(** ** What a run may change *)

Section frame.
Context (R : relation state) `{!PreOrder R}.
Hypothesis R_trace :
  ∀ s t, R s {| files := files s; links := links s; dirs := dirs s;
                trace := t |}.

Lemma keeps_ret {A} (a : A) : keeps R (mret a : M A).
Proof. intros s. reflexivity. Qed.

Lemma keeps_raise {A} (msg : string) : keeps R (raise msg : M A).
Proof. intros s. reflexivity. Qed.

Lemma keeps_bind {A B} (m : M A) (k : A → M B) :
  keeps R m → (∀ a, keeps R (k a)) → keeps R (m ≫= k).
Proof.
  intros Hm Hk s. unfold mbind, M_bind.
  specialize (Hm s). destruct (m s) as [a s1|msg s1]; simpl in *; [|done].
  etrans; [exact Hm|apply Hk].
Qed.


Lemma keeps_emit_event (e : event) : keeps R (emit_event e).
Proof. intros s. apply R_trace. Qed.

Lemma keeps_print (line : string) : keeps R (print line).
Proof. apply keeps_emit_event. Qed.

Lemma keeps_eprint (line : string) : keeps R (eprint line).
Proof. apply keeps_emit_event. Qed.



Lemma keeps_write_json (w : World) (p : string) (pl : Payload) :
  keeps R (write_json w p pl).
Proof.
  intros s. unfold write_json.
  destruct (write_error w p); [reflexivity|apply keeps_emit_event].
Qed.

Lemma keeps_for_each {A} (l : list A) (body : A → M unit) :
  (∀ x, x ∈ l → keeps R (body x)) → keeps R (for_each l body).
Proof.
  induction l as [|x l IH]; intros Hbody; simpl.
  - apply keeps_ret.
  - apply keeps_bind.
    + apply Hbody, list_elem_of_here.
    + intros _. apply IH. intros y Hy. by apply Hbody, list_elem_of_further.
Qed.


Lemma keeps_first_entry (g : list Entry) : keeps R (first_entry g).
Proof. destruct g; [apply keeps_raise|apply keeps_ret]. Qed.

Lemma keeps_scan_report (entries broken : list Entry)
    (name_groups name_cmd_groups : list (list Entry)) :
  keeps R (scan_report entries broken name_groups name_cmd_groups).
Proof.
  assert (∀ g, keeps R (print_members g)) as Hmembers.
  { intros g. apply keeps_for_each. intros e _. apply keeps_print. }
  unfold scan_report.
  repeat first
    [ apply keeps_print
    | apply keeps_first_entry
    | apply Hmembers
    | apply keeps_bind; [|intros ?]
    | apply keeps_for_each; intros ? _ ].
Qed.

Lemma keeps_json_step (w : World) (target : option string) (pl : Payload) :
  keeps R (match target with
           | Some p =>
               if Py.truthy p then
                 write_json w p pl;;
                 print (newline +:+ "JSON report written to " +:+ p)
               else mret tt
           | None => mret tt
           end).
Proof.
  destruct target as [p|]; [|apply keeps_ret].
  destruct (Py.truthy p); [|apply keeps_ret].
  apply keeps_bind; [apply keeps_write_json|intros _; apply keeps_print].
Qed.

End frame.

Global Instance same_files_preorder : PreOrder same_files.
Proof.
  split.
  - by intros s.
  - intros s1 s2 s3 (H1 & H2 & H3) (H4 & H5 & H6). split_and!; congruence.
Qed.

Global Instance same_outside_home_preorder (w : World) :
  PreOrder (same_outside_home w).
Proof.
  split.
  - by intros s Hs.
  - intros s1 s2 s3 H1 H2 Hs1.
    destruct (H1 Hs1) as [Hs2 H12]. destruct (H2 Hs2) as [Hs3 H23].
    split; [done|]. intros q Hq.
    destruct (H12 q Hq) as [E1 E2]. destruct (H23 q Hq) as [E3 E4].
    split; congruence.
Qed.

(** X8. The tool is safe by default: a run without [--fix-broken],
    [--hide-duplicates] and [--fix-mimeapps] changes no descriptor or
    association file, no link and makes no directory, whatever the
    entries, the other options and the failures of the file system are.
    Its only output is what it prints and the JSON report. *)
Theorem main_is_safe_by_default (w : World) (a : Args) (entries : list Entry)
    (s : state) :
  fix_broken a = false → hide_duplicates a = false → fix_mimeapps a = false →
  files (final (main_on w a entries s)) = files s
  ∧ dirs (final (main_on w a entries s)) = dirs s
  ∧ files (final (main w a s)) = files s
  ∧ dirs (final (main w a s)) = dirs s
  ∧ links (final (main_on w a entries s)) = links s
  ∧ links (final (main w a s)) = links s.
Proof.
  intros Hb Hd Hm.
  assert (∀ es, keeps same_files (main_on w a es)) as Hkeeps.
  { intros es. unfold main_on. rewrite Hb, Hd, Hm. simpl.
    assert (∀ s t, same_files s {| files := files s; links := links s;
                                   dirs := dirs s; trace := t |})
      as Htrace by done.
    apply (keeps_bind same_files); [|intros ?].
    { destruct (scan a || true);
        [by apply (keeps_scan_report same_files)|apply (keeps_ret same_files)]. }
    apply (keeps_bind same_files);
      [by apply (keeps_json_step same_files)|intros ?].
    repeat (apply (keeps_bind same_files);
            [apply (keeps_ret same_files)|intros ?]).
    apply (keeps_ret same_files). }
  destruct (Hkeeps entries s) as (? & ? & ?).
  destruct (Hkeeps (load_entries w) s) as (? & ? & ?). done.
Qed.

Lemma main_is_safe_by_default_witness :
  files (final (main example_world scan_args example_state))
  = files example_state
  ∧ dirs (final (main example_world scan_args example_state))
    = dirs example_state.
Proof.
  destruct (main_is_safe_by_default example_world scan_args [] example_state
              eq_refl eq_refl eq_refl) as (_ & _ & ? & ? & _).
  done.
Defined.








Section home_frame.
Context (w : World).

Let R := same_outside_home w.

Lemma home_same (s s' : state) :
  files s' = files s → links s' = links s → R s s'.
Proof.
  intros Hf Hl Hs. split.
  - intros q Hq. rewrite Hl. by apply Hs.
  - intros q _. by rewrite Hf, Hl.
Qed.




Lemma home_move (src dst : string) :
  Py.startswith src (home w) = true → Py.startswith dst (home w) = true →
  keeps R (move w src dst).
Proof.
  intros Hsrc Hdst s Hs. unfold move.
  destruct (move_error w src dst); [by apply home_same|].
  rewrite (Hs src Hsrc).
  destruct (files s !! src); [|by apply home_same]. simpl. split.
  - intros q Hq. simpl.
    apply lookup_delete_None. right. apply lookup_delete_None. right.
    by apply Hs.
  - intros q Hq.
    assert (q ≠ src ∧ q ≠ dst) as [? ?] by (split; intros ->; congruence).
    by rewrite lookup_insert_ne, !lookup_delete_ne.
Qed.







End home_frame.




(** ** The cleaner on one value *)

Lemma clean_items_spec (existing items new : list string) (seen : gset string)
    (d m : nat) :
  (∀ x, x ∈ seen ↔ x ∈ new) → NoDup new →
  ∃ ext dd,
    clean_items existing items new seen d m
    = (new ++ ext, d + dd, m + length (filter (λ x, x ∉ existing) items))
    ∧ NoDup (new ++ ext)
    ∧ ext `sublist_of` items
    ∧ (∀ x, x ∈ ext ↔ x ∈ items ∧ x ∈ existing ∧ x ∉ new)
    ∧ dd + length (filter (λ x, x ∉ existing) items) + length ext
      = length items.
Proof.
  revert new seen d m.
  induction items as [|it items IH]; intros new seen d m Hseen Hnd; simpl.
  - exists [], 0. rewrite app_nil_r. split_and!; [triple_eq|done|done| |done].
    intros x. split; [by intros ?%elem_of_nil|by intros [?%elem_of_nil _]].
  - destruct (decide (it ∈ existing)) as [Hex|Hex].
    + rewrite (bool_decide_true _ Hex), filter_cons_False by tauto. simpl.
      destruct (decide (it ∈ seen)) as [Hs|Hs].
      * rewrite (bool_decide_true _ Hs).
        destruct (IH new seen (S d) m Hseen Hnd)
          as (ext & dd & -> & Hnd' & Hsub & Hmem & Hlen).
        exists ext, (S dd). split_and!; [triple_eq|done|by apply sublist_cons| |lia].
        intros x. rewrite Hmem, elem_of_cons. split; [tauto|].
        intros ([->|?] & ? & Hnew); [|tauto]. destruct Hnew. by apply Hseen.
      * rewrite (bool_decide_false _ Hs).
        destruct (IH (new ++ [it]) ({[it]} ∪ seen) d m)
          as (ext & dd & -> & Hnd' & Hsub & Hmem & Hlen).
        { intros x. rewrite elem_of_union, elem_of_singleton, elem_of_app,
            list_elem_of_singleton, Hseen. tauto. }
        { apply NoDup_app. split_and!; [done| |apply NoDup_singleton].
          intros x Hx ->%list_elem_of_singleton. by apply Hs, Hseen. }
        exists (it :: ext), dd. rewrite <- app_assoc in *. simpl in *.
        split_and!; [done|done|by apply sublist_skip| |lia].
        intros x. rewrite !elem_of_cons, Hmem, elem_of_app,
          list_elem_of_singleton.
        split.
        -- intros [->|(? & ? & Hn)]; [|tauto].
           split_and!; [by left|done|]. intros Hn. by apply Hs, Hseen.
        -- intros ([->|?] & ? & ?); [by left|].
           destruct (decide (x = it)) as [->|?]; [by left|right; tauto].
    + rewrite (bool_decide_false _ Hex), filter_cons_True by done. simpl.
      destruct (IH new seen d (S m) Hseen Hnd)
        as (ext & dd & -> & Hnd' & Hsub & Hmem & Hlen).
      exists ext, dd. split_and!; [triple_eq|done|by apply sublist_cons| |lia].
      intros x. rewrite Hmem, elem_of_cons. split; [tauto|].
      intros ([->|?] & ? & ?); [done|tauto].
Qed.

(** X10. What the cleaner makes of one value: the identifiers it keeps
    are the known ones among those listed, each once and in their listed
    order, written back each with its semicolon; every listed identifier
    is kept, counted as missing (the unknown ones, with their repeats) or
    counted as a duplicate. *)
Theorem clean_value_keeps_known_once (existing : list string) (val : string) :
  ∃ new,
    (clean_value existing val).1.1 = join_ids new
    ∧ NoDup new
    ∧ new `sublist_of` split_ids val
    ∧ (∀ x, x ∈ new ↔ x ∈ split_ids val ∧ x ∈ existing)
    ∧ (clean_value existing val).2
      = length (filter (λ x, x ∉ existing) (split_ids val))
    ∧ (clean_value existing val).1.2 + (clean_value existing val).2 + length new
      = length (split_ids val).
Proof.
  unfold clean_value.
  destruct (clean_items_spec existing (split_ids val) [] ∅ 0 0)
    as (new & dd & -> & Hnd & Hsub & Hmem & Hlen).
  { intros x. rewrite elem_of_empty, elem_of_nil. tauto. }
  { apply NoDup_nil_2. }
  exists new. simpl in *. split_and!; [done|done|done| |done|lia].
  intros x. rewrite Hmem, elem_of_nil. tauto.
Qed.

Lemma split_go_final_sep (sep : ascii) (cur s : string) :
  Py.split_go sep cur (s +:+ String sep "") = Py.split_go sep cur s ++ [""].
Proof.
  revert cur. induction s as [|c s IH]; intros cur.
  - rewrite append_nil_l. simpl. by rewrite Ascii.eqb_refl.
  - rewrite append_cons. simpl. destruct (Ascii.eqb c sep); by rewrite IH.
Qed.

Lemma split_ids_final_sep (val : string) :
  split_ids (val +:+ ";") = split_ids val.
Proof.
  unfold split_ids, Py.split.
  rewrite (split_go_final_sep ";" "" val), filter_app.
  rewrite filter_cons_False, filter_nil, app_nil_r; [done|by intros ?].
Qed.

Lemma join_ids_join (new : list string) :
  new ≠ [] → join_ids new = Py.join ";" new +:+ ";".
Proof. unfold join_ids. by destruct new. Qed.

Lemma length_append (s t : string) :
  String.length (s +:+ t) = String.length s + String.length t.
Proof.
  induction s as [|c s IH]; [done|]. rewrite append_cons. simpl. by rewrite IH.
Qed.

Lemma append_sep_differs (s : string) : s +:+ ";" ≠ s.
Proof.
  intros E. apply (f_equal String.length) in E.
  rewrite length_append in E. simpl in E. lia.
Qed.

(** X11. A value that lists known identifiers, each once, but lacks the
    final semicolon is rewritten with it: the turn of the loop marks the
    file as changed although it removes nothing, so that the file is
    rewritten and the counts stay as they were. *)
Theorem unterminated_value_is_rewritten (existing new : list string)
    (section key : string) (st : cleaning) :
  new ≠ [] → NoDup new →
  Forall (λ x, x ∈ existing ∧ x ≠ "" ∧ no_sep ";" x) new →
  ConfigParser.get (cfg st) section key = Some (Py.join ";" new) →
  clean_value existing (Py.join ";" new) = (Py.join ";" new +:+ ";", 0, 0)
  ∧ changed (clean_key existing section st key) = true
  ∧ ConfigParser.get (cfg (clean_key existing section st key)) section key
    = Some (Py.join ";" new +:+ ";")
  ∧ removed_dup (clean_key existing section st key) = removed_dup st
  ∧ removed_missing (clean_key existing section st key) = removed_missing st.
Proof.
  intros Hne Hnd Hall Hget.
  assert (clean_value existing (Py.join ";" new)
          = (Py.join ";" new +:+ ";", 0, 0)) as Hval.
  { unfold clean_value.
    rewrite <- split_ids_final_sep, <- join_ids_join by done.
    rewrite split_join_ids.
    - rewrite clean_items_keeps_all; [done|done| |].
      + eapply Forall_impl; [exact Hall|]. by intros x [? _].
      + intros x _. apply not_elem_of_empty.
    - eapply Forall_impl; [exact Hall|]. by intros x (_ & ? & ?). }
  split; [done|].
  rewrite clean_key_unfold. cbv zeta. rewrite Hget. simpl. rewrite Hval. simpl.
  destruct (String.eqb_spec (Py.join ";" new +:+ ";") (Py.join ";" new))
    as [E|_]; [by apply append_sep_differs in E|].
  simpl. rewrite get_set_eq. split_and!; [done|done|lia|lia].
Qed.

Lemma unterminated_value_is_rewritten_witness :
  clean_value ["a.desktop"] "a.desktop" = ("a.desktop;", 0, 0)
  ∧ changed
      (clean_key ["a.desktop"] "Added Associations"
         (untouched
            {| ConfigParser.defaults := [];
               ConfigParser.sections :=
                 [("Added Associations", [("text/plain", "a.desktop")])] |})
         "text/plain")
    = true.
Proof.
  destruct (unterminated_value_is_rewritten ["a.desktop"] ["a.desktop"]
              "Added Associations" "text/plain"
              (untouched
                 {| ConfigParser.defaults := [];
                    ConfigParser.sections :=
                      [("Added Associations", [("text/plain", "a.desktop")])] |}))
    as (Hval & Hch & _).
  - done.
  - apply NoDup_singleton.
  - apply Forall_singleton. split_and!; [apply list_elem_of_here|done|].
    intros c Hc. simpl in Hc.
    repeat (destruct Hc as [<-|Hc]; [done|]). done.
  - reflexivity.
  - split; [exact Hval|exact Hch].
Defined.

(** ** Hiding again *)

Lemma replace_first_again (lines lines' : list string) :
  replace_first_nodisplay lines = (lines', true) →
  replace_first_nodisplay lines' = (lines', true).
Proof.
  revert lines'. induction lines as [|line rest IH]; intros lines'; simpl.
  - done.
  - destruct (Py.startswith line "NoDisplay=") eqn:Hline.
    + by intros [= <-].
    + destruct (replace_first_nodisplay rest) as [rest' found] eqn:Hrest.
      intros [= <- ->]. simpl. rewrite Hline.
      by rewrite (IH rest' eq_refl).
Qed.

Lemma replace_first_appended (lines lines' : list string) :
  replace_first_nodisplay lines = (lines', false) →
  replace_first_nodisplay (lines' ++ ["NoDisplay=true"])
  = (lines' ++ ["NoDisplay=true"], true).
Proof.
  revert lines'. induction lines as [|line rest IH]; intros lines'; simpl.
  - by intros [= <-].
  - destruct (Py.startswith line "NoDisplay=") eqn:Hline; [done|].
    destruct (replace_first_nodisplay rest) as [rest' found] eqn:Hrest.
    intros [= <- ->]. simpl. rewrite Hline.
    by rewrite (IH rest' eq_refl).
Qed.

Lemma force_nodisplay_idempotent (lines : list string) :
  force_nodisplay (force_nodisplay lines) = force_nodisplay lines.
Proof.
  unfold force_nodisplay.
  destruct (replace_first_nodisplay lines) as [lines' [|]] eqn:H.
  - by rewrite (replace_first_again _ _ H).
  - by rewrite (replace_first_appended _ _ H).
Qed.

Lemma shadow_content_idempotent (content : string) :
  shadow_content (shadow_content content) = shadow_content content.
Proof.
  unfold shadow_content at 1.
  by rewrite shadow_content_lines, force_nodisplay_idempotent.
Qed.

Ltac run_again :=
  cbn [final files links dirs trace];
  rewrite ?set_nodisplay_override_run, ?disable_user_file_run;
  unfold resolve in *; cbn [final files links dirs trace].

(** X12. Shadowing is idempotent. The shadow content of a shadow content
    is that content, and a second call of [set_nodisplay_override] on the
    same descriptor, right after the first, changes no file, no link and
    no directory any more, whether the calls succeed or fail and also
    when the descriptor is its own shadow copy or the shadow path is a
    link to it. *)
Theorem set_nodisplay_override_twice (w : World) (p : string) (s : state) :
  (∀ content, shadow_content (shadow_content content) = shadow_content content)
  ∧ files (final (set_nodisplay_override w p
                    (final (set_nodisplay_override w p s))))
    = files (final (set_nodisplay_override w p s))
  ∧ dirs (final (set_nodisplay_override w p
                   (final (set_nodisplay_override w p s))))
    = dirs (final (set_nodisplay_override w p s))
  ∧ links (final (set_nodisplay_override w p
                    (final (set_nodisplay_override w p s))))
    = links (final (set_nodisplay_override w p s)).
Proof.
  split; [apply shadow_content_idempotent|].
  assert ({[user_applications w]} ∪ ({[user_applications w]} ∪ dirs s)
          = {[user_applications w]} ∪ dirs s) as Hdirs
    by (by rewrite (assoc_L (∪)), (idemp_L (∪))).
  rewrite (set_nodisplay_override_run w p s). unfold resolve.
  destruct (mkdir_error w (user_applications w)) as [msg|] eqn:Hmk.
  { run_again. by rewrite Hmk. }
  cbv zeta.
  destruct (read_error w p) as [msg|] eqn:Hr.
  { run_again. by rewrite Hmk, Hr. }
  destruct (resolve_go w (files s) (links s) max_links p) as [t|] eqn:Ht.
  2: { run_again. by rewrite Hmk, Hr, Ht. }
  destruct (files s !! t) as [bytes|] eqn:Hf.
  2: { run_again. by rewrite Hmk, Hr, Ht, Hf. }
  destruct (write_error w (shadow_path w p)) as [msg|] eqn:Hw.
  { run_again. by rewrite Hmk, Hr, Ht, Hf, Hw. }
  destruct (resolve_go w (files s) (links s) max_links (shadow_path w p))
    as [d|] eqn:Hd.
  2: { run_again. by rewrite Hmk, Hr, Ht, Hf, Hw, Hd. }
  run_again. rewrite Hmk, Hr, Hw.
  rewrite !resolve_go_insert by (by eapply resolve_go_end).
  rewrite Ht, Hd. cbv zeta.
  destruct (decide (t = d)) as [->|Hne].
  - rewrite lookup_insert_eq. cbn [final files links dirs trace].
    rewrite shadow_content_read_back, shadow_content_idempotent.
    by rewrite insert_insert_eq.
  - rewrite lookup_insert_ne, Hf by done. cbn [final files links dirs trace].
    by rewrite insert_insert_eq.
Qed.

Lemma resolve_go_more (w : World) (fs ls : gmap string string) (fuel : nat)
    (p t : string) :
  resolve_go w fs ls fuel p = Some t → resolve_go w fs ls (S fuel) p = Some t.
Proof.
  revert p. induction fuel as [|fuel IH]; intros p.
  - rewrite (resolve_go_eq _ _ _ 0), (resolve_go_eq _ _ _ 1).
    destruct (fs !! p); [done|]. by destruct (ls !! p).
  - rewrite (resolve_go_eq _ _ _ (S fuel)), (resolve_go_eq _ _ _ (S (S fuel))).
    destruct (fs !! p); [done|]. destruct (ls !! p); [apply IH|done].
Qed.

(** A path where nothing is: disabling it changes nothing. *)
Lemma disable_absent (w : World) (p : string) (s : state) :
  files s !! p = None → links s !! p = None →
  files (final (disable_user_file w p s)) = files s
  ∧ links (final (disable_user_file w p s)) = links s
  ∧ (mkdir_error w (disabled_dir w) = None →
     dirs (final (disable_user_file w p s)) = {[disabled_dir w]} ∪ dirs s).
Proof.
  intros Hf Hl. rewrite disable_user_file_run.
  rewrite (resolve_plain w s p Hl), Hf.
  destruct (mkdir_error w (disabled_dir w)); [done|].
  rewrite bool_decide_false by (by intros [? ?]). done.
Qed.

(** The second of two calls in a row leaves what the first left. *)
Lemma disable_twice (w : World) (p : string) (s : state) :
  let s1 := final (disable_user_file w p s) in
  let s2 := final (disable_user_file w p s1) in
  files s2 = files s1 ∧ links s2 = links s1 ∧ dirs s2 = dirs s1.
Proof.
  cbv zeta.
  assert ({[disabled_dir w]} ∪ ({[disabled_dir w]} ∪ dirs s)
          = {[disabled_dir w]} ∪ dirs s) as Hdirs
    by (by rewrite (assoc_L (∪)), (idemp_L (∪))).
  rewrite (disable_user_file_run w p s). unfold resolve.
  destruct (mkdir_error w (disabled_dir w)) as [msg|] eqn:Hmk.
  { run_again. by rewrite Hmk. }
  cbv zeta.
  destruct (match resolve_go w (files s) (links s) max_links p with
            | Some t => bool_decide (is_Some (files s !! t))
            | None => false
            end) eqn:Hex.
  2: { run_again. by rewrite Hmk, Hex. }
  destruct (move_error w p (disabled_path w p)) as [msg|] eqn:Hmv.
  { run_again. by rewrite Hmk, Hex, Hmv. }
  destruct (files s !! p) as [bytes|] eqn:Hf.
  - destruct (decide (p = disabled_path w p)) as [E|E].
    + rewrite <- E in Hmv |- *. run_again. rewrite Hmk. rewrite <- E.
      rewrite (resolve_go_file _ _ _ _ p bytes) by apply lookup_insert_eq.
      rewrite lookup_insert_eq, bool_decide_true by eauto.
      rewrite Hmv. cbn [final files links dirs trace].
      rewrite !insert_delete_eq, insert_insert_eq, !delete_delete_eq.
      done.
    + cbn [final].
      destruct (disable_absent w p
                  {| files := <[disabled_path w p := bytes]> (delete p (files s));
                     links := delete (disabled_path w p) (delete p (links s));
                     dirs := {[disabled_dir w]} ∪ dirs s;
                     trace := trace s |}) as (H1 & H2 & H3).
      * cbn [files]. rewrite lookup_insert_ne by done. apply lookup_delete_eq.
      * cbn [links]. rewrite lookup_delete_ne by done. apply lookup_delete_eq.
      * rewrite H1, H2, (H3 Hmk). done.
  - destruct (links s !! p) as [target|] eqn:Hl.
    2: { run_again. by rewrite Hmk, Hex, Hmv, Hf, Hl. }
    destruct (decide (p = disabled_path w p)) as [E|E].
    + rewrite <- E. cbn [final].
      assert (delete p (files s) = files s) as Efs by by apply delete_id.
      assert (<[p := target]> (delete p (links s)) = links s) as Els.
      { rewrite insert_delete_eq. by apply insert_id. }
      rewrite <- E in Hmv. rewrite Efs, Els.
      run_again. rewrite Hmk, Hex. rewrite <- E, Hmv, Hf, Hl.
      cbn [final files links dirs trace]. by rewrite Efs, Els.
    + cbn [final].
      destruct (disable_absent w p
                  {| files := delete (disabled_path w p) (files s);
                     links := <[disabled_path w p := target]>
                                (delete p (links s));
                     dirs := {[disabled_dir w]} ∪ dirs s;
                     trace := trace s |}) as (H1 & H2 & H3).
      * cbn [files]. by rewrite lookup_delete_ne.
      * cbn [links]. rewrite lookup_insert_ne by done. apply lookup_delete_eq.
      * rewrite H1, H2, (H3 Hmk). done.
Qed.

(** X13. [disable_user_file] renames the entry at the path. A regular
    file is afterwards at the disabled path with its bytes; a symbolic
    link that leads to a file is afterwards at the disabled path as a
    link with the target it stored, and when that target, counted from
    the disabled folder, leads to no file, neither does the moved link.
    In both cases nothing is left at the original path (unless it is the
    disabled path) and no other file or link changes. A path that leads
    to no file is left alone and the disabled path is returned all the
    same. A second call right after the first changes no file, no link
    and no directory. *)
Theorem disable_user_file_relocates (w : World) (p : string) (s : state) :
  (mkdir_error w (disabled_dir w) = None →
   move_error w p (disabled_path w p) = None →
   ∀ bytes, files s !! p = Some bytes →
   ∃ s', disable_user_file w p s = Done (disabled_path w p) s'
         ∧ files s' !! disabled_path w p = Some bytes
         ∧ links s' !! disabled_path w p = None
         ∧ (p ≠ disabled_path w p →
            files s' !! p = None ∧ links s' !! p = None)
         ∧ (∀ q, q ≠ p → q ≠ disabled_path w p →
                 files s' !! q = files s !! q ∧ links s' !! q = links s !! q)
         ∧ trace s' = trace s)
  ∧ (mkdir_error w (disabled_dir w) = None →
     move_error w p (disabled_path w p) = None →
     ∀ target, files s !! p = None → links s !! p = Some target →
     is_Some (text_at w s p) →
     ∃ s', disable_user_file w p s = Done (disabled_path w p) s'
           ∧ links s' !! disabled_path w p = Some target
           ∧ files s' !! disabled_path w p = None
           ∧ (text_at w s' (follow w (disabled_path w p) target) = None →
              text_at w s' (disabled_path w p) = None)
           ∧ (p ≠ disabled_path w p →
              files s' !! p = None ∧ links s' !! p = None)
           ∧ (∀ q, q ≠ p → q ≠ disabled_path w p →
                   files s' !! q = files s !! q
                   ∧ links s' !! q = links s !! q)
           ∧ trace s' = trace s)
  ∧ (mkdir_error w (disabled_dir w) = None → text_at w s p = None →
     ∃ s', disable_user_file w p s = Done (disabled_path w p) s'
           ∧ files s' = files s ∧ links s' = links s
           ∧ trace s' = trace s)
  ∧ files (final (disable_user_file w p (final (disable_user_file w p s))))
    = files (final (disable_user_file w p s))
  ∧ links (final (disable_user_file w p (final (disable_user_file w p s))))
    = links (final (disable_user_file w p s))
  ∧ dirs (final (disable_user_file w p (final (disable_user_file w p s))))
    = dirs (final (disable_user_file w p s)).
Proof.
  assert ({[disabled_dir w]} ∪ ({[disabled_dir w]} ∪ dirs s)
          = {[disabled_dir w]} ∪ dirs s) as Hdirs
    by (by rewrite (assoc_L (∪)), (idemp_L (∪))).
  split_and!.
  - intros Hmk Hmv bytes Hf.
    rewrite disable_user_file_run, Hmk, Hmv, (resolve_file w s p _ Hf), Hf.
    rewrite bool_decide_true by eauto.
    eexists. split; [reflexivity|]. cbn [files links trace]. split_and!.
    + apply lookup_insert_eq.
    + apply lookup_delete_eq.
    + intros Hne. split.
      * rewrite lookup_insert_ne by done. apply lookup_delete_eq.
      * rewrite lookup_delete_ne by done. apply lookup_delete_eq.
    + intros q Hq Hd.
      rewrite lookup_insert_ne by done. by rewrite !lookup_delete_ne.
    + done.
  - intros Hmk Hmv target Hf Hl [c Hc].
    rewrite disable_user_file_run, Hmk, Hmv, Hf, Hl.
    unfold text_at in Hc.
    destruct (resolve w s p) as [t|]; [|done].
    destruct (files s !! t); [|done].
    rewrite bool_decide_true by eauto.
    eexists. split; [reflexivity|]. cbn [files links trace]. split_and!.
    + apply lookup_insert_eq.
    + apply lookup_delete_eq.
    + unfold text_at, resolve, max_links. cbn [files links].
      rewrite (resolve_go_eq _ _ _ (S _) (disabled_path w p)).
      rewrite lookup_delete_eq, lookup_insert_eq.
      destruct (resolve_go w _ _ 39 _) as [t'|] eqn:Ht'; [|done].
      by rewrite (resolve_go_more _ _ _ _ _ _ Ht').
    + intros Hne. split.
      * rewrite lookup_delete_ne by done. by rewrite Hf.
      * rewrite lookup_insert_ne by done. apply lookup_delete_eq.
    + intros q Hq Hd.
      rewrite lookup_insert_ne by done. by rewrite !lookup_delete_ne.
    + done.
  - intros Hmk Hnone. rewrite disable_user_file_run, Hmk.
    unfold text_at in Hnone.
    destruct (resolve w s p) as [t|]; [|eexists; split; [reflexivity|done]].
    destruct (files s !! t); [done|].
    rewrite bool_decide_false by (by intros [? ?]).
    eexists. split; [reflexivity|done].
  - apply disable_twice.
  - apply disable_twice.
  - apply disable_twice.
Qed.

(** ** The identifiers the cleaner knows *)

Lemma loaded_iff (w : World) (e : Entry) :
  e ∈ load_entries w
  ↔ path e ∈ find_desktop_files w ∧ read_desktop w (path e) = Some e
    ∧ mimetypes e ≠ [].
Proof.
  split.
  - intros [Hfile Hkeep]%load_entries_from_path.
    unfold keep_entry in Hkeep.
    destruct (read_desktop w (path e)) as [e2|]; [|done].
    destruct (mimetypes e2) eqn:Hm; [done|]. injection Hkeep as ->.
    by rewrite Hm.
  - intros (Hfile & Hread & Hm). unfold load_entries, load_entries_from.
    apply list_elem_of_omap. exists (path e). split; [done|].
    rewrite Hread. simpl. by destruct (mimetypes e).
Qed.

Lemma split_ids_single (x : string) :
  x ≠ "" → no_sep ";" x → split_ids (x +:+ ";") = [x].
Proof.
  intros Hx Hsep.
  rewrite <- (split_join_ids [x]) by (by apply Forall_singleton).
  by rewrite join_ids_cons, append_nil_r.
Qed.

(** X14. The identifiers the association cleaner takes for installed are
    exactly the file names of the discovered descriptors that load, that
    is, that parse as an application with at least one MIME type. A
    reference to any other identifier is dropped and counted as
    missing, also when a descriptor of that name is installed but declares
    no MIME type. *)
Theorem known_ids_are_loaded_names (w : World) (x : string) :
  (x ∈ all_desktop_ids (load_entries w)
   ↔ ∃ p e, p ∈ find_desktop_files w ∧ read_desktop w p = Some e
            ∧ mimetypes e ≠ [] ∧ Path.name p = x)
  ∧ (x ∉ all_desktop_ids (load_entries w) → x ≠ "" → no_sep ";" x →
     clean_value (all_desktop_ids (load_entries w)) (x +:+ ";") = ("", 0, 1)).
Proof.
  split.
  - unfold all_desktop_ids. rewrite list_elem_of_fmap. split.
    + intros (e & -> & (Hfile & Hread & Hm)%loaded_iff).
      by exists (path e), e.
    + intros (p & e & Hfile & Hread & Hm & <-).
      apply read_desktop_path in Hread as Hp. subst p.
      exists e. split; [done|]. by apply loaded_iff.
  - intros Hout Hx Hsep. unfold clean_value.
    rewrite split_ids_single by done. simpl.
    by rewrite (bool_decide_false _ Hout).
Qed.

(** ** The cleaner on a configuration *)

Lemma is_clean_canonical (existing : list string) (v : string) :
  is_clean existing v →
  ∃ new, v = join_ids new ∧ NoDup new ∧ Forall (λ x, x ∈ existing) new.
Proof.
  unfold is_clean, clean_value. intros H.
  destruct (clean_items_spec existing (split_ids v) [] ∅ 0 0)
    as (new & dd & E & Hnd & _ & Hmem & _).
  { intros x. rewrite elem_of_empty, elem_of_nil. tauto. }
  { apply NoDup_nil_2. }
  rewrite E in H. simpl in *. injection H as Hv _ _.
  exists new. split_and!; [done|done|].
  apply Forall_forall. intros x Hx. by apply Hmem in Hx as (_ & ? & _).
Qed.

(** X15. What the cleaner leaves of a configuration: in the two
    association sections every value lists known identifiers only, each
    once and each followed by a semicolon; the values of every other
    section are as they were, and no section appears or disappears. When
    the cleaner reports no change, the configuration is the one it was
    given and both counts are zero. *)
Theorem clean_config_postcondition (existing : list string)
    (c : ConfigParser.config) :
  (∀ sec k v,
     sec ∈ ["Added Associations"; "Default Applications"] →
     ConfigParser.contains c sec = true →
     ConfigParser.get (cfg (clean_config existing c)) sec k = Some v →
     ∃ new, v = join_ids new ∧ NoDup new ∧ Forall (λ x, x ∈ existing) new)
  ∧ (∀ sec k,
       sec ∉ ["Added Associations"; "Default Applications"] →
       ConfigParser.get (cfg (clean_config existing c)) sec k
       = ConfigParser.get c sec k)
  ∧ (∀ sec, ConfigParser.contains (cfg (clean_config existing c)) sec
            = ConfigParser.contains c sec)
  ∧ (changed (clean_config existing c) = false →
     cfg (clean_config existing c) = c
     ∧ removed_dup (clean_config existing c) = 0
     ∧ removed_missing (clean_config existing c) = 0).
Proof.
  unfold clean_config. simpl.
  set (st0 := {| cfg := c; changed := false; removed_dup := 0;
                 removed_missing := 0 |}).
  destruct (clean_section_spec existing "Added Associations" st0)
    as (Ha & Hga & Hca & Hsa); [done|].
  set (st1 := clean_section existing st0 "Added Associations") in *.
  destruct (clean_section_spec existing "Default Applications" st1)
    as (Hd & Hgd & Hcd & Hsd); [done|].
  set (st2 := clean_section existing st1 "Default Applications") in *.
  split_and!.
  - intros sec k v Hsec Hc Hget. apply is_clean_canonical.
    apply elem_of_cons in Hsec as [->|Hsec].
    + rewrite Hgd in Hget by done. eapply Ha; [|exact Hget].
      by rewrite Hca.
    + apply list_elem_of_singleton in Hsec as ->.
      eapply Hd; [|exact Hget]. by rewrite Hcd, Hca.
  - intros sec k Hsec. rewrite Hgd, Hga; [done| |].
    + intros ->. apply Hsec, list_elem_of_here.
    + intros ->. apply Hsec, list_elem_of_further, list_elem_of_here.
  - intros sec. by rewrite Hcd, Hca.
  - intros Hch. specialize (Hsd Hch). rewrite Hsd in Hch |- *.
    specialize (Hsa Hch). by rewrite Hsa.
Qed.

(** ** How a run ends *)








(** X17. The JSON report comes before every fix: when its file cannot be
    written the run ends there with that exception, and no descriptor, no
    association file, no link and no directory has been changed, although
    fixes were asked for. *)
Theorem json_failure_ends_run_before_fixes (w : World) (a : Args)
    (entries : list Entry) (s : state) (p msg : string) :
  json a = Some p → Py.truthy p = true → write_error w p = Some msg →
  ∃ s', main_on w a entries s = Raised msg s'
        ∧ files s' = files s ∧ dirs s' = dirs s
        ∧ reports (trace s') = reports (trace s)
        ∧ links s' = links s.
Proof.
  intros Hp Ht Hw.
  set (b := scan a || (negb (fix_broken a) && negb (hide_duplicates a)
                       && negb (fix_mimeapps a))).
  set (m := if b
            then scan_report entries (broken_entries entries)
                   (dup_name_groups entries) (dup_name_cmd_groups entries)
            else mret tt : M unit).
  assert (∃ s1, m s = Done tt s1 ∧ same_files s s1
                ∧ reports (trace s1) = reports (trace s))
    as (s1 & E & (Hf & Hl & Hd) & Hr).
  { assert (keeps same_files m) as Hkeep.
    { unfold m. destruct b; [|apply (keeps_ret same_files)].
      by apply (keeps_scan_report same_files). }
    assert (returns_silently m) as Hret.
    { unfold m. destruct b; [|by intros s0; exists tt, s0].
      apply scan_report_returns_silently.
      - apply dup_name_groups_nonempty.
      - apply dup_name_cmd_groups_nonempty. }
    specialize (Hkeep s). destruct (Hret s) as ([] & s1 & E & Hr).
    rewrite E in Hkeep. by exists s1. }
  exists s1. split; [|done].
  unfold main_on. fold b. fold m. unfold mbind, M_bind at 1. rewrite E.
  rewrite Hp, Ht. unfold mbind, M_bind, write_json. by rewrite Hw.
Qed.

Lemma json_failure_ends_run_before_fixes_witness :
  ∃ s', main hostile_world report_and_fix_args example_state
        = Raised "Permission denied" s'
        ∧ files s' = files example_state.
Proof.
  destruct (json_failure_ends_run_before_fixes hostile_world
              report_and_fix_args (load_entries hostile_world) example_state
              "/tmp/report.json" "Permission denied"
              eq_refl eq_refl eq_refl) as (s' & E & Hf & _).
  exists s'. split; [exact E|exact Hf].
Defined.
